(** * trogonerror: structured error values

    A shallow embedding of the Go package [trogonerror] (the error value,
    its option pipeline, the copy-on-write operator [WithChanges], the
    formatter [Error], identity comparison and templates) together with the
    properties its specification states about it.

    Layout of the development:
    - the data model and the pure, value-level reading of every function
      (an option, a function on a pointer to the error, is a state
      transformer on the error);
    - [Module Heap]: the same [copy] / [WithChanges] code over an explicit
      store with pointers, maps and slices, to reason about aliasing;
    - the theorems. *)

From stdpp Require Import gmap strings list fin_maps sorting pretty.
From Stdlib Require Import ZArith Lia Ascii.

#[local] Set Warnings "-register-all".
#[local] Open Scope Z_scope.

(** ** Code and Visibility *)

(** [type Code int], constants [1 + iota]. *)
Definition Code := Z.

Definition CodeCancelled : Code := 1.
Definition CodeUnknown : Code := 2.
Definition CodeInvalidArgument : Code := 3.
Definition CodeDeadlineExceeded : Code := 4.
Definition CodeNotFound : Code := 5.
Definition CodeAlreadyExists : Code := 6.
Definition CodePermissionDenied : Code := 7.
Definition CodeResourceExhausted : Code := 8.
Definition CodeFailedPrecondition : Code := 9.
Definition CodeAborted : Code := 10.
Definition CodeOutOfRange : Code := 11.
Definition CodeUnimplemented : Code := 12.
Definition CodeInternal : Code := 13.
Definition CodeUnavailable : Code := 14.
Definition CodeDataLoss : Code := 15.
Definition CodeUnauthenticated : Code := 16.

(** The sixteen named constants, in declaration order. *)
Definition allCodes : list Code :=
  [CodeCancelled; CodeUnknown; CodeInvalidArgument; CodeDeadlineExceeded;
   CodeNotFound; CodeAlreadyExists; CodePermissionDenied;
   CodeResourceExhausted; CodeFailedPrecondition; CodeAborted;
   CodeOutOfRange; CodeUnimplemented; CodeInternal; CodeUnavailable;
   CodeDataLoss; CodeUnauthenticated].

(** [type Visibility int]. *)
Definition Visibility := Z.

Definition VisibilityInternal : Visibility := 0.
Definition VisibilityPrivate : Visibility := 1.
Definition VisibilityPublic : Visibility := 2.

(** [func (c Code) Message() string]: a [switch] with a [default]. *)
Definition Code_Message (c : Code) : string :=
  if c =? CodeCancelled then "the operation was cancelled" else
  if c =? CodeUnknown then "unknown error" else
  if c =? CodeInvalidArgument then "invalid argument provided" else
  if c =? CodeDeadlineExceeded then "deadline exceeded" else
  if c =? CodeNotFound then "resource not found" else
  if c =? CodeAlreadyExists then "resource already exists" else
  if c =? CodePermissionDenied then "permission denied" else
  if c =? CodeUnauthenticated then "unauthenticated" else
  if c =? CodeResourceExhausted then "resource exhausted" else
  if c =? CodeFailedPrecondition then "failed precondition" else
  if c =? CodeAborted then "operation aborted" else
  if c =? CodeOutOfRange then "out of range" else
  if c =? CodeUnimplemented then "not implemented" else
  if c =? CodeInternal then "internal error" else
  if c =? CodeUnavailable then "service unavailable" else
  if c =? CodeDataLoss then "data loss or corruption" else
  "unknown error".

(** [func (c Code) HttpStatusCode() int]. *)
Definition Code_HttpStatusCode (c : Code) : Z :=
  if c =? CodeCancelled then 499 else
  if c =? CodeUnknown then 500 else
  if c =? CodeInvalidArgument then 400 else
  if c =? CodeDeadlineExceeded then 504 else
  if c =? CodeNotFound then 404 else
  if c =? CodeAlreadyExists then 409 else
  if c =? CodePermissionDenied then 403 else
  if c =? CodeResourceExhausted then 429 else
  if c =? CodeFailedPrecondition then 400 else
  if c =? CodeAborted then 409 else
  if c =? CodeOutOfRange then 400 else
  if c =? CodeUnimplemented then 501 else
  if c =? CodeInternal then 500 else
  if c =? CodeUnavailable then 503 else
  if c =? CodeDataLoss then 500 else
  if c =? CodeUnauthenticated then 401 else
  500.

(** [func (c Code) String() string]. *)
Definition Code_String (c : Code) : string :=
  if c =? CodeCancelled then "CANCELLED" else
  if c =? CodeUnknown then "UNKNOWN" else
  if c =? CodeInvalidArgument then "INVALID_ARGUMENT" else
  if c =? CodeDeadlineExceeded then "DEADLINE_EXCEEDED" else
  if c =? CodeNotFound then "NOT_FOUND" else
  if c =? CodeAlreadyExists then "ALREADY_EXISTS" else
  if c =? CodePermissionDenied then "PERMISSION_DENIED" else
  if c =? CodeResourceExhausted then "RESOURCE_EXHAUSTED" else
  if c =? CodeFailedPrecondition then "FAILED_PRECONDITION" else
  if c =? CodeAborted then "ABORTED" else
  if c =? CodeOutOfRange then "OUT_OF_RANGE" else
  if c =? CodeUnimplemented then "UNIMPLEMENTED" else
  if c =? CodeInternal then "INTERNAL" else
  if c =? CodeUnavailable then "UNAVAILABLE" else
  if c =? CodeDataLoss then "DATA_LOSS" else
  if c =? CodeUnauthenticated then "UNAUTHENTICATED" else
  "UNKNOWN".

(** [func (v Visibility) String() string]. *)
Definition Visibility_String (v : Visibility) : string :=
  if v =? VisibilityInternal then "INTERNAL" else
  if v =? VisibilityPrivate then "PRIVATE" else
  if v =? VisibilityPublic then "PUBLIC" else
  "UNKNOWN".

(** ** Value objects *)

Record HelpLink := mkHelpLink { description : string; url : string }.

(** [links] is a slice; at the value level a nil slice and an empty one are
    both the empty list. *)
Record Help := mkHelp { links : list HelpLink }.

Record MetadataValue := mkMetadataValue {
  value : string;
  mv_visibility : Visibility }.

(** [type Metadata = map[string]MetadataValue]; at the value level a nil
    map and an empty one are both [∅]. *)
Abbreviation Metadata := (gmap string MetadataValue).

(** The fields of [runtime.Frame] the package reads. *)
Record Frame := mkFrame { File : string; Line : Z; Function : string }.

Record DebugInfo := mkDebugInfo {
  stackFrames : list Frame;
  detail : string }.

Record LocalizedMessage := mkLocalizedMessage {
  locale : string;
  lm_message : string }.

(** [time.Duration] is an [int64] count of nanoseconds; [time.Time] is kept
    as an instant in nanoseconds.  Both are only stored and printed. *)
Definition Duration := Z.
Definition Time := Z.

(** Two pointers, each possibly nil. *)
Record RetryInfo := mkRetryInfo {
  retryOffset : option Duration;
  retryTime : option Time }.

(** ** The error value and Go's [error] interface

    A value of interface type [error] is, for this package, a [TrogonError]
    held by value, a non-nil [*TrogonError] (kept as its pointee), or an
    error of some other type, of which only its identity under [==], its
    text and its [Unwrap] link matter.  The nil interface is [None] of
    [option error]. *)
Inductive TrogonError : Type :=
  mkTrogonError
    (specVersion : Z)
    (code : Code)
    (message : string)
    (domain : string)
    (reason : string)
    (metadata : Metadata)
    (causes : list TrogonError)
    (visibility : Visibility)
    (subject : string)
    (id : string)
    (time : option Time)
    (help : option Help)
    (debugInfo : option DebugInfo)
    (localizedMessage : option LocalizedMessage)
    (retryInfo : option RetryInfo)
    (sourceID : string)
    (wrappedErr : option error)
with error : Type :=
  | ErrTrogon (byPointer : bool) (e : TrogonError)
  | ErrForeign (ident : nat) (text : string) (inner : option error).

Definition specVersion (e : TrogonError) : Z :=
  let 'mkTrogonError x _ _ _ _ _ _ _ _ _ _ _ _ _ _ _ _ := e in x.
Definition code (e : TrogonError) : Code :=
  let 'mkTrogonError _ x _ _ _ _ _ _ _ _ _ _ _ _ _ _ _ := e in x.
Definition message (e : TrogonError) : string :=
  let 'mkTrogonError _ _ x _ _ _ _ _ _ _ _ _ _ _ _ _ _ := e in x.
Definition domain (e : TrogonError) : string :=
  let 'mkTrogonError _ _ _ x _ _ _ _ _ _ _ _ _ _ _ _ _ := e in x.
Definition reason (e : TrogonError) : string :=
  let 'mkTrogonError _ _ _ _ x _ _ _ _ _ _ _ _ _ _ _ _ := e in x.
Definition metadata (e : TrogonError) : Metadata :=
  let 'mkTrogonError _ _ _ _ _ x _ _ _ _ _ _ _ _ _ _ _ := e in x.
Definition causes (e : TrogonError) : list TrogonError :=
  let 'mkTrogonError _ _ _ _ _ _ x _ _ _ _ _ _ _ _ _ _ := e in x.
Definition visibility (e : TrogonError) : Visibility :=
  let 'mkTrogonError _ _ _ _ _ _ _ x _ _ _ _ _ _ _ _ _ := e in x.
Definition subject (e : TrogonError) : string :=
  let 'mkTrogonError _ _ _ _ _ _ _ _ x _ _ _ _ _ _ _ _ := e in x.
Definition id (e : TrogonError) : string :=
  let 'mkTrogonError _ _ _ _ _ _ _ _ _ x _ _ _ _ _ _ _ := e in x.
Definition time (e : TrogonError) : option Time :=
  let 'mkTrogonError _ _ _ _ _ _ _ _ _ _ x _ _ _ _ _ _ := e in x.
Definition help (e : TrogonError) : option Help :=
  let 'mkTrogonError _ _ _ _ _ _ _ _ _ _ _ x _ _ _ _ _ := e in x.
Definition debugInfo (e : TrogonError) : option DebugInfo :=
  let 'mkTrogonError _ _ _ _ _ _ _ _ _ _ _ _ x _ _ _ _ := e in x.
Definition localizedMessage (e : TrogonError) : option LocalizedMessage :=
  let 'mkTrogonError _ _ _ _ _ _ _ _ _ _ _ _ _ x _ _ _ := e in x.
Definition retryInfo (e : TrogonError) : option RetryInfo :=
  let 'mkTrogonError _ _ _ _ _ _ _ _ _ _ _ _ _ _ x _ _ := e in x.
Definition sourceID (e : TrogonError) : string :=
  let 'mkTrogonError _ _ _ _ _ _ _ _ _ _ _ _ _ _ _ x _ := e in x.
Definition wrappedErr (e : TrogonError) : option error :=
  let 'mkTrogonError _ _ _ _ _ _ _ _ _ _ _ _ _ _ _ _ x := e in x.

(** Field assignments [e.f = x]. *)
Definition set_code (x : Code) (e : TrogonError) : TrogonError :=
  let 'mkTrogonError a1 _ a3 a4 a5 a6 a7 a8 a9 a10 a11 a12 a13 a14 a15 a16 a17 := e in
  mkTrogonError a1 x a3 a4 a5 a6 a7 a8 a9 a10 a11 a12 a13 a14 a15 a16 a17.
Definition set_message (x : string) (e : TrogonError) : TrogonError :=
  let 'mkTrogonError a1 a2 _ a4 a5 a6 a7 a8 a9 a10 a11 a12 a13 a14 a15 a16 a17 := e in
  mkTrogonError a1 a2 x a4 a5 a6 a7 a8 a9 a10 a11 a12 a13 a14 a15 a16 a17.
Definition set_metadata (x : Metadata) (e : TrogonError) : TrogonError :=
  let 'mkTrogonError a1 a2 a3 a4 a5 _ a7 a8 a9 a10 a11 a12 a13 a14 a15 a16 a17 := e in
  mkTrogonError a1 a2 a3 a4 a5 x a7 a8 a9 a10 a11 a12 a13 a14 a15 a16 a17.
Definition set_causes (x : list TrogonError) (e : TrogonError) : TrogonError :=
  let 'mkTrogonError a1 a2 a3 a4 a5 a6 _ a8 a9 a10 a11 a12 a13 a14 a15 a16 a17 := e in
  mkTrogonError a1 a2 a3 a4 a5 a6 x a8 a9 a10 a11 a12 a13 a14 a15 a16 a17.
Definition set_visibility (x : Visibility) (e : TrogonError) : TrogonError :=
  let 'mkTrogonError a1 a2 a3 a4 a5 a6 a7 _ a9 a10 a11 a12 a13 a14 a15 a16 a17 := e in
  mkTrogonError a1 a2 a3 a4 a5 a6 a7 x a9 a10 a11 a12 a13 a14 a15 a16 a17.
Definition set_subject (x : string) (e : TrogonError) : TrogonError :=
  let 'mkTrogonError a1 a2 a3 a4 a5 a6 a7 a8 _ a10 a11 a12 a13 a14 a15 a16 a17 := e in
  mkTrogonError a1 a2 a3 a4 a5 a6 a7 a8 x a10 a11 a12 a13 a14 a15 a16 a17.
Definition set_id (x : string) (e : TrogonError) : TrogonError :=
  let 'mkTrogonError a1 a2 a3 a4 a5 a6 a7 a8 a9 _ a11 a12 a13 a14 a15 a16 a17 := e in
  mkTrogonError a1 a2 a3 a4 a5 a6 a7 a8 a9 x a11 a12 a13 a14 a15 a16 a17.
Definition set_time (x : option Time) (e : TrogonError) : TrogonError :=
  let 'mkTrogonError a1 a2 a3 a4 a5 a6 a7 a8 a9 a10 _ a12 a13 a14 a15 a16 a17 := e in
  mkTrogonError a1 a2 a3 a4 a5 a6 a7 a8 a9 a10 x a12 a13 a14 a15 a16 a17.
Definition set_help (x : option Help) (e : TrogonError) : TrogonError :=
  let 'mkTrogonError a1 a2 a3 a4 a5 a6 a7 a8 a9 a10 a11 _ a13 a14 a15 a16 a17 := e in
  mkTrogonError a1 a2 a3 a4 a5 a6 a7 a8 a9 a10 a11 x a13 a14 a15 a16 a17.
Definition set_debugInfo (x : option DebugInfo) (e : TrogonError) : TrogonError :=
  let 'mkTrogonError a1 a2 a3 a4 a5 a6 a7 a8 a9 a10 a11 a12 _ a14 a15 a16 a17 := e in
  mkTrogonError a1 a2 a3 a4 a5 a6 a7 a8 a9 a10 a11 a12 x a14 a15 a16 a17.
Definition set_localizedMessage (x : option LocalizedMessage) (e : TrogonError) : TrogonError :=
  let 'mkTrogonError a1 a2 a3 a4 a5 a6 a7 a8 a9 a10 a11 a12 a13 _ a15 a16 a17 := e in
  mkTrogonError a1 a2 a3 a4 a5 a6 a7 a8 a9 a10 a11 a12 a13 x a15 a16 a17.
Definition set_retryInfo (x : option RetryInfo) (e : TrogonError) : TrogonError :=
  let 'mkTrogonError a1 a2 a3 a4 a5 a6 a7 a8 a9 a10 a11 a12 a13 a14 _ a16 a17 := e in
  mkTrogonError a1 a2 a3 a4 a5 a6 a7 a8 a9 a10 a11 a12 a13 a14 x a16 a17.
Definition set_sourceID (x : string) (e : TrogonError) : TrogonError :=
  let 'mkTrogonError a1 a2 a3 a4 a5 a6 a7 a8 a9 a10 a11 a12 a13 a14 a15 _ a17 := e in
  mkTrogonError a1 a2 a3 a4 a5 a6 a7 a8 a9 a10 a11 a12 a13 a14 a15 x a17.
Definition set_wrappedErr (x : option error) (e : TrogonError) : TrogonError :=
  let 'mkTrogonError a1 a2 a3 a4 a5 a6 a7 a8 a9 a10 a11 a12 a13 a14 a15 a16 _ := e in
  mkTrogonError a1 a2 a3 a4 a5 a6 a7 a8 a9 a10 a11 a12 a13 a14 a15 a16 x.

(** ** What the package takes from the Go runtime and standard library

    These functions are not part of the package; the development is
    parametric in them. *)

(** An argument of a variadic [...any] parameter. *)
Inductive GoValue :=
  | VString (s : string)
  | VInt (z : Z)
  | VOpaque (tag : nat).

Class GoRuntime := {
  (** [fmt.Sprintf(format, args...)] *)
  Sprintf : string -> list GoValue -> string;
  (** [strings.TrimSpace(s)] *)
  TrimSpace : string -> string;
  (** [t.Format(time.RFC3339)] *)
  Format_RFC3339 : Time -> string;
  (** [d.String()] for a [time.Duration] *)
  Duration_String : Duration -> string;
  (** The frames [runtime.CallersFrames] iterates over for the program
      counters [runtime.Callers(skip, pcs)] stores when [len(pcs)] is the
      second argument. *)
  Callers : Z -> Z -> list Frame;
  (** The capacity the runtime's [growslice] proposes when [append] has to
      grow a slice of the given capacity to hold the given number of
      elements; [append] never allocates less than it needs. *)
  Growslice : nat -> nat -> nat }.

(** The line feed the format strings write as a backslash followed by n. *)
Definition LF : string := String "010"%char EmptyString.

Definition SpecVersion : Z := 1.

(** [func (e TrogonError) Message() string] *)
Definition Message (e : TrogonError) : string :=
  if bool_decide (message e <> "") then message e else Code_Message (code e).

(** [func (e TrogonError) Unwrap() error] *)
Definition Unwrap (e : TrogonError) : option error := wrappedErr e.

(** ** Identity comparison *)

(** [err == target] on interface values, as far as the value level sees it:
    errors of other types are equal when they are the same error.  Two
    [*TrogonError] are equal only when they are the same pointer, in which
    case [x.Is(target)], tried next by [errors.Is], holds anyway; a
    [TrogonError] held by value is not comparable and [errors.Is] skips
    the test. *)
Definition error_identical (err target : error) : bool :=
  match err, target with
  | ErrForeign i _ _, ErrForeign j _ _ => bool_decide (i = j)
  | _, _ => false
  end.

(** [func (e TrogonError) Is(target error) bool], together with the loop of
    the standard [errors.Is] its default branch delegates to
    ([errors_is err target] is [errors.Is(err, target)] for non-nil [err]
    and [target]). *)
Fixpoint Is (e : TrogonError) (target : error) {struct e} : bool :=
  match target with
  | ErrTrogon true t =>
      bool_decide (domain e = domain t) && bool_decide (reason e = reason t)
  | ErrTrogon false t =>
      bool_decide (domain e = domain t) && bool_decide (reason e = reason t)
  | _ =>
      match wrappedErr e with
      | None => false
      | Some w => errors_is w target
      end
  end
with errors_is (err : error) (target : error) {struct err} : bool :=
  if error_identical err target then true else
  if match err with
     | ErrTrogon _ x => Is x target
     | ErrForeign _ _ _ => false
     end
  then true else
  match err with
  | ErrTrogon _ x =>
      match wrappedErr x with
      | None => false
      | Some next => errors_is next target
      end
  | ErrForeign _ _ inner =>
      match inner with
      | None => false
      | Some next => errors_is next target
      end
  end.

(** [errors.Is(err, target)] for a non-nil [target]. *)
Definition errors_Is (err : option error) (target : error) : bool :=
  match err with
  | None => false
  | Some w => errors_is w target
  end.

(** ** The formatter *)

(** [maps.Keys(m)]: the keys in the unspecified order of a map iteration. *)
Definition maps_Keys (m : Metadata) : list string := (map_to_list m).*1.

(** [slices.Sorted(seq)]: the elements in ascending order.  Go's [<=] on
    strings is the byte-wise lexicographic order, [String.le]. *)
Definition slices_Sorted (keys : list string) : list string :=
  merge_sort String.le keys.

(** [m[k]]: the zero value when the key is absent. *)
Definition map_index (m : Metadata) (k : string) : MetadataValue :=
  default (mkMetadataValue "" 0) (m !! k).

(** [func (d DebugInfo) StackEntries() []string] *)
Definition StackEntries (d : DebugInfo) : list string :=
  if bool_decide (length (stackFrames d) = 0%nat) then []
  else
    (fun frame => File frame +:+ ":" +:+ pretty (Line frame) +:+ " " +:+ Function frame)
      <$> stackFrames d.

(** The loop over [e.help.links]. *)
Fixpoint writeHelpLinks (i : nat) (ls : list HelpLink) (sb : string) : string :=
  match ls with
  | [] => sb
  | link :: rest =>
      let sb := if bool_decide (0 < i)%nat then sb +:+ LF else sb in
      let sb := sb +:+ "- " +:+ description link +:+ ": " +:+ url link in
      writeHelpLinks (S i) rest sb
  end.

Section Formatter.
Context {rt : GoRuntime}.

(** The metadata block: header, then one line per key of the sorted keys. *)
Definition writeMetadata (m : Metadata) (sb : string) : string :=
  let sb := sb +:+ LF +:+ "  metadata:" in
  foldl (fun sb k =>
           let v := map_index m k in
           sb +:+ LF +:+ "    - " +:+ k +:+ ": " +:+ value v
              +:+ " visibility=" +:+ Visibility_String (mv_visibility v))
        sb (slices_Sorted (maps_Keys m)).

(** [func (e TrogonError) Error() string].  [sb] is the string builder;
    [error_Error] is the [Error()] of an arbitrary [error]. *)
Fixpoint Error (e : TrogonError) {struct e} : string :=
  let sb := TrimSpace (Message e) in
  let sb := sb +:+ LF +:+ "  visibility: " +:+ Visibility_String (visibility e) in
  let sb := sb +:+ LF +:+ "  domain: " +:+ domain e in
  let sb := sb +:+ LF +:+ "  reason: " +:+ reason e in
  let sb := sb +:+ LF +:+ "  code: " +:+ Code_String (code e) in
  let sb := if bool_decide (id e <> "")
            then sb +:+ LF +:+ "  id: " +:+ id e else sb in
  let sb := match time e with
            | Some t => sb +:+ LF +:+ "  time: " +:+ Format_RFC3339 t
            | None => sb
            end in
  let sb := if bool_decide (subject e <> "")
            then sb +:+ LF +:+ "  subject: " +:+ subject e else sb in
  let sb := if bool_decide (sourceID e <> "")
            then sb +:+ LF +:+ "  sourceId: " +:+ sourceID e else sb in
  let sb := match retryInfo e with
            | Some r =>
                let retryStr :=
                  match retryOffset r with
                  | Some d => "retryOffset=" +:+ Duration_String d
                  | None =>
                      match retryTime r with
                      | Some t => "retryTime=" +:+ Format_RFC3339 t
                      | None => ""
                      end
                  end in
                sb +:+ LF +:+ "  retryInfo: " +:+ retryStr
            | None => sb
            end in
  let sb := if bool_decide (0 < size (metadata e))%nat
            then writeMetadata (metadata e) sb else sb in
  let sb := match help e with
            | Some h =>
                if bool_decide (0 < length (links h))%nat
                then writeHelpLinks 0 (links h) (sb +:+ LF +:+ LF)
                else sb
            | None => sb
            end in
  let sb := match wrappedErr e with
            | Some w =>
                sb +:+ LF +:+ LF +:+ "wrapped error: " +:+ error_Error w
            | None => sb
            end in
  let sb := match debugInfo e with
            | Some d =>
                let sb := sb +:+ LF in
                let sb := if bool_decide (detail d <> "")
                          then sb +:+ LF +:+ detail d else sb in
                foldl (fun sb entry => sb +:+ LF +:+ entry) sb (StackEntries d)
            | None => sb
            end in
  sb
with error_Error (err : error) {struct err} : string :=
  match err with
  | ErrTrogon _ x => Error x
  | ErrForeign _ text _ => text
  end.

End Formatter.

(** ** Construction options

    [type ErrorOption] is a function type on a [*TrogonError]: the closures the package's option
    constructors return, as data.  Each term stands for one call of the
    constructor; [applyOption] runs the closure's body on the error under
    construction. *)
Inductive ErrorOption :=
  | WithCode (code : Code)
  | WithMessage (message : string)
  | WithMetadata (metadata : Metadata)
  | WithMetadataValue (visibility : Visibility) (key value : string)
  | WithMetadataValuef (visibility : Visibility) (key valueFormat : string)
      (args : list GoValue)
  | WithVisibility (visibility : Visibility)
  | WithSubject (subject : string)
  | WithID (id : string)
  | WithTime (timestamp : Time)
  | WithSourceID (sourceID : string)
  | WithHelp (help : Help)
  | WithHelpLink (description url : string)
  | WithHelpLinkf (description urlFormat : string) (args : list GoValue)
  | WithDebugInfo (debugInfo : DebugInfo)
  | WithDebugDetail (detail : string)
  | WithStackTraceDepth (maxDepth : Z)
  | WithLocalizedMessage (locale message : string)
  | WithRetryInfoDuration (retryOffset : Duration)
  | WithRetryTime (retryTime : Time)
  | WithCause (causes : list TrogonError)
  | WithErrorMessage (err : error)
  | WithWrap (err : option error).

(** [func WithStackTrace() ErrorOption] *)
Definition WithStackTrace : ErrorOption := WithStackTraceDepth 32.

(** [maps.Copy(dst, src)]: [dst[k] = v] for every entry of [src]. *)
Definition maps_Copy (dst src : Metadata) : Metadata :=
  map_fold (fun k v dst => <[k:=v]> dst) dst src.

(** [func addHelpLink(e *TrogonError, description, url string)] *)
Definition addHelpLink (description url : string) (e : TrogonError) : TrogonError :=
  let e := match help e with
           | None => set_help (Some (mkHelp [])) e
           | Some _ => e
           end in
  let h := default (mkHelp []) (help e) in
  set_help (Some (mkHelp (links h ++ [mkHelpLink description url]))) e.

(** [func addMetadataValue(e *TrogonError, visibility Visibility, key, value string)] *)
Definition addMetadataValue (visibility : Visibility) (key value : string)
    (e : TrogonError) : TrogonError :=
  let e := if bool_decide (size (metadata e) = 0%nat)
           then set_metadata ∅ e else e in
  set_metadata (<[key := mkMetadataValue value visibility]> (metadata e)) e.

Section Options.
Context {rt : GoRuntime}.

(** [func captureStackTrace(skip, maxDepth int) []runtime.Frame].  The loop
    appends the frame [Next] returns before it tests [more], so an empty
    iterator still yields one (zero) frame. *)
Definition captureStackTrace (skip maxDepth : Z) : list Frame :=
  let maxDepth := if maxDepth <=? 0 then 32 else maxDepth in
  match Callers skip maxDepth with
  | [] => [mkFrame "" 0 ""]
  | frames => frames
  end.

Definition applyOption (option : ErrorOption) (e : TrogonError) : TrogonError :=
  match option with
  | WithCode c => set_code c e
  | WithMessage msg => set_message msg e
  | WithMetadata md => set_metadata (maps_Copy (metadata e) md) e
  | WithMetadataValue vis key val => addMetadataValue vis key val e
  | WithMetadataValuef vis key valueFormat args =>
      addMetadataValue vis key (Sprintf valueFormat args) e
  | WithVisibility vis => set_visibility vis e
  | WithSubject subj => set_subject subj e
  | WithID i => set_id i e
  | WithTime timestamp => set_time (Some timestamp) e
  | WithSourceID src => set_sourceID src e
  | WithHelp h => set_help (Some h) e
  | WithHelpLink desc u => addHelpLink desc u e
  | WithHelpLinkf desc urlFormat args =>
      addHelpLink desc (Sprintf urlFormat args) e
  | WithDebugInfo d => set_debugInfo (Some d) e
  | WithDebugDetail det =>
      match debugInfo e with
      | None => set_debugInfo (Some (mkDebugInfo [] det)) e
      | Some d => set_debugInfo (Some (mkDebugInfo (stackFrames d) det)) e
      end
  | WithStackTraceDepth maxDepth =>
      let frames := captureStackTrace 2 maxDepth in
      match debugInfo e with
      | None => set_debugInfo (Some (mkDebugInfo frames "")) e
      | Some d => set_debugInfo (Some (mkDebugInfo frames (detail d))) e
      end
  | WithLocalizedMessage loc msg =>
      set_localizedMessage (Some (mkLocalizedMessage loc msg)) e
  | WithRetryInfoDuration off =>
      set_retryInfo (Some (mkRetryInfo (Some off) None)) e
  | WithRetryTime t =>
      set_retryInfo (Some (mkRetryInfo None (Some t))) e
  | WithCause cs => set_causes (causes e ++ cs) e
  | WithErrorMessage err => set_message (error_Error err) e
  | WithWrap err => set_wrappedErr err e
  end.

(** [func NewError(domain, reason string, options ...ErrorOption) *TrogonError] *)
Definition NewError (domain reason : string) (options : list ErrorOption) : TrogonError :=
  let err := mkTrogonError SpecVersion CodeUnknown "" domain reason ∅ []
               VisibilityInternal "" "" None None None None None "" None in
  foldl (fun err option => applyOption option err) err options.

End Options.

(** ** Copy-on-write, value level *)

(** [func (h Help) copy() Help] *)
Definition Help_copy (h : Help) : Help :=
  if bool_decide (length (links h) = 0%nat) then mkHelp []
  else
    let copiedLinks := links h in
    mkHelp copiedLinks.

(** [func (d DebugInfo) copy() DebugInfo] *)
Definition DebugInfo_copy (d : DebugInfo) : DebugInfo :=
  if bool_decide (length (stackFrames d) = 0%nat) then mkDebugInfo [] (detail d)
  else
    let copiedStackFrames := stackFrames d in
    mkDebugInfo copiedStackFrames (detail d).

(** [func (e *TrogonError) copy() *TrogonError] *)
Definition copy (e : TrogonError) : TrogonError :=
  let clonedErr :=
    mkTrogonError (specVersion e) (code e) (message e) (domain e) (reason e)
      ∅ [] (visibility e) (subject e) (id e) (time e) None None
      (localizedMessage e) (retryInfo e) (sourceID e) (wrappedErr e) in
  let clonedErr :=
    if bool_decide (0 < size (metadata e))%nat
    then set_metadata (map_fold (fun k v m => <[k:=v]> m) ∅ (metadata e)) clonedErr
    else clonedErr in
  let clonedErr :=
    if bool_decide (0 < length (causes e))%nat
    then set_causes (causes e) clonedErr
    else clonedErr in
  let clonedErr :=
    match help e with
    | Some h => set_help (Some (Help_copy h)) clonedErr
    | None => clonedErr
    end in
  let clonedErr :=
    match debugInfo e with
    | Some d => set_debugInfo (Some (DebugInfo_copy d)) clonedErr
    | None => clonedErr
    end in
  clonedErr.

(** [type ChangeOption], the closures of the [WithChange...] constructors. *)
Inductive ChangeOption :=
  | WithChangeMetadata (metadata : Metadata)
  | WithChangeMetadataValue (visibility : Visibility) (key value : string)
  | WithChangeMetadataValuef (visibility : Visibility) (key valueFormat : string)
      (args : list GoValue)
  | WithChangeID (id : string)
  | WithChangeTime (timestamp : Time)
  | WithChangeSourceID (sourceID : string)
  | WithChangeHelpLink (description url : string)
  | WithChangeHelpLinkf (description urlFormat : string) (args : list GoValue)
  | WithChangeRetryInfoDuration (retryOffset : Duration)
  | WithChangeRetryTime (retryTime : Time)
  | WithChangeLocalizedMessage (locale message : string).

Section Changes.
Context {rt : GoRuntime}.

Definition applyChange (change : ChangeOption) (e : TrogonError) : TrogonError :=
  match change with
  | WithChangeMetadata md =>
      let e := set_metadata ∅ e in
      set_metadata (maps_Copy (metadata e) md) e
  | WithChangeMetadataValue vis key val => addMetadataValue vis key val e
  | WithChangeMetadataValuef vis key valueFormat args =>
      addMetadataValue vis key (Sprintf valueFormat args) e
  | WithChangeID i => set_id i e
  | WithChangeTime timestamp => set_time (Some timestamp) e
  | WithChangeSourceID src => set_sourceID src e
  | WithChangeHelpLink desc u => addHelpLink desc u e
  | WithChangeHelpLinkf desc urlFormat args =>
      addHelpLink desc (Sprintf urlFormat args) e
  | WithChangeRetryInfoDuration off =>
      set_retryInfo (Some (mkRetryInfo (Some off) None)) e
  | WithChangeRetryTime t =>
      set_retryInfo (Some (mkRetryInfo None (Some t))) e
  | WithChangeLocalizedMessage loc msg =>
      set_localizedMessage (Some (mkLocalizedMessage loc msg)) e
  end.

(** [func (e *TrogonError) WithChanges(changes ...ChangeOption) *TrogonError] *)
Definition WithChanges (e : TrogonError) (changes : list ChangeOption) : TrogonError :=
  let clonedErr := copy e in
  foldl (fun clonedErr change => applyChange change clonedErr) clonedErr changes.

End Changes.

(** ** Templates *)

Record ErrorTemplate := mkErrorTemplate {
  t_domain : string;
  t_reason : string;
  t_code : Code;
  t_message : string;
  t_visibility : Visibility;
  t_help : option Help }.

(** [type TemplateOption], the closures of the [TemplateWith...]
    constructors. *)
Inductive TemplateOption :=
  | TemplateWithCode (code : Code)
  | TemplateWithMessage (message : string)
  | TemplateWithVisibility (visibility : Visibility)
  | TemplateWithHelp (help : Help)
  | TemplateWithHelpLink (description url : string).

Definition applyTemplateOption (option : TemplateOption) (t : ErrorTemplate) : ErrorTemplate :=
  match option with
  | TemplateWithCode c =>
      mkErrorTemplate (t_domain t) (t_reason t) c (t_message t) (t_visibility t) (t_help t)
  | TemplateWithMessage msg =>
      mkErrorTemplate (t_domain t) (t_reason t) (t_code t) msg (t_visibility t) (t_help t)
  | TemplateWithVisibility vis =>
      mkErrorTemplate (t_domain t) (t_reason t) (t_code t) (t_message t) vis (t_help t)
  | TemplateWithHelp h =>
      mkErrorTemplate (t_domain t) (t_reason t) (t_code t) (t_message t) (t_visibility t) (Some h)
  | TemplateWithHelpLink desc u =>
      let h := default (mkHelp []) (t_help t) in
      mkErrorTemplate (t_domain t) (t_reason t) (t_code t) (t_message t) (t_visibility t)
        (Some (mkHelp (links h ++ [mkHelpLink desc u])))
  end.

(** [func NewErrorTemplate(domain, reason string, options ...TemplateOption) *ErrorTemplate] *)
Definition NewErrorTemplate (domain reason : string) (options : list TemplateOption) : ErrorTemplate :=
  let template := mkErrorTemplate domain reason CodeUnknown "" VisibilityInternal None in
  foldl (fun template option => applyTemplateOption option template) template options.

(** The options [ErrorTemplate.NewError] builds before it appends the
    caller's. *)
Definition baseOptions (et : ErrorTemplate) : list ErrorOption :=
  let baseOptions := [WithCode (t_code et); WithVisibility (t_visibility et)] in
  let baseOptions :=
    if bool_decide (t_message et <> "")
    then baseOptions ++ [WithMessage (t_message et)] else baseOptions in
  let baseOptions :=
    match t_help et with
    | Some h => baseOptions ++ [WithHelp h]
    | None => baseOptions
    end in
  baseOptions.

(** [func (et *ErrorTemplate) NewError(options ...ErrorOption) *TrogonError] *)
Definition Template_NewError {rt : GoRuntime} (et : ErrorTemplate)
    (options : list ErrorOption) : TrogonError :=
  NewError (t_domain et) (t_reason et) (baseOptions et ++ options).

(** [func (et *ErrorTemplate) Is(target error) bool] *)
Definition Template_Is (et : ErrorTemplate) (target : error) : bool :=
  match target with
  | ErrTrogon true t =>
      bool_decide (t_domain et = domain t) && bool_decide (t_reason et = reason t)
  | ErrTrogon false t =>
      bool_decide (t_domain et = domain t) && bool_decide (t_reason et = reason t)
  | _ => false
  end.

(** ** Chain extraction *)

(** What [As] accepts as its target: a template or an exemplar error. *)
Inductive AsTarget :=
  | TargetTemplate (et : ErrorTemplate)
  | TargetError (e : TrogonError).

(** The identity test of a target; for both kinds it delegates to [Is]. *)
Definition target_is (target : AsTarget) (err : error) : bool :=
  match target with
  | TargetTemplate et => Template_Is et err
  | TargetError e => Is e err
  end.

(** Modelled from the spec: the function [As] (chain extraction), whose
    source is not among the files; only its tests are.  The spec, section
    4.4 (c): it walks a possibly-wrapped error chain, following each
    layer's own unwrap link, looking for the first layer that is of this
    system's type and whose identity matches the given template or exemplar
    error; it returns the found value and a success flag, or an absent
    value and failure. *)
Fixpoint As_walk (err : error) (target : AsTarget) {struct err}
    : option TrogonError * bool :=
  match err with
  | ErrTrogon _ x =>
      if target_is target err then (Some x, true)
      else
        match wrappedErr x with
        | Some next => As_walk next target
        | None => (None, false)
        end
  | ErrForeign _ _ inner =>
      match inner with
      | Some next => As_walk next target
      | None => (None, false)
      end
  end.

(** Modelled from the spec: [As(err, target)] on a possibly nil [err]. *)
Definition As (err : option error) (target : AsTarget) : option TrogonError * bool :=
  match err with
  | Some layer => As_walk layer target
  | None => (None, false)
  end.

(** ** The store: pointers, maps and slices

    [copy] and [WithChanges] once more, this time as Go runs them: on a
    heap in which a [*TrogonError], a map, a [*Help], a [*DebugInfo] and
    the backing array of a slice are objects with an address, so that two
    errors can share one of them.  [time], [retryInfo] and
    [localizedMessage] point to objects no function of the package writes
    to after they are built; they stay plain values. *)
Module Heap.

Definition loc := nat.

(** A non-nil slice header: the backing array and the length.  Every slice
    of the package starts at the first element of its array, so the
    capacity is the length of the array.  A nil slice is [None]. *)
Record slice := mkSlice { arr : loc; len : nat }.

Record Help := mkHelp { links : option slice }.

Record DebugInfo := mkDebugInfo {
  stackFrames : option slice;
  detail : string }.

(** An [error] interface value held in [wrappedErr]. *)
Inductive errorRef :=
  | RefTrogon (p : loc)
  | RefForeign (ident : nat).

Record TrogonError := mkTrogonError {
  specVersion : Z;
  code : Code;
  message : string;
  domain : string;
  reason : string;
  metadata : option loc;
  causes : option slice;
  visibility : Visibility;
  subject : string;
  id : string;
  time : option Time;
  help : option loc;
  debugInfo : option loc;
  localizedMessage : option LocalizedMessage;
  retryInfo : option RetryInfo;
  sourceID : string;
  wrappedErr : option errorRef }.

(** The heap, one region per kind of object; an address is an index into
    its region, allocation appends. *)
Record store := mkStore {
  errs : list TrogonError;
  maps : list Metadata;
  helps : list Help;
  debugs : list DebugInfo;
  linkArrays : list (list HelpLink);
  frameArrays : list (list Frame);
  causeArrays : list (list (option loc)) }.

(** A region of the store. *)
Record region (A : Type) := mkRegion {
  get : store -> list A;
  put : list A -> store -> store }.
Arguments get {A}.
Arguments put {A}.

Definition errR : region TrogonError :=
  mkRegion _ errs (fun x s =>
    mkStore x (maps s) (helps s) (debugs s) (linkArrays s) (frameArrays s) (causeArrays s)).
Definition mapR : region Metadata :=
  mkRegion _ maps (fun x s =>
    mkStore (errs s) x (helps s) (debugs s) (linkArrays s) (frameArrays s) (causeArrays s)).
Definition helpR : region Help :=
  mkRegion _ helps (fun x s =>
    mkStore (errs s) (maps s) x (debugs s) (linkArrays s) (frameArrays s) (causeArrays s)).
Definition debugR : region DebugInfo :=
  mkRegion _ debugs (fun x s =>
    mkStore (errs s) (maps s) (helps s) x (linkArrays s) (frameArrays s) (causeArrays s)).
Definition linksR : region (list HelpLink) :=
  mkRegion _ linkArrays (fun x s =>
    mkStore (errs s) (maps s) (helps s) (debugs s) x (frameArrays s) (causeArrays s)).
Definition framesR : region (list Frame) :=
  mkRegion _ frameArrays (fun x s =>
    mkStore (errs s) (maps s) (helps s) (debugs s) (linkArrays s) x (causeArrays s)).
Definition causesR : region (list (option loc)) :=
  mkRegion _ causeArrays (fun x s =>
    mkStore (errs s) (maps s) (helps s) (debugs s) (linkArrays s) (frameArrays s) x).

(** Computations on the store; [None] is a run-time panic. *)
Definition M (A : Type) : Type := store -> option (A * store).

#[global] Instance M_ret : MRet M := fun A a s => Some (a, s).
#[global] Instance M_bind : MBind M :=
  fun A B f m s =>
    match m s with
    | Some (a, s') => f a s'
    | None => None
    end.

Definition panic {A} : M A := fun _ => None.

(** [new(T)], [&T{...}], [make]: a new object. *)
Definition alloc {A} (r : region A) (x : A) : M loc :=
  fun s => Some (length (get r s), put r (get r s ++ [x]) s).

(** [*p]: a nil or dangling address panics. *)
Definition load {A} (r : region A) (l : loc) : M A :=
  fun s => match get r s !! l with
           | Some x => Some (x, s)
           | None => None
           end.

(** [*p = x] *)
Definition update {A} (r : region A) (l : loc) (x : A) : M unit :=
  fun s => if bool_decide (l < length (get r s))%nat
           then Some (tt, put r (<[l:=x]> (get r s)) s) else None.

Fixpoint forEach {A} (xs : list A) (body : A -> M unit) : M unit :=
  match xs with
  | [] => mret tt
  | x :: rest => body x;; forEach rest body
  end.

(** *** Maps *)

(** [make(Metadata)] *)
Definition make_map : M (option loc) := m ← alloc mapR ∅; mret (Some m).

(** [len(m)] *)
Definition map_len (m : option loc) : M nat :=
  match m with
  | None => mret 0%nat
  | Some p => md ← load mapR p; mret (size md)
  end.

(** The entries a [range] over the map visits. *)
Definition map_range (m : option loc) : M (list (string * MetadataValue)) :=
  match m with
  | None => mret []
  | Some p => md ← load mapR p; mret (map_to_list md)
  end.

(** [m[k] = v]; on a nil map it panics. *)
Definition map_assign (m : option loc) (k : string) (v : MetadataValue) : M unit :=
  match m with
  | None => panic
  | Some p => md ← load mapR p; update mapR p (<[k:=v]> md)
  end.

(** [maps.Copy(dst, src)] *)
Definition maps_Copy (dst src : option loc) : M unit :=
  entries ← map_range src;
  forEach entries (fun kv => map_assign dst kv.1 kv.2).

(** *** Slices *)

(** [len(s)] *)
Definition slice_len (s : option slice) : nat :=
  match s with
  | None => 0%nat
  | Some sl => len sl
  end.

(** [make([]T, n)] with [zero] the zero value of [T]. *)
Definition make_slice {A} (r : region (list A)) (zero : A) (n : nat) : M (option slice) :=
  a ← alloc r (replicate n zero); mret (Some (mkSlice a n)).

(** The elements [s[0:len(s)]]. *)
Definition slice_elems {A} (r : region (list A)) (s : option slice) : M (list A) :=
  match s with
  | None => mret []
  | Some sl => a ← load r (arr sl); mret (take (len sl) a)
  end.

(** The built-in [copy(dst, src)]: the first [min(len(dst), len(src))]
    elements. *)
Definition copy_slice {A} (r : region (list A)) (dst src : option slice) : M unit :=
  xs ← slice_elems r src;
  match dst with
  | None => mret tt
  | Some d =>
      a ← load r (arr d);
      let n := (len d `min` length xs)%nat in
      update r (arr d) (take n xs ++ drop n a)
  end.

(** The built-in [append(s, x)]: in place when the array has room after
    [len(s)], otherwise into a new, larger array. *)
Definition append {rt : GoRuntime} {A} (r : region (list A)) (zero : A)
    (s : option slice) (x : A) : M (option slice) :=
  let grow (old : list A) (oldCap : nat) : M (option slice) :=
    let needed := S (length old) in
    let newCap := (needed `max` Growslice oldCap needed)%nat in
    a ← alloc r (old ++ [x] ++ replicate (newCap - needed) zero);
    mret (Some (mkSlice a needed)) in
  match s with
  | None => grow [] 0%nat
  | Some sl =>
      a ← load r (arr sl);
      if bool_decide (len sl < length a)%nat
      then update r (arr sl) (<[len sl := x]> a);;
           mret (Some (mkSlice (arr sl) (S (len sl))))
      else grow (take (len sl) a) (length a)
  end.

Definition zeroLink : HelpLink := mkHelpLink "" "".
Definition zeroFrame : Frame := mkFrame "" 0 "".
Definition zeroCause : option loc := None.

(** *** Field assignments through a [*TrogonError] *)

Definition set_metadata (x : option loc) (e : TrogonError) : TrogonError :=
  mkTrogonError (specVersion e) (code e) (message e) (domain e) (reason e)
    x (causes e) (visibility e) (subject e) (id e) (time e) (help e)
    (debugInfo e) (localizedMessage e) (retryInfo e) (sourceID e) (wrappedErr e).
Definition set_causes (x : option slice) (e : TrogonError) : TrogonError :=
  mkTrogonError (specVersion e) (code e) (message e) (domain e) (reason e)
    (metadata e) x (visibility e) (subject e) (id e) (time e) (help e)
    (debugInfo e) (localizedMessage e) (retryInfo e) (sourceID e) (wrappedErr e).
Definition set_id (x : string) (e : TrogonError) : TrogonError :=
  mkTrogonError (specVersion e) (code e) (message e) (domain e) (reason e)
    (metadata e) (causes e) (visibility e) (subject e) x (time e) (help e)
    (debugInfo e) (localizedMessage e) (retryInfo e) (sourceID e) (wrappedErr e).
Definition set_time (x : option Time) (e : TrogonError) : TrogonError :=
  mkTrogonError (specVersion e) (code e) (message e) (domain e) (reason e)
    (metadata e) (causes e) (visibility e) (subject e) (id e) x (help e)
    (debugInfo e) (localizedMessage e) (retryInfo e) (sourceID e) (wrappedErr e).
Definition set_help (x : option loc) (e : TrogonError) : TrogonError :=
  mkTrogonError (specVersion e) (code e) (message e) (domain e) (reason e)
    (metadata e) (causes e) (visibility e) (subject e) (id e) (time e) x
    (debugInfo e) (localizedMessage e) (retryInfo e) (sourceID e) (wrappedErr e).
Definition set_debugInfo (x : option loc) (e : TrogonError) : TrogonError :=
  mkTrogonError (specVersion e) (code e) (message e) (domain e) (reason e)
    (metadata e) (causes e) (visibility e) (subject e) (id e) (time e) (help e)
    x (localizedMessage e) (retryInfo e) (sourceID e) (wrappedErr e).
Definition set_localizedMessage (x : option LocalizedMessage) (e : TrogonError) : TrogonError :=
  mkTrogonError (specVersion e) (code e) (message e) (domain e) (reason e)
    (metadata e) (causes e) (visibility e) (subject e) (id e) (time e) (help e)
    (debugInfo e) x (retryInfo e) (sourceID e) (wrappedErr e).
Definition set_retryInfo (x : option RetryInfo) (e : TrogonError) : TrogonError :=
  mkTrogonError (specVersion e) (code e) (message e) (domain e) (reason e)
    (metadata e) (causes e) (visibility e) (subject e) (id e) (time e) (help e)
    (debugInfo e) (localizedMessage e) x (sourceID e) (wrappedErr e).
Definition set_sourceID (x : string) (e : TrogonError) : TrogonError :=
  mkTrogonError (specVersion e) (code e) (message e) (domain e) (reason e)
    (metadata e) (causes e) (visibility e) (subject e) (id e) (time e) (help e)
    (debugInfo e) (localizedMessage e) (retryInfo e) x (wrappedErr e).

(** [p.f = x]: load the struct, change the field, write it back. *)
Definition assign (p : loc) (set : TrogonError -> TrogonError) : M unit :=
  e ← load errR p; update errR p (set e).

(** *** Copy-on-write *)

(** [func (h Help) copy() Help] *)
Definition Help_copy (h : Help) : M Help :=
  if bool_decide (slice_len (links h) = 0%nat) then mret (mkHelp None)
  else
    copiedLinks ← make_slice linksR zeroLink (slice_len (links h));
    copy_slice linksR copiedLinks (links h);;
    mret (mkHelp copiedLinks).

(** [func (d DebugInfo) copy() DebugInfo] *)
Definition DebugInfo_copy (d : DebugInfo) : M DebugInfo :=
  if bool_decide (slice_len (stackFrames d) = 0%nat)
  then mret (mkDebugInfo None (detail d))
  else
    copiedStackFrames ← make_slice framesR zeroFrame (slice_len (stackFrames d));
    copy_slice framesR copiedStackFrames (stackFrames d);;
    mret (mkDebugInfo copiedStackFrames (detail d)).

(** [func (d DebugInfo) StackFrames() []runtime.Frame] *)
Definition StackFrames (d : DebugInfo) : M (option slice) :=
  if bool_decide (slice_len (stackFrames d) = 0%nat) then mret None
  else
    frames ← make_slice framesR zeroFrame (slice_len (stackFrames d));
    copy_slice framesR frames (stackFrames d);;
    mret frames.

(** [func (e *TrogonError) copy() *TrogonError] *)
Definition copy (e : loc) : M loc :=
  src ← load errR e;
  clonedErr ← alloc errR
    (mkTrogonError (specVersion src) (code src) (message src) (domain src)
       (reason src) None None (visibility src) (subject src) (id src)
       (time src) None None (localizedMessage src) (retryInfo src)
       (sourceID src) (wrappedErr src));
  n ← map_len (metadata src);
  (if bool_decide (0 < n)%nat then
     m ← make_map;
     assign clonedErr (set_metadata m);;
     entries ← map_range (metadata src);
     forEach entries (fun kv => map_assign m kv.1 kv.2)
   else mret tt);;
  (if bool_decide (0 < slice_len (causes src))%nat then
     cs ← make_slice causesR zeroCause (slice_len (causes src));
     assign clonedErr (set_causes cs);;
     copy_slice causesR cs (causes src)
   else mret tt);;
  match help src with
  | Some hp =>
      h ← load helpR hp;
      helpCopy ← Help_copy h;
      hp' ← alloc helpR helpCopy;
      assign clonedErr (set_help (Some hp'))
  | None => mret tt
  end;;
  match debugInfo src with
  | Some dp =>
      d ← load debugR dp;
      debugInfoCopy ← DebugInfo_copy d;
      dp' ← alloc debugR debugInfoCopy;
      assign clonedErr (set_debugInfo (Some dp'))
  | None => mret tt
  end;;
  mret clonedErr.

(** [type ChangeOption]; the map handed to [WithChangeMetadata] is a
    reference like any other map. *)
Inductive ChangeOption :=
  | WithChangeMetadata (metadata : option loc)
  | WithChangeMetadataValue (visibility : Visibility) (key value : string)
  | WithChangeMetadataValuef (visibility : Visibility) (key valueFormat : string)
      (args : list GoValue)
  | WithChangeID (id : string)
  | WithChangeTime (timestamp : Time)
  | WithChangeSourceID (sourceID : string)
  | WithChangeHelpLink (description url : string)
  | WithChangeHelpLinkf (description urlFormat : string) (args : list GoValue)
  | WithChangeRetryInfoDuration (retryOffset : Duration)
  | WithChangeRetryTime (retryTime : Time)
  | WithChangeLocalizedMessage (locale message : string).

Section Changes.
Context {rt : GoRuntime}.

(** [func addHelpLink(e *TrogonError, description, url string)] *)
Definition addHelpLink (e : loc) (description url : string) : M unit :=
  err ← load errR e;
  match help err with
  | None => hp ← alloc helpR (mkHelp None); assign e (set_help (Some hp))
  | Some _ => mret tt
  end;;
  err ← load errR e;
  match help err with
  | None => panic
  | Some hp =>
      h ← load helpR hp;
      newLinks ← append linksR zeroLink (links h) (mkHelpLink description url);
      update helpR hp (mkHelp newLinks)
  end.

(** [func addMetadataValue(e *TrogonError, visibility Visibility, key, value string)] *)
Definition addMetadataValue (e : loc) (vis : Visibility) (key val : string) : M unit :=
  err ← load errR e;
  n ← map_len (metadata err);
  (if bool_decide (n = 0%nat)
   then m ← make_map; assign e (set_metadata m)
   else mret tt);;
  err ← load errR e;
  map_assign (metadata err) key (mkMetadataValue val vis).

Definition applyChange (change : ChangeOption) (e : loc) : M unit :=
  match change with
  | WithChangeMetadata md =>
      m ← make_map;
      assign e (set_metadata m);;
      err ← load errR e;
      maps_Copy (metadata err) md
  | WithChangeMetadataValue vis key val => addMetadataValue e vis key val
  | WithChangeMetadataValuef vis key valueFormat args =>
      addMetadataValue e vis key (Sprintf valueFormat args)
  | WithChangeID i => assign e (set_id i)
  | WithChangeTime timestamp => assign e (set_time (Some timestamp))
  | WithChangeSourceID src => assign e (set_sourceID src)
  | WithChangeHelpLink desc u => addHelpLink e desc u
  | WithChangeHelpLinkf desc urlFormat args =>
      addHelpLink e desc (Sprintf urlFormat args)
  | WithChangeRetryInfoDuration off =>
      assign e (set_retryInfo (Some (mkRetryInfo (Some off) None)))
  | WithChangeRetryTime t =>
      assign e (set_retryInfo (Some (mkRetryInfo None (Some t))))
  | WithChangeLocalizedMessage loc msg =>
      assign e (set_localizedMessage (Some (mkLocalizedMessage loc msg)))
  end.

(** [func (e *TrogonError) WithChanges(changes ...ChangeOption) *TrogonError] *)
Definition WithChanges (e : loc) (changes : list ChangeOption) : M loc :=
  clonedErr ← copy e;
  forEach changes (fun change => applyChange change clonedErr);;
  mret clonedErr.

End Changes.

(** *** Vocabulary: validity, extension, ownership, snapshots *)

(** A slice whose array exists and is long enough. *)
Definition valid_slice {A} (r : region (list A)) (s : store) (sl : option slice) : Prop :=
  match sl with
  | None => True
  | Some x => exists a, get r s !! arr x = Some a /\ (len x <= length a)%nat
  end.

Definition valid_map (s : store) (m : option loc) : Prop :=
  match m with
  | None => True
  | Some p => (p < length (maps s))%nat
  end.

Definition valid_help (s : store) (h : option loc) : Prop :=
  match h with
  | None => True
  | Some p => exists hv, helps s !! p = Some hv /\ valid_slice linksR s (links hv)
  end.

Definition valid_debug (s : store) (d : option loc) : Prop :=
  match d with
  | None => True
  | Some p => exists dv, debugs s !! p = Some dv /\ valid_slice framesR s (stackFrames dv)
  end.

(** A pointer to an error all of whose references are in order. *)
Definition valid_err (s : store) (e : loc) : Prop :=
  exists err,
    errs s !! e = Some err
    /\ valid_map s (metadata err)
    /\ valid_slice causesR s (causes err)
    /\ valid_help s (help err)
    /\ valid_debug s (debugInfo err).

Definition valid_change (s : store) (change : ChangeOption) : Prop :=
  match change with
  | WithChangeMetadata md => valid_map s md
  | _ => True
  end.

(** [s'] has every object of [s], unchanged, and possibly more. *)
Definition extends (s s' : store) : Prop :=
  errs s `prefix_of` errs s'
  /\ maps s `prefix_of` maps s'
  /\ helps s `prefix_of` helps s'
  /\ debugs s `prefix_of` debugs s'
  /\ linkArrays s `prefix_of` linkArrays s'
  /\ frameArrays s `prefix_of` frameArrays s'
  /\ causeArrays s `prefix_of` causeArrays s'.

(** A reference to an object of region [r] that [s0] does not have. *)
Definition fresh_ref {A} (r : region A) (s0 : store) (p : option loc) : Prop :=
  match p with
  | None => True
  | Some l => (length (get r s0) <= l)%nat
  end.

Definition fresh_slice {A} (r : region (list A)) (s0 : store) (sl : option slice) : Prop :=
  match sl with
  | None => True
  | Some x => (length (get r s0) <= arr x)%nat
  end.

(** The error at [e'] in [s] and every map, slice, help and debug info it
    refers to are objects that [s0] does not have. *)
Definition separate (s0 s : store) (e' : loc) : Prop :=
  (length (errs s0) <= e')%nat
  /\ exists err,
       errs s !! e' = Some err
       /\ fresh_ref mapR s0 (metadata err)
       /\ fresh_slice causesR s0 (causes err)
       /\ fresh_ref helpR s0 (help err)
       /\ (forall hp hv, help err = Some hp -> helps s !! hp = Some hv ->
             fresh_slice linksR s0 (links hv))
       /\ fresh_ref debugR s0 (debugInfo err)
       /\ (forall dp dv, debugInfo err = Some dp -> debugs s !! dp = Some dv ->
             fresh_slice framesR s0 (stackFrames dv)).

(** Everything a holder of the pointer can read through it: the struct,
    the entries of its map, the elements of its causes, its help links,
    its stack frames and debug detail. *)
Record Snapshot := mkSnapshot {
  snap_struct : TrogonError;
  snap_metadata : option Metadata;
  snap_causes : list (option loc);
  snap_help : option (list HelpLink);
  snap_debug : option (list Frame * string) }.

Definition read_slice {A} (r : region (list A)) (s : store) (sl : option slice)
    : option (list A) :=
  match sl with
  | None => Some []
  | Some x => take (len x) <$> get r s !! arr x
  end.

(** The entries of a map; a nil map is kept apart from an empty one. *)
Definition read_metadata (s : store) (m : option loc) : option (option Metadata) :=
  match m with
  | None => Some None
  | Some p => Some <$> maps s !! p
  end.

Definition read_help (s : store) (h : option loc) : option (option (list HelpLink)) :=
  match h with
  | None => Some None
  | Some p => hv ← helps s !! p; Some <$> read_slice linksR s (links hv)
  end.

Definition read_debug (s : store) (d : option loc)
    : option (option (list Frame * string)) :=
  match d with
  | None => Some None
  | Some p =>
      dv ← debugs s !! p;
      fs ← read_slice framesR s (stackFrames dv);
      Some (Some (fs, detail dv))
  end.

Definition snapshot (s : store) (e : loc) : option Snapshot :=
  err ← errs s !! e;
  md ← read_metadata s (metadata err);
  cs ← read_slice causesR s (causes err);
  h ← read_help s (help err);
  d ← read_debug s (debugInfo err);
  Some (mkSnapshot err md cs h d).

(** The fields of the struct that are not references into the store. *)
Definition scalars (e : TrogonError) : TrogonError :=
  set_metadata None (set_causes None (set_help None (set_debugInfo None e))).

(** The snapshot without addresses: what the error says, wherever its
    parts are stored; a nil map says what an empty one says. *)
Definition contents (sn : Snapshot) : Snapshot :=
  mkSnapshot (scalars (snap_struct sn))
    (Some (default ∅ (snap_metadata sn)))
    (snap_causes sn) (snap_help sn) (snap_debug sn).

(** Every map, help, debug info and array of [s] is in [s'], unchanged. *)
Definition objects_extend (s s' : store) : Prop :=
  maps s `prefix_of` maps s'
  /\ helps s `prefix_of` helps s'
  /\ debugs s `prefix_of` debugs s'
  /\ linkArrays s `prefix_of` linkArrays s'
  /\ frameArrays s `prefix_of` frameArrays s'
  /\ causeArrays s `prefix_of` causeArrays s'.

(** *** Vocabulary for the proofs *)

(** [m] run on [s] does not panic and its result satisfies [Q]. *)
Definition wp {A} (m : M A) (s : store) (Q : A -> store -> Prop) : Prop :=
  match m s with
  | Some (a, s') => Q a s'
  | None => False
  end.

(** References of the error under construction: valid in [s] and to
    objects [s0] does not have. *)
Definition own_map (s0 s : store) (m : option loc) : Prop :=
  fresh_ref mapR s0 m /\ valid_map s m.

Definition own_slice {A} (r : region (list A)) (s0 s : store) (sl : option slice) : Prop :=
  fresh_slice r s0 sl /\ valid_slice r s sl.

Definition own_help (s0 s : store) (h : option loc) : Prop :=
  match h with
  | None => True
  | Some p =>
      (length (helps s0) <= p)%nat
      /\ exists hv, helps s !! p = Some hv /\ own_slice linksR s0 s (links hv)
  end.

Definition own_debug (s0 s : store) (d : option loc) : Prop :=
  match d with
  | None => True
  | Some p =>
      (length (debugs s0) <= p)%nat
      /\ exists dv, debugs s !! p = Some dv /\ own_slice framesR s0 s (stackFrames dv)
  end.

Definition own_fields (s0 s : store) (err : TrogonError) : Prop :=
  own_map s0 s (metadata err)
  /\ own_slice causesR s0 s (causes err)
  /\ own_help s0 s (help err)
  /\ own_debug s0 s (debugInfo err).

(** The invariant of [WithChanges] from the copy onwards: the store
    extends the one it started from, and the clone and all it refers to
    are new. *)
Definition Inv (s0 : store) (p : loc) (s : store) : Prop :=
  extends s0 s
  /\ (length (errs s0) <= p)%nat
  /\ exists err, errs s !! p = Some err /\ own_fields s0 s err.

(** A change of the store that keeps every error, help and debug info as
    it is, every map in place, and every array at its length. *)
Definition preserves (s s' : store) : Prop :=
  (forall l x, errs s !! l = Some x -> errs s' !! l = Some x)
  /\ (forall l x, helps s !! l = Some x -> helps s' !! l = Some x)
  /\ (forall l x, debugs s !! l = Some x -> debugs s' !! l = Some x)
  /\ (length (maps s) <= length (maps s'))%nat
  /\ (forall l a, linkArrays s !! l = Some a ->
        exists a', linkArrays s' !! l = Some a' /\ length a' = length a)
  /\ (forall l a, frameArrays s !! l = Some a ->
        exists a', frameArrays s' !! l = Some a' /\ length a' = length a)
  /\ (forall l a, causeArrays s !! l = Some a ->
        exists a', causeArrays s' !! l = Some a' /\ length a' = length a).

(** One write, by a holder of the error at [e'], to its metadata map, its
    help, the array of its help links, its debug info or the array of its
    stack frames. *)
Inductive mutates (s : store) (e' : loc) : store -> Prop :=
  | mutates_metadata err m md :
      errs s !! e' = Some err -> metadata err = Some m ->
      mutates s e' (put mapR (<[m:=md]> (maps s)) s)
  | mutates_help err hp hv :
      errs s !! e' = Some err -> help err = Some hp ->
      mutates s e' (put helpR (<[hp:=hv]> (helps s)) s)
  | mutates_links err hp hv sl a :
      errs s !! e' = Some err -> help err = Some hp ->
      helps s !! hp = Some hv -> links hv = Some sl ->
      mutates s e' (put linksR (<[arr sl:=a]> (linkArrays s)) s)
  | mutates_debugInfo err dp dv :
      errs s !! e' = Some err -> debugInfo err = Some dp ->
      mutates s e' (put debugR (<[dp:=dv]> (debugs s)) s)
  | mutates_frames err dp dv sl a :
      errs s !! e' = Some err -> debugInfo err = Some dp ->
      debugs s !! dp = Some dv -> stackFrames dv = Some sl ->
      mutates s e' (put framesR (<[arr sl:=a]> (frameArrays s)) s).

End Heap.

(** ** A runtime to run the model on examples

    ASCII white space only in [TrimSpace], the format string itself for
    [Sprintf], decimal nanoseconds for times and durations, an empty call
    stack, and doubling for [append]. *)

Fixpoint trimLeft (s : string) : string :=
  match s with
  | EmptyString => EmptyString
  | String c rest => if Ascii.is_space c then trimLeft rest else s
  end.

Definition asciiTrimSpace (s : string) : string :=
  String.rev (trimLeft (String.rev (trimLeft s))).

Definition exampleRuntime : GoRuntime := {|
  Sprintf := fun format _ => format;
  TrimSpace := asciiTrimSpace;
  Format_RFC3339 := fun t => pretty t;
  Duration_String := fun d => pretty d +:+ "ns";
  Callers := fun _ _ => [];
  Growslice := fun oldCap _ => (2 * oldCap)%nat |}.

(** ** The sections of the rendered text

    The text [Error] builds, section by section, to state what it renders. *)

Section Sections.
Context {rt : GoRuntime}.

(** The five lines every error renders. *)
Definition fixedLines (e : TrogonError) : list string :=
  [ TrimSpace (Message e);
    "  visibility: " +:+ Visibility_String (visibility e);
    "  domain: " +:+ domain e;
    "  reason: " +:+ reason e;
    "  code: " +:+ Code_String (code e) ].

(** The lines for [id], [time], [subject], [sourceID] and [retryInfo]. *)
Definition optionalLines (e : TrogonError) : string :=
  (if bool_decide (id e <> "") then LF +:+ "  id: " +:+ id e else "")
  +:+ match time e with
      | Some t => LF +:+ "  time: " +:+ Format_RFC3339 t
      | None => ""
      end
  +:+ (if bool_decide (subject e <> "") then LF +:+ "  subject: " +:+ subject e else "")
  +:+ (if bool_decide (sourceID e <> "") then LF +:+ "  sourceId: " +:+ sourceID e else "")
  +:+ match retryInfo e with
      | Some r =>
          LF +:+ "  retryInfo: "
          +:+ match retryOffset r with
              | Some d => "retryOffset=" +:+ Duration_String d
              | None =>
                  match retryTime r with
                  | Some t => "retryTime=" +:+ Format_RFC3339 t
                  | None => ""
                  end
              end
      | None => ""
      end.

(** One metadata line, without its leading line feed. *)
Definition metadataLine (k : string) (v : MetadataValue) : string :=
  "    - " +:+ k +:+ ": " +:+ value v
  +:+ " visibility=" +:+ Visibility_String (mv_visibility v).

(** The help links, one per line. *)
Fixpoint helpText (i : nat) (ls : list HelpLink) : string :=
  match ls with
  | [] => ""
  | link :: rest =>
      (if bool_decide (0 < i)%nat then LF else "")
      +:+ "- " +:+ description link +:+ ": " +:+ url link
      +:+ helpText (S i) rest
  end.

(** Everything [Error] writes after the metadata block. *)
Definition trailingSections (e : TrogonError) : string :=
  match help e with
  | Some h =>
      if bool_decide (0 < length (links h))%nat
      then LF +:+ LF +:+ helpText 0 (links h) else ""
  | None => ""
  end
  +:+ match wrappedErr e with
      | Some w => LF +:+ LF +:+ "wrapped error: " +:+ error_Error w
      | None => ""
      end
  +:+ match debugInfo e with
      | Some d =>
          LF +:+ (if bool_decide (detail d <> "") then LF +:+ detail d else "")
          +:+ String.concat "" ((fun entry => LF +:+ entry) <$> StackEntries d)
      | None => ""
      end.

End Sections.

(** The number of line feeds in a text: one less than its number of lines. *)
Fixpoint countLF (s : string) : nat :=
  match s with
  | EmptyString => 0%nat
  | String c rest => ((if bool_decide (c = "010"%char) then 1 else 0) + countLF rest)%nat
  end.

(** ** Errors of the package's tests, under the example runtime *)

(** [TestTrogonError_ExactFormat_MinimalError] *)
Definition minimalError : TrogonError :=
  NewError (rt:=exampleRuntime) "shopify.core" "SYSTEM_ERROR" [].

(** The minimal error with a debug detail that is the empty string. *)
Definition emptyDebugError : TrogonError :=
  NewError (rt:=exampleRuntime) "shopify.core" "SYSTEM_ERROR" [WithDebugDetail ""].

(** [TestTrogonError_ExactFormat_MetadataOrdering] *)
Definition metadataOrderingError : TrogonError :=
  NewError (rt:=exampleRuntime) "shopify.core" "METADATA_SORT_TEST"
    [ WithMetadataValue VisibilityPublic "productType" "digital";
      WithMetadataValue VisibilityPublic "customerId" "gid://shopify/Customer/1234567890";
      WithMetadataValue VisibilityPublic "orderId" "gid://shopify/Order/5432109876" ].

(** ** Vocabulary for the option pipeline *)

(** The fields an option can assign. *)
Inductive Field :=
  | FCode | FMessage | FMetadata | FVisibility | FSubject | FID | FTime
  | FSourceID | FHelp | FDebugInfo | FLocalizedMessage | FRetryInfo
  | FCauses | FWrappedErr.

#[global] Instance Field_eq_dec : EqDecision Field.
Proof. solve_decision. Defined.

(** The field the closure of an option assigns to. *)
Definition writes (option : ErrorOption) : Field :=
  match option with
  | WithCode _ => FCode
  | WithMessage _ | WithErrorMessage _ => FMessage
  | WithMetadata _ | WithMetadataValue _ _ _ | WithMetadataValuef _ _ _ _ => FMetadata
  | WithVisibility _ => FVisibility
  | WithSubject _ => FSubject
  | WithID _ => FID
  | WithTime _ => FTime
  | WithSourceID _ => FSourceID
  | WithHelp _ | WithHelpLink _ _ | WithHelpLinkf _ _ _ => FHelp
  | WithDebugInfo _ | WithDebugDetail _ | WithStackTraceDepth _ => FDebugInfo
  | WithLocalizedMessage _ _ => FLocalizedMessage
  | WithRetryInfoDuration _ | WithRetryTime _ => FRetryInfo
  | WithCause _ => FCauses
  | WithWrap _ => FWrappedErr
  end.

(** The metadata keys an option writes. *)
Definition metadataKeys (option : ErrorOption) : gset string :=
  match option with
  | WithMetadata md => dom md
  | WithMetadataValue _ key _ | WithMetadataValuef _ key _ _ => {[ key ]}
  | _ => ∅
  end.

Definition isRetryOption (option : ErrorOption) : bool :=
  match option with
  | WithRetryInfoDuration _ | WithRetryTime _ => true
  | _ => false
  end.

Definition isRetryChange (change : ChangeOption) : bool :=
  match change with
  | WithChangeRetryInfoDuration _ | WithChangeRetryTime _ => true
  | _ => false
  end.




(** Retry information that is absent or holds exactly one of its two
    variants. *)
Definition retryExclusive (r : option RetryInfo) : Prop :=
  match r with
  | None => True
  | Some r =>
      (is_Some (retryOffset r) /\ retryTime r = None)
      \/ (retryOffset r = None /\ is_Some (retryTime r))
  end.

(** The errors the three producers of the package can return. *)
Inductive reachable {rt : GoRuntime} : TrogonError -> Prop :=
  | reachable_NewError domain reason options :
      reachable (NewError domain reason options)
  | reachable_Template et options :
      reachable (Template_NewError et options)
  | reachable_WithChanges e changes :
      reachable e -> reachable (WithChanges e changes).

(** [TestTrogonErrorMutation], "WithChangeMetadata replaces metadata" *)
Definition legacyOption : ErrorOption :=
  WithMetadataValue VisibilityPublic "legacyCustomerId" "cust_legacy_123456".

Definition legacyError : TrogonError :=
  NewError (rt:=exampleRuntime) "shopify.cache" "CACHE_MISS" [legacyOption].

Definition newMetadata : Metadata :=
  {[ "customerId" := mkMetadataValue "gid://shopify/Customer/1234567890" VisibilityPrivate ]}.


(** The entries a metadata option writes. *)
Definition metadataEntries {rt : GoRuntime} (option : ErrorOption) : Metadata :=
  match option with
  | WithMetadata md => md
  | WithMetadataValue vis key val => {[ key := mkMetadataValue val vis ]}
  | WithMetadataValuef vis key valueFormat args =>
      {[ key := mkMetadataValue (Sprintf valueFormat args) vis ]}
  | _ => ∅
  end.









(** ** Vocabulary for chain extraction *)

(** The layers of an error chain, outermost first: each layer followed by
    what its own [Unwrap] returns. *)
Fixpoint chain (err : error) {struct err} : list error :=
  err ::
    match err with
    | ErrTrogon _ x =>
        match wrappedErr x with
        | Some next => chain next
        | None => []
        end
    | ErrForeign _ _ inner =>
        match inner with
        | Some next => chain next
        | None => []
        end
    end.

(** The identity key a target stands for. *)
Definition targetDomain (target : AsTarget) : string :=
  match target with
  | TargetTemplate et => t_domain et
  | TargetError e => domain e
  end.

Definition targetReason (target : AsTarget) : string :=
  match target with
  | TargetTemplate et => t_reason et
  | TargetError e => reason e
  end.

(** A layer that is a [TrogonError] with the target's domain and reason. *)
Definition matchingLayer (target : AsTarget) (layer : error) : option TrogonError :=
  match layer with
  | ErrTrogon _ x =>
      if bool_decide (targetDomain target = domain x /\ targetReason target = reason x)
      then Some x else None
  | ErrForeign _ _ _ => None
  end.

(** [n] layers of [fmt.Errorf("...: %w", err)] around an error. *)
Fixpoint wrapN (n : nat) (err : error) : error :=
  match n with
  | O => err
  | S n' => ErrForeign n "context" (Some (wrapN n' err))
  end.

(** [TestAs]: errors of two templates, one of them wrapped. *)
Definition inventoryTemplate : ErrorTemplate :=
  NewErrorTemplate "shopify.inventory" "INSUFFICIENT_INVENTORY" [].

Definition usersTemplate : ErrorTemplate :=
  NewErrorTemplate "shopify.users" "NOT_FOUND" [].

Definition inventoryError : TrogonError :=
  Template_NewError (rt:=exampleRuntime) inventoryTemplate
    [WithMetadataValue VisibilityPublic "productId" "gid://shopify/Product/1234567890"].

Definition wrappedInventoryError : error :=
  ErrForeign 1 "context: insufficient inventory" (Some (ErrTrogon true inventoryError)).


(** An error on the heap with one metadata entry, a help whose one link
    sits in an array with room for a second, and a debug info with one
    frame; and three changes to make to a copy of it. *)
Definition receiverStore : Heap.store :=
  Heap.mkStore
    [Heap.mkTrogonError SpecVersion CodeNotFound "" "shopify.users" "NOT_FOUND"
       (Some 0%nat) None VisibilityInternal "" "" None (Some 0%nat) (Some 0%nat)
       None None "" None]
    [{[ "userId" := mkMetadataValue "1234567890" VisibilityPublic ]}]
    [Heap.mkHelp (Some (Heap.mkSlice 0%nat 1%nat))]
    [Heap.mkDebugInfo (Some (Heap.mkSlice 0%nat 1%nat)) "lookup failed"]
    [[mkHelpLink "Documentation" "https://docs.example.com"; Heap.zeroLink]]
    [[mkFrame "users.go" 42 "main.findUser"]]
    [].

Definition receiverChanges : list Heap.ChangeOption :=
  [Heap.WithChangeID "err-1";
   Heap.WithChangeMetadataValue VisibilityPublic "userId" "4567890123";
   Heap.WithChangeHelpLink "Status" "https://status.example.com"].

(** Two errors stamped from one template whose help holds three links in
    an array of four: [WithHelp], given a copy of the template's [Help],
    gave each error a [Help] of its own, both with the template's slice. *)
Definition stampedStore : Heap.store :=
  Heap.mkStore
    [Heap.mkTrogonError SpecVersion CodeUnknown "" "shopify.api" "RATE_LIMIT_EXCEEDED"
       None None VisibilityInternal "" "" None (Some 0%nat) None None None "" None;
     Heap.mkTrogonError SpecVersion CodeUnknown "" "shopify.api" "RATE_LIMIT_EXCEEDED"
       None None VisibilityInternal "" "" None (Some 1%nat) None None None "" None]
    []
    [Heap.mkHelp (Some (Heap.mkSlice 0%nat 3%nat));
     Heap.mkHelp (Some (Heap.mkSlice 0%nat 3%nat))]
    []
    [[mkHelpLink "Docs" "https://docs.example.com";
      mkHelpLink "Status" "https://status.example.com";
      mkHelpLink "Support" "https://support.example.com";
      Heap.zeroLink]]
    []
    [].

(** ** Vocabulary for the further properties *)

(** The three named visibility levels, in declaration order. *)
Definition allVisibilities : list Visibility :=
  [VisibilityInternal; VisibilityPrivate; VisibilityPublic].

(** A layer of a chain that stands for the target: for a [TrogonError]
    target, a [TrogonError] with its domain and reason; for an error of
    another type, that same error. *)
Definition matchesTarget (target layer : error) : Prop :=
  match target, layer with
  | ErrTrogon _ t, ErrTrogon _ x => domain x = domain t /\ reason x = reason t
  | ErrForeign i _ _, ErrForeign j _ _ => j = i
  | _, _ => False
  end.

(** The causes a list of options adds with [WithCause], in order. *)
Definition addedCauses (options : list ErrorOption) : list TrogonError :=
  options ≫= (fun option =>
    match option with
    | WithCause cs => cs
    | _ => []
    end).


(** [TestTrogonError_ExactFormat_WithWrappedError]: an error that wraps an
    error of another type. *)
Definition wrappingError : TrogonError :=
  NewError (rt:=exampleRuntime) "shopify.database" "CONNECTION_FAILED"
    [WithCode CodeUnavailable;
     WithWrap (Some (ErrForeign 0 "connection refused" None))].

(** * Properties *)

(** ** Status codes *)

Lemma Code_HttpStatusCode_default (c : Code) :
  c ∉ allCodes -> Code_HttpStatusCode c = 500.
Proof.
  intros Hc. unfold Code_HttpStatusCode.
  repeat match goal with
  | |- context [?x =? ?k] =>
      destruct (Z.eqb_spec x k) as [->|_];
      [ exfalso; apply Hc; unfold allCodes; set_solver | ]
  end.
  reflexivity.
Qed.

(** C6.  [Code.HttpStatusCode] is a fixed table over the sixteen codes, in
    which NOT_FOUND is 404, RESOURCE_EXHAUSTED is 429 and UNAUTHENTICATED is
    401; every other value of [Code] gets the status of the unknown kind,
    500. *)
Theorem Code_HttpStatusCode_mapping (c : Code) :
  length allCodes = 16%nat
  /\ (Code_HttpStatusCode <$> allCodes)
     = [499; 500; 400; 504; 404; 409; 403; 429; 400; 409; 400; 501; 500; 503; 500; 401]
  /\ Code_HttpStatusCode CodeNotFound = 404
  /\ Code_HttpStatusCode CodeResourceExhausted = 429
  /\ Code_HttpStatusCode CodeUnauthenticated = 401
  /\ Code_HttpStatusCode CodeUnknown = 500
  /\ (c ∉ allCodes -> Code_HttpStatusCode c = Code_HttpStatusCode CodeUnknown).
Proof.
  repeat split; try reflexivity.
  intros Hc. rewrite (Code_HttpStatusCode_default c Hc). reflexivity.
Qed.

Lemma Code_HttpStatusCode_mapping_witness :
  (999 ∉ allCodes) /\ Code_HttpStatusCode 999 = Code_HttpStatusCode CodeUnknown.
Proof.
  assert (H : 999 ∉ allCodes).
  { unfold allCodes. intros Hin. repeat (apply elem_of_cons in Hin as [Hin|Hin]; [discriminate Hin|]).
    by apply elem_of_nil in Hin. }
  split; [exact H|].
  exact (proj2 (proj2 (proj2 (proj2 (proj2 (proj2 (Code_HttpStatusCode_mapping 999)))))) H).
Defined.

(** ** Identity *)

(** C1.  [a.Is(b)] for a target that is a [TrogonError], by value or behind
    a pointer, is true exactly when domain and reason agree; no other field
    is read. *)
Theorem Is_iff_same_domain_reason (a b : TrogonError) (byPointer : bool) :
  Is a (ErrTrogon byPointer b) = true
  <-> domain a = domain b /\ reason a = reason b.
Proof.
  destruct a, byPointer; simpl;
    rewrite andb_true_iff, !bool_decide_eq_true; reflexivity.
Qed.

(** ** The formatter *)

Lemma string_app_assoc (a b c : string) : (a +:+ b) +:+ c = a +:+ b +:+ c.
Proof.
  induction a as [|x a IH]; [done|].
  change (String x ((a +:+ b) +:+ c) = String x (a +:+ b +:+ c)). by rewrite IH.
Qed.

Lemma string_app_empty_r (a : string) : a +:+ "" = a.
Proof.
  induction a as [|x a IH]; [done|].
  change (String x (a +:+ "") = String x a). by rewrite IH.
Qed.

Lemma foldl_append {A} (f : A -> string) (l : list A) (sb : string) :
  foldl (fun sb x => sb +:+ f x) sb l = sb +:+ String.concat "" (f <$> l).
Proof.
  revert sb. induction l as [|x l IH]; intros sb; simpl.
  - by rewrite string_app_empty_r.
  - rewrite IH, string_app_assoc. f_equal.
    destruct l; simpl; [by rewrite string_app_empty_r|done].
Qed.

Lemma writeHelpLinks_text (i : nat) (ls : list HelpLink) (sb : string) :
  writeHelpLinks i ls sb = sb +:+ helpText i ls.
Proof.
  revert i sb. induction ls as [|link ls IH]; intros i sb; simpl.
  - by rewrite string_app_empty_r.
  - rewrite IH. case_bool_decide; rewrite ?string_app_assoc; done.
Qed.

Lemma writeHelpLinks_after (i : nat) (ls : list HelpLink) (sb x : string) :
  writeHelpLinks i ls (sb +:+ x) = sb +:+ x +:+ helpText i ls.
Proof. by rewrite writeHelpLinks_text, string_app_assoc. Qed.

Lemma if_append (b : bool) (sb x : string) :
  (if b then sb +:+ x else sb) = sb +:+ (if b then x else "").
Proof. destruct b; [done|by rewrite string_app_empty_r]. Qed.

Section FormatterFacts.
Context {rt : GoRuntime}.

Lemma writeMetadata_text (m : Metadata) (sb : string) :
  writeMetadata m sb =
    sb +:+ LF +:+ "  metadata:"
       +:+ String.concat ""
             ((fun k => LF +:+ metadataLine k (map_index m k))
                <$> slices_Sorted (maps_Keys m)).
Proof.
  unfold writeMetadata. cbv zeta.
  rewrite (foldl_append (fun k => LF +:+ metadataLine k (map_index m k))).
  by rewrite string_app_assoc.
Qed.

Ltac normalize_text :=
  rewrite ?writeMetadata_text, ?writeHelpLinks_after, ?foldl_append;
  rewrite ?if_append;
  rewrite ?string_app_assoc, ?string_app_empty_r;
  change (String.append "") with (fun s : string => s); cbv beta;
  rewrite ?string_app_empty_r.

Lemma Error_sections (e : TrogonError) :
  Error e =
    String.concat LF (fixedLines e)
    +:+ optionalLines e
    +:+ (if bool_decide (0 < size (metadata e))%nat
         then LF +:+ "  metadata:"
              +:+ String.concat ""
                    ((fun k => LF +:+ metadataLine k (map_index (metadata e) k))
                       <$> slices_Sorted (maps_Keys (metadata e)))
         else "")
    +:+ trailingSections e.
Proof.
  destruct e as [a1 a2 a3 a4 a5 a6 a7 a8 a9 a10 [t|] [h|] [d|] a14 [r|] a16 [w|]];
    unfold fixedLines, optionalLines, trailingSections;
    cbn [Error specVersion code message domain reason metadata causes visibility subject id time help debugInfo localizedMessage retryInfo sourceID wrappedErr String.concat].
  all: normalize_text; reflexivity.
Qed.

End FormatterFacts.

Lemma countLF_app (a b : string) : countLF (a +:+ b) = (countLF a + countLF b)%nat.
Proof.
  induction a as [|c a IH]; [done|].
  change (countLF (String c (a +:+ b)) = (countLF (String c a) + countLF b)%nat).
  simpl. rewrite IH. lia.
Qed.

Lemma countLF_Visibility_String (v : Visibility) : countLF (Visibility_String v) = 0%nat.
Proof. unfold Visibility_String. repeat case_match; reflexivity. Qed.

Lemma countLF_Code_String (c : Code) : countLF (Code_String c) = 0%nat.
Proof. unfold Code_String. repeat case_match; reflexivity. Qed.

Section Minimal.
Context {rt : GoRuntime}.

(** C3, as amended.  An error whose optional fields are all empty or nil
    (empty [id], [subject] and [sourceID]; nil [time] and wrapped error; no
    metadata; a help that is nil or has no links; a retry info that is nil
    or holds neither variant; a debug info that is nil or holds neither
    detail nor frames) renders as the five lines: the trimmed message, or
    the default message of the code when the message is empty, then
    visibility, domain, reason and code.  Nothing follows them when the
    retry info and the debug info are nil.  A retry info that is not nil
    adds the line [  retryInfo: ] with nothing after the colon and space; a
    debug info that is not nil adds a line feed at the end.  [Error] is a
    total function; the formatter writes four line feeds between the five
    lines, so any further line break inside them comes from the message,
    domain or reason. *)
Theorem Error_empty_fields_five_lines (e : TrogonError) :
  id e = "" -> time e = None -> subject e = "" -> sourceID e = "" ->
  (forall r, retryInfo e = Some r -> retryOffset r = None /\ retryTime r = None) ->
  size (metadata e) = 0%nat ->
  (forall h, help e = Some h -> links h = []) ->
  wrappedErr e = None ->
  (forall d, debugInfo e = Some d -> detail d = "" /\ stackFrames d = []) ->
  Error e =
    String.concat LF
      [ TrimSpace (Message e);
        "  visibility: " +:+ Visibility_String (visibility e);
        "  domain: " +:+ domain e;
        "  reason: " +:+ reason e;
        "  code: " +:+ Code_String (code e) ]
    +:+ match retryInfo e with Some _ => LF +:+ "  retryInfo: " | None => "" end
    +:+ match debugInfo e with Some _ => LF | None => "" end
  /\ Message e = (if bool_decide (message e = "") then Code_Message (code e) else message e)
  /\ countLF (Error e)
     = (4 + countLF (TrimSpace (Message e)) + countLF (domain e) + countLF (reason e)
        + match retryInfo e with Some _ => 1 | None => 0 end
        + match debugInfo e with Some _ => 1 | None => 0 end)%nat
  /\ (retryInfo e = None -> debugInfo e = None ->
      Error e =
        String.concat LF
          [ TrimSpace (Message e);
            "  visibility: " +:+ Visibility_String (visibility e);
            "  domain: " +:+ domain e;
            "  reason: " +:+ reason e;
            "  code: " +:+ Code_String (code e) ]).
Proof.
  intros Hid Htime Hsubj Hsrc Hretry Hmd Hhelp Hwrap Hdebug.
  assert (Htext : Error e = String.concat LF (fixedLines e)
                            +:+ match retryInfo e with Some _ => LF +:+ "  retryInfo: " | None => "" end
                            +:+ match debugInfo e with Some _ => LF | None => "" end).
  { rewrite Error_sections. unfold optionalLines, trailingSections.
    rewrite Hid, Htime, Hsubj, Hsrc, Hmd, Hwrap.
    assert (match help e with
            | Some h => if bool_decide (0 < length (links h))%nat
                        then LF +:+ LF +:+ helpText 0 (links h) else ""
            | None => ""
            end = "") as ->.
    { destruct (help e) as [h|] eqn:Hh; [|done]. by rewrite (Hhelp h eq_refl). }
    destruct (retryInfo e) as [[ro rt']|] eqn:Hr;
      [destruct (Hretry _ eq_refl) as [Ho Ht]; simpl in Ho, Ht; subst ro rt'|];
      (destruct (debugInfo e) as [[fs det]|] eqn:Hd;
       [destruct (Hdebug _ eq_refl) as [Hdet Hfs]; simpl in Hdet, Hfs; subst fs det|]);
      simpl; rewrite ?string_app_empty_r, ?string_app_assoc; reflexivity. }
  split; [exact Htext|]. split; [|split].
  - unfold Message. repeat case_bool_decide; congruence.
  - rewrite Htext. unfold fixedLines. cbn [String.concat].
    rewrite !countLF_app, countLF_Visibility_String, countLF_Code_String.
    destruct (retryInfo e), (debugInfo e); simpl; lia.
  - intros Hr Hd. rewrite Htext, Hr, Hd. by rewrite !string_app_empty_r.
Qed.

End Minimal.

(** The minimal error of the package's format test. *)
Lemma Error_empty_fields_five_lines_witness :
  Error (rt:=exampleRuntime) minimalError =
    "unknown error" +:+ LF +:+ "  visibility: INTERNAL" +:+ LF
    +:+ "  domain: shopify.core" +:+ LF +:+ "  reason: SYSTEM_ERROR" +:+ LF
    +:+ "  code: UNKNOWN"
  /\ countLF (Error (rt:=exampleRuntime) minimalError) = 4%nat.
Proof.
  destruct (Error_empty_fields_five_lines (rt:=exampleRuntime) minimalError)
    as (_ & _ & Hcount & Htext); try reflexivity.
  - intros r Hr. discriminate Hr.
  - intros h Hh. discriminate Hh.
  - intros d Hd. discriminate Hd.
  - split; [rewrite Htext; reflexivity | rewrite Hcount; reflexivity].
Defined.

(** C3, as stated, fails: the error [WithDebugDetail] builds from an empty
    detail has every optional field empty or nil, its debug info being
    present and empty, and [Error] renders it as the five lines followed by
    a line feed, which is not the five lines. *)
Lemma Error_empty_debugInfo_trailing_line_feed :
  id emptyDebugError = "" /\ time emptyDebugError = None
  /\ subject emptyDebugError = "" /\ sourceID emptyDebugError = ""
  /\ retryInfo emptyDebugError = None /\ metadata emptyDebugError = ∅
  /\ help emptyDebugError = None /\ wrappedErr emptyDebugError = None
  /\ debugInfo emptyDebugError = Some (mkDebugInfo [] "")
  /\ Error (rt:=exampleRuntime) emptyDebugError
     = "unknown error" +:+ LF +:+ "  visibility: INTERNAL" +:+ LF
       +:+ "  domain: shopify.core" +:+ LF +:+ "  reason: SYSTEM_ERROR" +:+ LF
       +:+ "  code: UNKNOWN" +:+ LF
  /\ Error (rt:=exampleRuntime) emptyDebugError
     <> String.concat LF (fixedLines (rt:=exampleRuntime) emptyDebugError)
  /\ countLF (Error (rt:=exampleRuntime) emptyDebugError) = 5%nat.
Proof.
  repeat (split; [reflexivity|]). split; [|reflexivity].
  intros H. apply (f_equal countLF) in H. vm_compute in H. discriminate H.
Qed.

(** ** Metadata rendering *)

Lemma StronglySorted_strict {A} (R : relation A) `{!AntiSymm (=) R} (l : list A) :
  StronglySorted R l -> NoDup l -> StronglySorted (strict R) l.
Proof.
  induction 1 as [|x l Hl IH Hx]; intros Hnd; [constructor|].
  apply NoDup_cons in Hnd as [Hnotin Hnd].
  constructor; [by apply IH|].
  apply Forall_forall. intros y Hy.
  assert (R x y) as Hxy by (by eapply Forall_forall in Hx).
  split; [done|]. intros Hyx. apply Hnotin.
  by rewrite (anti_symm R x y Hxy Hyx).
Qed.

Lemma slices_Sorted_Permutation (ks : list string) : slices_Sorted ks ≡ₚ ks.
Proof. apply merge_sort_Permutation. Qed.

Lemma slices_Sorted_sorted (ks : list string) : StronglySorted String.le (slices_Sorted ks).
Proof. apply StronglySorted_merge_sort; apply _. Qed.

(** The result of sorting depends on the elements only, not on the order
    in which the map iteration delivered them. *)
Lemma slices_Sorted_order_irrelevant (ks ks' : list string) :
  ks ≡ₚ ks' -> slices_Sorted ks = slices_Sorted ks'.
Proof.
  intros Hp. apply (StronglySorted_unique String.le); try apply slices_Sorted_sorted.
  by rewrite !slices_Sorted_Permutation.
Qed.

Lemma elem_of_maps_Keys (m : Metadata) (k : string) :
  k ∈ maps_Keys m <-> is_Some (m !! k).
Proof.
  unfold maps_Keys. rewrite list_elem_of_fmap. split.
  - intros [[k' v] [-> Hin]]. apply elem_of_map_to_list in Hin. by exists v.
  - intros [v Hv]. exists (k, v). split; [done|]. by apply elem_of_map_to_list.
Qed.

Section MetadataFacts.
Context {rt : GoRuntime}.

(** C4.  With non-empty metadata, [Error] writes, after the fixed and
    optional lines, the header and then one line per entry; the keys of
    these lines are exactly the keys of the map, each once, in strictly
    ascending byte-wise order, whatever order the map iteration (hence the
    insertion history) produced; each line has the form
    [    - key: value visibility=NAME]. *)
Theorem Error_metadata_sorted_by_key (e : TrogonError) :
  (0 < size (metadata e))%nat ->
  Error e =
    (String.concat LF (fixedLines e) +:+ optionalLines e)
    +:+ (LF +:+ "  metadata:"
         +:+ String.concat ""
               ((fun k =>
                   LF +:+ "    - " +:+ k +:+ ": "
                   +:+ value (map_index (metadata e) k)
                   +:+ " visibility="
                   +:+ Visibility_String (mv_visibility (map_index (metadata e) k)))
                  <$> slices_Sorted (maps_Keys (metadata e))))
    +:+ trailingSections e
  /\ StronglySorted (strict String.le) (slices_Sorted (maps_Keys (metadata e)))
  /\ (forall k, k ∈ slices_Sorted (maps_Keys (metadata e)) <-> is_Some (metadata e !! k))
  /\ (forall k v, metadata e !! k = Some v -> map_index (metadata e) k = v)
  /\ (forall ks, ks ≡ₚ maps_Keys (metadata e) ->
        slices_Sorted ks = slices_Sorted (maps_Keys (metadata e))).
Proof.
  intros Hsize. split; [|split; [|split; [|split]]].
  - rewrite Error_sections. rewrite bool_decide_eq_true_2 by done.
    by rewrite !string_app_assoc.
  - apply StronglySorted_strict; [apply _|apply slices_Sorted_sorted|].
    rewrite slices_Sorted_Permutation. apply NoDup_fst_map_to_list.
  - intros k. rewrite slices_Sorted_Permutation. apply elem_of_maps_Keys.
  - intros k v Hk. unfold map_index. by rewrite Hk.
  - intros ks Hks. by apply slices_Sorted_order_irrelevant.
Qed.

End MetadataFacts.

(** The package's ordering test: inserted as productType, customerId,
    orderId; rendered as customerId, orderId, productType. *)
Lemma Error_metadata_sorted_by_key_witness :
  (0 < size (metadata metadataOrderingError))%nat
  /\ slices_Sorted (maps_Keys (metadata metadataOrderingError))
     = ["customerId"; "orderId"; "productType"]
  /\ Error (rt:=exampleRuntime) metadataOrderingError =
       "unknown error" +:+ LF +:+ "  visibility: INTERNAL" +:+ LF
       +:+ "  domain: shopify.core" +:+ LF +:+ "  reason: METADATA_SORT_TEST" +:+ LF
       +:+ "  code: UNKNOWN" +:+ LF +:+ "  metadata:" +:+ LF
       +:+ "    - customerId: gid://shopify/Customer/1234567890 visibility=PUBLIC" +:+ LF
       +:+ "    - orderId: gid://shopify/Order/5432109876 visibility=PUBLIC" +:+ LF
       +:+ "    - productType: digital visibility=PUBLIC".
Proof.
  assert (Hsize : (0 < size (metadata metadataOrderingError))%nat) by (vm_compute; lia).
  split; [exact Hsize|]. split; [by vm_compute|].
  rewrite (proj1 (Error_metadata_sorted_by_key (rt:=exampleRuntime) metadataOrderingError Hsize)).
  by vm_compute.
Defined.

(** ** The option pipeline *)

Lemma maps_Copy_union (dst src : Metadata) : maps_Copy dst src = src ∪ dst.
Proof.
  unfold maps_Copy.
  apply (map_fold_weak_ind (fun r m => r = m ∪ dst)).
  - by rewrite (left_id_L ∅ (∪)).
  - intros k v m r _ ->. by rewrite insert_union_l.
Qed.

Lemma map_fold_insert_id (m : Metadata) :
  map_fold (fun k v acc => <[k:=v]> acc) ∅ m = m.
Proof.
  change (maps_Copy ∅ m = m). by rewrite maps_Copy_union, (right_id_L ∅ (∪)).
Qed.

Lemma addMetadataValue_insert vis key val e :
  addMetadataValue vis key val e
  = set_metadata (<[key := mkMetadataValue val vis]> (metadata e)) e.
Proof.
  unfold addMetadataValue. case_bool_decide as Hsize; [|done].
  apply map_size_empty_inv in Hsize. by destruct e; simpl in *; subst.
Qed.

Lemma empty_of_size (m : Metadata) : ¬ (0 < size m)%nat -> ∅ = m.
Proof. intros Hs. symmetry. apply map_size_empty_inv. lia. Qed.

Lemma nil_of_length {A} (l : list A) : ¬ (0 < length l)%nat -> [] = l.
Proof. destruct l; simpl; [done|lia]. Qed.

Lemma nil_of_length_0 {A} (l : list A) : length l = 0%nat -> [] = l.
Proof. by destruct l. Qed.

(** At the value level [copy] returns an equal error. *)
Lemma copy_id (e : TrogonError) : copy e = e.
Proof.
  destruct e as [a1 a2 a3 a4 a5 md cs a8 a9 a10 a11 h d a14 a15 a16 a17].
  unfold copy; simpl.
  destruct h as [[ls]|], d as [[fs det]|];
    unfold Help_copy, DebugInfo_copy; simpl;
    repeat case_bool_decide; simpl;
    repeat match goal with
    | H : ¬ (0 < size _)%nat |- _ => apply empty_of_size in H; subst
    | H : ¬ (0 < length _)%nat |- _ => apply nil_of_length in H; subst
    | H : length _ = 0%nat |- _ => apply nil_of_length_0 in H; subst
    end;
    rewrite ?map_fold_insert_id; reflexivity.
Qed.

Section Pipeline.
Context {rt : GoRuntime}.

Lemma NewError_app domain reason (options1 options2 : list ErrorOption) :
  NewError domain reason (options1 ++ options2)
  = foldl (fun err option => applyOption option err) (NewError domain reason options1) options2.
Proof. unfold NewError. by rewrite foldl_app. Qed.

Lemma WithChanges_foldl e changes :
  WithChanges e changes = foldl (fun err change => applyChange change err) e changes.
Proof. unfold WithChanges. by rewrite copy_id. Qed.

Lemma WithChanges_app e (changes1 changes2 : list ChangeOption) :
  WithChanges e (changes1 ++ changes2)
  = foldl (fun err change => applyChange change err) (WithChanges e changes1) changes2.
Proof. by rewrite !WithChanges_foldl, foldl_app. Qed.

(** No option assigns to [domain] or [reason]. *)
Lemma applyOption_domain_reason option e :
  domain (applyOption option e) = domain e /\ reason (applyOption option e) = reason e.
Proof.
  destruct option, e; simpl; try done;
    rewrite ?addMetadataValue_insert; unfold addHelpLink; simpl;
    repeat case_match; done.
Qed.

Lemma foldl_applyOption_domain_reason options e :
  domain (foldl (fun err option => applyOption option err) e options) = domain e
  /\ reason (foldl (fun err option => applyOption option err) e options) = reason e.
Proof.
  revert e. induction options as [|o os IH]; intros e; simpl; [done|].
  destruct (IH (applyOption o e)) as [-> ->]. apply applyOption_domain_reason.
Qed.

End Pipeline.
(** ** Retry information *)

Section Retry.
Context {rt : GoRuntime}.

Lemma applyOption_retry_untouched option e :
  isRetryOption option = false -> retryInfo (applyOption option e) = retryInfo e.
Proof.
  destruct option, e; simpl; try done; intros _;
    rewrite ?addMetadataValue_insert; unfold addHelpLink; simpl;
    repeat case_match; done.
Qed.

Lemma applyChange_retry_untouched change e :
  isRetryChange change = false -> retryInfo (applyChange change e) = retryInfo e.
Proof.
  destruct change, e; simpl; try done; intros _;
    rewrite ?addMetadataValue_insert; unfold addHelpLink; simpl;
    repeat case_match; done.
Qed.

Lemma applyOption_retryExclusive option e :
  retryExclusive (retryInfo e) -> retryExclusive (retryInfo (applyOption option e)).
Proof.
  destruct (isRetryOption option) eqn:Hr.
  - destruct option, e; try discriminate Hr; simpl; intros _; [left|right]; eauto.
  - by rewrite applyOption_retry_untouched.
Qed.

Lemma applyChange_retryExclusive change e :
  retryExclusive (retryInfo e) -> retryExclusive (retryInfo (applyChange change e)).
Proof.
  destruct (isRetryChange change) eqn:Hr.
  - destruct change, e; try discriminate Hr; simpl; intros _; [left|right]; eauto.
  - by rewrite applyChange_retry_untouched.
Qed.

Lemma foldl_applyOption_retryExclusive options e :
  retryExclusive (retryInfo e) ->
  retryExclusive (retryInfo (foldl (fun err option => applyOption option err) e options)).
Proof.
  revert e. induction options as [|o os IH]; intros e He; simpl; [done|].
  apply IH. by apply applyOption_retryExclusive.
Qed.

Lemma foldl_applyChange_retryExclusive changes e :
  retryExclusive (retryInfo e) ->
  retryExclusive (retryInfo (foldl (fun err change => applyChange change err) e changes)).
Proof.
  revert e. induction changes as [|c cs IH]; intros e He; simpl; [done|].
  apply IH. by apply applyChange_retryExclusive.
Qed.

Lemma foldl_applyOption_retry_untouched options e :
  Forall (fun option => isRetryOption option = false) options ->
  retryInfo (foldl (fun err option => applyOption option err) e options) = retryInfo e.
Proof.
  intros Hall. revert e. induction Hall as [|o os Ho _ IH]; intros e; simpl; [done|].
  by rewrite IH, applyOption_retry_untouched.
Qed.

Lemma foldl_applyChange_retry_untouched changes e :
  Forall (fun change => isRetryChange change = false) changes ->
  retryInfo (foldl (fun err change => applyChange change err) e changes) = retryInfo e.
Proof.
  intros Hall. revert e. induction Hall as [|c cs Hc _ IH]; intros e; simpl; [done|].
  by rewrite IH, applyChange_retry_untouched.
Qed.

Lemma reachable_retryExclusive e : reachable e -> retryExclusive (retryInfo e).
Proof.
  induction 1 as [d r options|et options|e changes _ IH].
  - by apply foldl_applyOption_retryExclusive.
  - by apply foldl_applyOption_retryExclusive.
  - rewrite WithChanges_foldl. by apply foldl_applyChange_retryExclusive.
Qed.

(** The retry information after the last retry option of a construction. *)
Lemma NewError_last_retry domain reason options1 option options2 :
  isRetryOption option = true ->
  Forall (fun o => isRetryOption o = false) options2 ->
  retryInfo (NewError domain reason (options1 ++ option :: options2))
  = match option with
    | WithRetryInfoDuration off => Some (mkRetryInfo (Some off) None)
    | WithRetryTime t => Some (mkRetryInfo None (Some t))
    | _ => None
    end.
Proof.
  intros Hr Hall. rewrite NewError_app. simpl.
  rewrite foldl_applyOption_retry_untouched by done.
  by destruct option, (NewError domain reason options1).
Qed.

Lemma WithChanges_last_retry e changes1 change changes2 :
  isRetryChange change = true ->
  Forall (fun c => isRetryChange c = false) changes2 ->
  retryInfo (WithChanges e (changes1 ++ change :: changes2))
  = match change with
    | WithChangeRetryInfoDuration off => Some (mkRetryInfo (Some off) None)
    | WithChangeRetryTime t => Some (mkRetryInfo None (Some t))
    | _ => None
    end.
Proof.
  intros Hr Hall. rewrite WithChanges_app. simpl.
  rewrite foldl_applyChange_retry_untouched by done.
  by destruct change, (WithChanges e changes1).
Qed.

(** C5.  The retry information of every error [NewError],
    [ErrorTemplate.NewError] or [WithChanges] returns is absent or holds
    exactly one of offset and time; after a retry option (construction or
    change), followed only by options that are not retry options, exactly
    the variant of that option is present, whatever retry options came
    before it. *)
Theorem retryInfo_exclusive_last_wins :
  (forall e, reachable e -> retryExclusive (retryInfo e))
  /\ (forall domain reason options1 options2 off,
        Forall (fun o => isRetryOption o = false) options2 ->
        retryInfo (NewError domain reason (options1 ++ WithRetryInfoDuration off :: options2))
        = Some (mkRetryInfo (Some off) None))
  /\ (forall domain reason options1 options2 t,
        Forall (fun o => isRetryOption o = false) options2 ->
        retryInfo (NewError domain reason (options1 ++ WithRetryTime t :: options2))
        = Some (mkRetryInfo None (Some t)))
  /\ (forall et options1 options2 off,
        Forall (fun o => isRetryOption o = false) options2 ->
        retryInfo (Template_NewError et (options1 ++ WithRetryInfoDuration off :: options2))
        = Some (mkRetryInfo (Some off) None))
  /\ (forall et options1 options2 t,
        Forall (fun o => isRetryOption o = false) options2 ->
        retryInfo (Template_NewError et (options1 ++ WithRetryTime t :: options2))
        = Some (mkRetryInfo None (Some t)))
  /\ (forall e changes1 changes2 off,
        Forall (fun c => isRetryChange c = false) changes2 ->
        retryInfo (WithChanges e (changes1 ++ WithChangeRetryInfoDuration off :: changes2))
        = Some (mkRetryInfo (Some off) None))
  /\ (forall e changes1 changes2 t,
        Forall (fun c => isRetryChange c = false) changes2 ->
        retryInfo (WithChanges e (changes1 ++ WithChangeRetryTime t :: changes2))
        = Some (mkRetryInfo None (Some t))).
Proof.
  split; [exact reachable_retryExclusive|].
  repeat split; intros.
  - by rewrite NewError_last_retry.
  - by rewrite NewError_last_retry.
  - unfold Template_NewError. by rewrite app_assoc, NewError_last_retry.
  - unfold Template_NewError. by rewrite app_assoc, NewError_last_retry.
  - by rewrite WithChanges_last_retry.
  - by rewrite WithChanges_last_retry.
Qed.

End Retry.

(** Duration then time, at construction: only the time is left; a later
    change to a duration leaves only the duration. *)
Lemma retryInfo_exclusive_last_wins_witness :
  retryInfo (NewError (rt:=exampleRuntime) "shopify.queue" "QUEUE_FULL"
               ([WithRetryInfoDuration 30] ++ WithRetryTime 1704110400 :: [WithID "e1"]))
  = Some (mkRetryInfo None (Some 1704110400))
  /\ retryInfo (WithChanges (rt:=exampleRuntime)
                 (NewError (rt:=exampleRuntime) "shopify.queue" "QUEUE_FULL" [WithRetryTime 1704110400])
                 ([] ++ WithChangeRetryInfoDuration 30 :: [WithChangeID "e2"]))
     = Some (mkRetryInfo (Some 30) None)
  /\ retryExclusive (retryInfo
       (WithChanges (rt:=exampleRuntime)
          (NewError (rt:=exampleRuntime) "shopify.queue" "QUEUE_FULL"
             [WithRetryInfoDuration 30; WithRetryTime 1704110400])
          [WithChangeID "e3"])).
Proof.
  pose proof (retryInfo_exclusive_last_wins (rt:=exampleRuntime))
    as (Hreach & _ & Htime & _ & _ & Hchange & _).
  split; [|split].
  - apply Htime. repeat constructor.
  - apply Hchange. repeat constructor.
  - apply Hreach. apply reachable_WithChanges, reachable_NewError.
Defined.

(** ** Replacing and accumulating metadata *)

Section MetadataOptions.
Context {rt : GoRuntime}.

Lemma applyChange_WithChangeMetadata md e :
  metadata (applyChange (WithChangeMetadata md) e) = md.
Proof.
  destruct e; simpl. by rewrite maps_Copy_union, (right_id_L ∅ (∪)).
Qed.

Lemma applyOption_WithMetadata md e :
  metadata (applyOption (WithMetadata md) e) = md ∪ metadata e.
Proof. destruct e; simpl. by rewrite maps_Copy_union. Qed.

(** C10.  [WithChangeMetadata] replaces the metadata: after it the map
    holds exactly the supplied entries, so a key of the receiver that the
    supplied map lacks is gone.  [WithMetadata] accumulates: the supplied
    entries are written over the existing map, and every key it does not
    mention keeps its entry. *)
Theorem WithChangeMetadata_replaces_WithMetadata_accumulates
    (e : TrogonError) (md : Metadata) :
  (forall changes,
     metadata (WithChanges e (changes ++ [WithChangeMetadata md])) = md)
  /\ (forall k,
        is_Some (metadata e !! k) -> md !! k = None ->
        metadata (WithChanges e [WithChangeMetadata md]) !! k = None)
  /\ (forall domain reason options,
        metadata (NewError domain reason (options ++ [WithMetadata md]))
        = md ∪ metadata (NewError domain reason options))
  /\ (forall domain reason options k,
        md !! k = None ->
        metadata (NewError domain reason (options ++ [WithMetadata md])) !! k
        = metadata (NewError domain reason options) !! k)
  /\ (forall domain reason options k v,
        md !! k = Some v ->
        metadata (NewError domain reason (options ++ [WithMetadata md])) !! k = Some v).
Proof.
  assert (Hrepl : forall changes,
    metadata (WithChanges e (changes ++ [WithChangeMetadata md])) = md).
  { intros changes. rewrite WithChanges_app. simpl.
    apply applyChange_WithChangeMetadata. }
  assert (Hacc : forall domain reason options,
    metadata (NewError domain reason (options ++ [WithMetadata md]))
    = md ∪ metadata (NewError domain reason options)).
  { intros d r options. rewrite NewError_app. simpl.
    apply applyOption_WithMetadata. }
  split; [exact Hrepl|]. split; [|split; [exact Hacc|split]].
  - intros k _ Hk. specialize (Hrepl []). simpl in Hrepl. by rewrite Hrepl.
  - intros d r options k Hk. rewrite Hacc.
    by rewrite lookup_union_r.
  - intros d r options k v Hk. rewrite Hacc.
    by apply lookup_union_Some_l.
Qed.

End MetadataOptions.

(** The package's test: [legacyCustomerId] is gone after
    [WithChangeMetadata] with a map that holds only [customerId]; the same
    map passed to [WithMetadata] keeps it. *)
Lemma WithChangeMetadata_replaces_WithMetadata_accumulates_witness :
  is_Some (metadata legacyError !! "legacyCustomerId")
  /\ newMetadata !! "legacyCustomerId" = None
  /\ metadata (WithChanges (rt:=exampleRuntime) legacyError [WithChangeMetadata newMetadata])
       !! "legacyCustomerId" = None
  /\ metadata (NewError (rt:=exampleRuntime) "shopify.cache" "CACHE_MISS"
                 ([legacyOption] ++ [WithMetadata newMetadata])) !! "legacyCustomerId"
     = Some (mkMetadataValue "cust_legacy_123456" VisibilityPublic).
Proof.
  assert (H1 : is_Some (metadata legacyError !! "legacyCustomerId"))
    by (vm_compute; eauto).
  assert (H2 : newMetadata !! "legacyCustomerId" = None) by (by vm_compute).
  pose proof (WithChangeMetadata_replaces_WithMetadata_accumulates
                (rt:=exampleRuntime) legacyError newMetadata)
    as (_ & Hgone & _ & Hkeep & _).
  split; [exact H1|]. split; [exact H2|]. split.
  - exact (Hgone _ H1 H2).
  - rewrite (Hkeep "shopify.cache" "CACHE_MISS" _ _ H2). by vm_compute.
Defined.

(** ** Order of options *)

Section Commutation.
Context {rt : GoRuntime}.









End Commutation.



(** ** Templates *)

Section TemplateFacts.
Context {rt : GoRuntime}.

Lemma applyOption_code_untouched o e :
  writes o <> FCode -> code (applyOption o e) = code e.
Proof.
  intros Hw. destruct o; try (exfalso; apply Hw; reflexivity);
    destruct e as [? ? ? ? ? ? ? ? ? ? ? [h|] [d|] ? ? ? ?]; simpl;
    rewrite ?addMetadataValue_insert; reflexivity.
Qed.

Lemma applyOption_visibility_untouched o e :
  writes o <> FVisibility -> visibility (applyOption o e) = visibility e.
Proof.
  intros Hw. destruct o; try (exfalso; apply Hw; reflexivity);
    destruct e as [? ? ? ? ? ? ? ? ? ? ? [h|] [d|] ? ? ? ?]; simpl;
    rewrite ?addMetadataValue_insert; reflexivity.
Qed.

Lemma applyOption_message_untouched o e :
  writes o <> FMessage -> message (applyOption o e) = message e.
Proof.
  intros Hw. destruct o; try (exfalso; apply Hw; reflexivity);
    destruct e as [? ? ? ? ? ? ? ? ? ? ? [h|] [d|] ? ? ? ?]; simpl;
    rewrite ?addMetadataValue_insert; reflexivity.
Qed.

Lemma foldl_untouched {A} (get : TrogonError -> A) (F : Field) options e :
  (forall o e, writes o <> F -> get (applyOption o e) = get e) ->
  Forall (fun o => writes o <> F) options ->
  get (foldl (fun err option => applyOption option err) e options) = get e.
Proof.
  intros Hget Hall. revert e.
  induction Hall as [|o os Ho _ IH]; intros e; simpl; [done|].
  by rewrite IH, Hget.
Qed.






End TemplateFacts.



(** ** Chain extraction *)

Lemma target_is_iff target p x :
  target_is target (ErrTrogon p x) = true
  <-> targetDomain target = domain x /\ targetReason target = reason x.
Proof.
  destruct target as [et|e]; simpl.
  - destruct p; by rewrite andb_true_iff, !bool_decide_eq_true.
  - destruct e, p; simpl; by rewrite andb_true_iff, !bool_decide_eq_true.
Qed.

Lemma matchingLayer_Some target layer x :
  matchingLayer target layer = Some x
  <-> (exists p, layer = ErrTrogon p x)
      /\ targetDomain target = domain x /\ targetReason target = reason x.
Proof.
  destruct layer as [p y|i t inner]; simpl.
  - destruct (bool_decide_reflect
                (targetDomain target = domain y /\ targetReason target = reason y))
      as [Hy|Hy]; split.
    + intros [= ->]. eauto.
    + intros [[p' [= _ ->]] _]. done.
    + discriminate.
    + intros [[p' [= _ ->]] Hx]. done.
  - split; [discriminate|]. intros [[p' [=]] _].
Qed.

(** [As_walk] returns the first matching layer of the chain. *)
Lemma As_walk_first_match target :
  forall err,
    As_walk err target
    = match head (omap (matchingLayer target) (chain err)) with
      | Some x => (Some x, true)
      | None => (None, false)
      end.
Proof.
  fix IH 1. intros [p x|i t inner].
  - cbn [As_walk chain omap list_omap].
    destruct (target_is target (ErrTrogon p x)) eqn:Hm.
    + apply target_is_iff in Hm.
      assert (matchingLayer target (ErrTrogon p x) = Some x) as ->; [|done].
      apply matchingLayer_Some. eauto.
    + destruct (matchingLayer target (ErrTrogon p x)) as [y|] eqn:Hl.
      { apply matchingLayer_Some in Hl as [[p' [= _ ->]] Hy].
        apply (target_is_iff target p y) in Hy. congruence. }
      destruct x as [? ? ? ? ? ? ? ? ? ? ? ? ? ? ? ? [next|]]; simpl; [apply IH|done].
  - cbn [As_walk chain omap list_omap matchingLayer].
    destruct inner as [next|]; [apply IH|done].
Qed.

Lemma As_wrapN target n layer :
  As (Some (wrapN n layer)) target = As (Some layer) target.
Proof. induction n as [|n IH]; [done|]. simpl in *. exact IH. Qed.

(** C8.  [As] walks the chain through each layer's unwrap link and returns
    the first layer that is a [TrogonError] with the target's domain and
    reason, with [true]; when no layer is one, also when the chain holds
    [TrogonError]s of another identity, it returns nil and [false].  It is
    total, and any number of wrappers around an error changes nothing. *)
Theorem As_returns_first_matching_layer (target : AsTarget) (err : option error) :
  As err target
  = match err ≫= (fun layer => head (omap (matchingLayer target) (chain layer))) with
    | Some x => (Some x, true)
    | None => (None, false)
    end
  /\ (forall x,
        As err target = (Some x, true) ->
        domain x = targetDomain target /\ reason x = targetReason target
        /\ exists layer p, err = Some layer /\ ErrTrogon p x ∈ chain layer)
  /\ ((forall layer p x,
         err = Some layer -> ErrTrogon p x ∈ chain layer ->
         ¬ (domain x = targetDomain target /\ reason x = targetReason target)) ->
      As err target = (None, false))
  /\ (forall n layer,
        err = Some layer -> As (Some (wrapN n layer)) target = As err target)
  /\ (As err target = (None, false) \/ exists x, As err target = (Some x, true)).
Proof.
  assert (Hchar : As err target
    = match err ≫= (fun layer => head (omap (matchingLayer target) (chain layer))) with
      | Some x => (Some x, true)
      | None => (None, false)
      end).
  { destruct err as [layer|]; simpl; [apply As_walk_first_match|done]. }
  split; [exact Hchar|]. split; [|split; [|split]].
  - intros x Hx. rewrite Hchar in Hx.
    destruct err as [layer|]; simpl in Hx; [|discriminate].
    destruct (head _) as [y|] eqn:Hhead; [|discriminate].
    injection Hx as ->.
    apply head_Some_elem_of, list_elem_of_omap in Hhead as (l & Hl & Hmatch).
    apply matchingLayer_Some in Hmatch as [[p ->] [Hd Hr]].
    repeat split; eauto.
  - intros Hnone. rewrite Hchar.
    destruct err as [layer|]; simpl; [|done].
    destruct (head _) as [y|] eqn:Hhead; [|done].
    apply head_Some_elem_of, list_elem_of_omap in Hhead as (l & Hl & Hmatch).
    apply matchingLayer_Some in Hmatch as [[p ->] [Hd Hr]].
    exfalso. by eapply Hnone.
  - intros n layer ->. apply As_wrapN.
  - rewrite Hchar. destruct (err ≫= _); eauto.
Qed.

(** The package's tests: the matching error is found behind a wrapper; an
    error of another template is not found although it is a TrogonError. *)
Lemma As_returns_first_matching_layer_witness :
  As (Some wrappedInventoryError) (TargetTemplate inventoryTemplate)
  = (Some inventoryError, true)
  /\ As (Some (wrapN 3 (ErrTrogon true inventoryError))) (TargetTemplate inventoryTemplate)
     = (Some inventoryError, true)
  /\ As (Some (ErrTrogon true inventoryError)) (TargetTemplate usersTemplate)
     = (None, false).
Proof.
  split; [|split].
  - rewrite (proj1 (As_returns_first_matching_layer _ _)). reflexivity.
  - pose proof (As_returns_first_matching_layer (TargetTemplate inventoryTemplate)
                  (Some (ErrTrogon true inventoryError))) as (Hc & _ & _ & Hwrap & _).
    rewrite (Hwrap 3%nat _ eq_refl), Hc. reflexivity.
  - pose proof (As_returns_first_matching_layer (TargetTemplate usersTemplate)
                  (Some (ErrTrogon true inventoryError))) as (_ & _ & Hnone & _).
    apply Hnone. intros layer p x [= <-] Hin [Hd Hr].
    apply elem_of_cons in Hin as [Hin|Hin]; [|by apply elem_of_nil in Hin].
    injection Hin as _ ->. discriminate Hd.
Defined.

(** ** Copy-on-write on the store *)

Module HeapFacts.
Import Heap.

(** *** Rules for [wp] *)

Lemma wp_ret {A} (a : A) s (Q : A -> store -> Prop) : Q a s -> wp (mret a) s Q.
Proof. done. Qed.

Lemma wp_bind {A B} (m : M A) (f : A -> M B) s (Q : B -> store -> Prop) :
  wp m s (fun a s' => wp (f a) s' Q) -> wp (m ≫= f) s Q.
Proof.
  unfold wp, mbind, M_bind. destruct (m s) as [[a s']|]; done.
Qed.

Lemma wp_mono {A} (m : M A) s (Q Q' : A -> store -> Prop) :
  wp m s Q -> (forall a s', Q a s' -> Q' a s') -> wp m s Q'.
Proof.
  unfold wp. destruct (m s) as [[a s']|]; [|done]. eauto.
Qed.

Lemma wp_run {A} (m : M A) s (Q : A -> store -> Prop) :
  wp m s Q -> exists a s', m s = Some (a, s') /\ Q a s'.
Proof.
  unfold wp. destruct (m s) as [[a s']|]; [|done]. eauto.
Qed.

Lemma wp_alloc {A} (r : region A) (x : A) s (Q : loc -> store -> Prop) :
  Q (length (get r s)) (put r (get r s ++ [x]) s) -> wp (alloc r x) s Q.
Proof. done. Qed.

Lemma wp_load {A} (r : region A) (l : loc) (x : A) s (Q : A -> store -> Prop) :
  get r s !! l = Some x -> Q x s -> wp (load r l) s Q.
Proof. unfold wp, load. by intros ->. Qed.

Lemma wp_update {A} (r : region A) (l : loc) (x : A) s (Q : unit -> store -> Prop) :
  (l < length (get r s))%nat ->
  Q tt (put r (<[l:=x]> (get r s)) s) -> wp (update r l x) s Q.
Proof. unfold wp, update. intros Hl. by rewrite bool_decide_eq_true_2. Qed.

Lemma wp_assign (p : loc) (set : TrogonError -> TrogonError) (err : TrogonError) s
    (Q : unit -> store -> Prop) :
  errs s !! p = Some err ->
  Q tt (put errR (<[p := set err]> (errs s)) s) -> wp (assign p set) s Q.
Proof.
  intros Hp HQ. unfold assign. apply wp_bind.
  apply (wp_load errR p err); [done|].
  apply wp_update; [|done]. by eapply lookup_lt_Some.
Qed.

Lemma wp_forEach {A} (I : store -> Prop) (xs : list A) (body : A -> M unit) s :
  I s ->
  (forall x s', x ∈ xs -> I s' -> wp (body x) s' (fun _ s'' => I s'')) ->
  wp (forEach xs body) s (fun _ s' => I s').
Proof.
  revert s. induction xs as [|x xs IH]; intros s Hs Hbody; simpl.
  - by apply wp_ret.
  - apply wp_bind. eapply wp_mono.
    + apply Hbody; [by left|done].
    + intros [] s' Hs'. apply IH; [done|].
      intros y s'' Hy. apply Hbody. by right.
Qed.

(** *** Extension of the store *)

Lemma prefix_insert_fresh {A} (l0 l : list A) (i : nat) (x : A) :
  l0 `prefix_of` l -> (length l0 <= i)%nat -> l0 `prefix_of` <[i:=x]> l.
Proof.
  intros [k ->] Hi. rewrite insert_app_r_alt by done. by apply prefix_app_r.
Qed.

Lemma extends_refl s : extends s s.
Proof. by repeat split. Qed.

Lemma extends_lookup {A} (f : store -> list A) (l0 l : list A) (i : nat) (x : A) :
  l0 `prefix_of` l -> l0 !! i = Some x -> l !! i = Some x.
Proof. intros Hp Hx. by eapply prefix_lookup_Some. Qed.

(** *** The invariant under the primitive steps *)

Lemma valid_slice_preserved {A} (r : region (list A)) s s' sl :
  (forall l a, get r s !! l = Some a ->
     exists a', get r s' !! l = Some a' /\ length a' = length a) ->
  valid_slice r s sl -> valid_slice r s' sl.
Proof.
  intros Hr. destruct sl as [x|]; [|done]. intros (a & Ha & Hlen).
  destruct (Hr _ _ Ha) as (a' & Ha' & Hlen'). exists a'. split; [done|lia].
Qed.

Lemma own_fields_preserved s0 s s' err :
  preserves s s' -> own_fields s0 s err -> own_fields s0 s' err.
Proof.
  intros (He & Hh & Hd & Hm & Hl & Hf & Hc) (Hmap & Hcs & Hhelp & Hdbg).
  split; [|split; [|split]].
  - destruct Hmap as [Hfresh Hvalid]. split; [done|].
    destruct (metadata err); simpl in *; [lia|done].
  - destruct Hcs as [Hfresh Hvalid]. split; [done|].
    by apply (valid_slice_preserved causesR s s').
  - unfold own_help in *. destruct (help err) as [hp|]; [|done].
    destruct Hhelp as (Hfresh & hv & Hhv & Hfs & Hvs).
    split; [done|]. exists hv. split; [by apply Hh|]. split; [done|].
    by apply (valid_slice_preserved linksR s s').
  - unfold own_debug in *. destruct (debugInfo err) as [dp|]; [|done].
    destruct Hdbg as (Hfresh & dv & Hdv & Hfs & Hvs).
    split; [done|]. exists dv. split; [by apply Hd|]. split; [done|].
    by apply (valid_slice_preserved framesR s s').
Qed.

Lemma Inv_preserved s0 p s s' :
  preserves s s' -> extends s0 s' -> Inv s0 p s -> Inv s0 p s'.
Proof.
  intros Hp Hext (_ & Hfresh & err & Herr & Hown).
  split; [done|]. split; [done|]. exists err. split.
  - by apply Hp.
  - by eapply own_fields_preserved.
Qed.

Lemma lookup_snoc_Some {A} (l : list A) (x y : A) (i : nat) :
  l !! i = Some y -> (l ++ [x]) !! i = Some y.
Proof. apply lookup_app_l_Some. Qed.

Lemma lookup_insert_same_length {A} (l : list (list A)) (i j : nat) (a a' b : list A) :
  l !! i = Some a -> length a' = length a ->
  l !! j = Some b ->
  exists b', <[i:=a']> l !! j = Some b' /\ length b' = length b.
Proof.
  intros Hi Hlen Hj. destruct (decide (i = j)) as [->|Hne].
  - exists a'. split; [|congruence].
    apply list_lookup_insert_eq. by eapply lookup_lt_Some.
  - exists b. by rewrite list_lookup_insert_ne.
Qed.

Ltac preserves_tac :=
  unfold preserves; simpl;
  repeat split; intros; eauto using lookup_snoc_Some, lookup_insert_same_length;
  rewrite ?length_app, ?length_insert; try lia.

Lemma preserves_alloc_map s x : preserves s (put mapR (maps s ++ [x]) s).
Proof. preserves_tac. Qed.
Lemma preserves_alloc_links s x : preserves s (put linksR (linkArrays s ++ [x]) s).
Proof. preserves_tac. Qed.
Lemma preserves_alloc_frames s x : preserves s (put framesR (frameArrays s ++ [x]) s).
Proof. preserves_tac. Qed.
Lemma preserves_alloc_causes s x : preserves s (put causesR (causeArrays s ++ [x]) s).
Proof. preserves_tac. Qed.
Lemma preserves_alloc_help s x : preserves s (put helpR (helps s ++ [x]) s).
Proof. preserves_tac. Qed.
Lemma preserves_alloc_debug s x : preserves s (put debugR (debugs s ++ [x]) s).
Proof. preserves_tac. Qed.

Lemma preserves_update_map s l x : preserves s (put mapR (<[l:=x]> (maps s)) s).
Proof. preserves_tac. Qed.
Lemma preserves_update_links s l a a' :
  linkArrays s !! l = Some a -> length a' = length a ->
  preserves s (put linksR (<[l:=a']> (linkArrays s)) s).
Proof. preserves_tac. Qed.
Lemma preserves_update_frames s l a a' :
  frameArrays s !! l = Some a -> length a' = length a ->
  preserves s (put framesR (<[l:=a']> (frameArrays s)) s).
Proof. preserves_tac. Qed.
Lemma preserves_update_causes s l a a' :
  causeArrays s !! l = Some a -> length a' = length a ->
  preserves s (put causesR (<[l:=a']> (causeArrays s)) s).
Proof. preserves_tac. Qed.

Ltac extends_tac :=
  unfold extends in *; simpl;
  repeat match goal with H : _ /\ _ |- _ => destruct H end;
  repeat split; eauto using prefix_app_r, prefix_insert_fresh.

Lemma wp_make_map s (Q : option loc -> store -> Prop) :
  Q (Some (length (maps s))) (put mapR (maps s ++ [∅]) s) -> wp make_map s Q.
Proof. done. Qed.

Lemma wp_map_len s m (Q : nat -> store -> Prop) :
  valid_map s m ->
  (forall n, (m = None -> n = 0%nat) -> Q n s) ->
  wp (map_len m) s Q.
Proof.
  intros Hm HQ. destruct m as [p|]; simpl.
  - simpl in Hm. apply lookup_lt_is_Some_2 in Hm as [md Hmd].
    apply wp_bind. apply (wp_load mapR p md); [done|].
    apply wp_ret. apply HQ. done.
  - apply wp_ret. by apply HQ.
Qed.

(** Assigning the struct of the clone. *)
Lemma Inv_assign s0 p s err' :
  Inv s0 p s -> own_fields s0 s err' ->
  Inv s0 p (put errR (<[p := err']> (errs s)) s).
Proof.
  intros (Hext & Hfresh & err & Herr & _) Hown.
  split; [extends_tac|]. split; [done|]. exists err'. split; [|done].
  simpl. apply list_lookup_insert_eq. by eapply lookup_lt_Some.
Qed.

(** Writing to a map the clone owns. *)
Lemma wp_map_assign_owned s0 p s m k v :
  Inv s0 p s -> (length (maps s0) <= m)%nat -> (m < length (maps s))%nat ->
  wp (map_assign (Some m) k v) s
     (fun _ s' => Inv s0 p s' /\ (m < length (maps s'))%nat).
Proof.
  intros HI Hfresh Hm. simpl.
  destruct (lookup_lt_is_Some_2 _ _ Hm) as [md Hmd].
  apply wp_bind. apply (wp_load mapR m md); [done|].
  apply wp_update; [done|]. split.
  - eapply Inv_preserved; [apply preserves_update_map| |done].
    destruct HI as [Hext _]. extends_tac.
  - simpl. by rewrite length_insert.
Qed.

Lemma wp_forEach_map_assign s0 p s m (entries : list (string * MetadataValue)) :
  Inv s0 p s -> (length (maps s0) <= m)%nat -> (m < length (maps s))%nat ->
  wp (forEach entries (fun kv => map_assign (Some m) kv.1 kv.2)) s
     (fun _ s' => Inv s0 p s').
Proof.
  intros HI Hfresh Hm.
  eapply wp_mono.
  - apply (wp_forEach (fun s' => Inv s0 p s' /\ (m < length (maps s'))%nat)); [done|].
    intros [k v] s' _ [HI' Hm']. simpl. by apply wp_map_assign_owned.
  - by intros [] s' [? _].
Qed.

(** *** Slices *)

Lemma wp_make_slice {A} (r : region (list A)) (zero : A) (n : nat) s
    (Q : option slice -> store -> Prop) :
  Q (Some (mkSlice (length (get r s)) n)) (put r (get r s ++ [replicate n zero]) s) ->
  wp (make_slice r zero n) s Q.
Proof. done. Qed.

Lemma read_slice_valid {A} (r : region (list A)) s sl :
  valid_slice r s sl -> exists xs, read_slice r s sl = Some xs /\ length xs = slice_len sl.
Proof.
  destruct sl as [x|]; simpl.
  - intros (a & -> & Hlen). exists (take (len x) a). split; [done|].
    rewrite length_take. lia.
  - intros _. by exists [].
Qed.

Lemma wp_slice_elems {A} (r : region (list A)) s sl xs (Q : list A -> store -> Prop) :
  read_slice r s sl = Some xs -> Q xs s -> wp (slice_elems r sl) s Q.
Proof.
  destruct sl as [x|]; simpl.
  - destruct (get r s !! arr x) as [a|] eqn:Ha; [|done]. intros [= <-] HQ.
    apply wp_bind. apply (wp_load r (arr x) a); [done|]. by apply wp_ret.
  - intros [= <-] HQ. by apply wp_ret.
Qed.

Lemma wp_copy_slice {A} (r : region (list A)) (d : slice) src s xs a
    (Q : unit -> store -> Prop) :
  read_slice r s src = Some xs ->
  get r s !! arr d = Some a ->
  Q tt (put r (<[arr d := take (len d `min` length xs) xs
                          ++ drop (len d `min` length xs) a]> (get r s)) s) ->
  wp (copy_slice r (Some d) src) s Q.
Proof.
  intros Hxs Ha HQ. unfold copy_slice. apply wp_bind.
  apply (wp_slice_elems r s src xs); [done|].
  apply wp_bind. apply (wp_load r (arr d) a); [done|].
  apply wp_update; [by eapply lookup_lt_Some|done].
Qed.

Lemma length_copied {A} (xs a : list A) (n : nat) :
  (n <= length a)%nat ->
  length (take (n `min` length xs) xs ++ drop (n `min` length xs) a) = length a.
Proof. intros Hn. rewrite length_app, length_take, length_drop. lia. Qed.

Lemma insert_snoc {A} (X : list A) (a a' : A) : <[length X := a']> (X ++ [a]) = X ++ [a'].
Proof. by rewrite insert_app_r_alt, Nat.sub_diag by lia. Qed.

Lemma lookup_snoc {A} (X : list A) (a : A) : (X ++ [a]) !! length X = Some a.
Proof. by rewrite lookup_app_r, Nat.sub_diag by lia. Qed.

Lemma copied_replicate {A} (xs : list A) (zero : A) (n : nat) :
  length xs = n ->
  take (n `min` length xs) xs ++ drop (n `min` length xs) (replicate n zero) = xs.
Proof.
  intros <-. rewrite Nat.min_id, firstn_all, drop_replicate, Nat.sub_diag.
  apply app_nil_r.
Qed.

Lemma extends_length s0 s :
  extends s0 s ->
  (length (errs s0) <= length (errs s))%nat
  /\ (length (maps s0) <= length (maps s))%nat
  /\ (length (helps s0) <= length (helps s))%nat
  /\ (length (debugs s0) <= length (debugs s))%nat
  /\ (length (linkArrays s0) <= length (linkArrays s))%nat
  /\ (length (frameArrays s0) <= length (frameArrays s))%nat
  /\ (length (causeArrays s0) <= length (causeArrays s))%nat.
Proof. intros (?&?&?&?&?&?&?). repeat split; by apply prefix_length. Qed.

(** Cloning the links of a [Help] yields a slice the clone may own. *)
Lemma wp_Help_copy s0 p s h :
  Inv s0 p s -> valid_slice linksR s (links h) ->
  wp (Help_copy h) s
     (fun h' s' => Inv s0 p s' /\ own_slice linksR s0 s' (links h')).
Proof.
  intros HI Hvalid. unfold Help_copy. case_bool_decide as Hn.
  - apply wp_ret. split; [done|]. by split.
  - destruct (read_slice_valid linksR s (links h) Hvalid) as (xs & Hxs & Hlen).
    pose proof (extends_length _ _ (proj1 HI)) as (_&_&_&_&Hl&_&_).
    apply wp_bind, wp_make_slice. apply wp_bind.
    eapply (wp_copy_slice linksR _ _ _ xs).
    + destruct (links h) as [x|]; [|done]. simpl in *.
      destruct Hvalid as (a & Ha & _). rewrite Ha in Hxs.
      by rewrite (lookup_snoc_Some _ _ _ _ Ha).
    + simpl. apply lookup_snoc.
    + apply wp_ret. simpl. rewrite insert_snoc, copied_replicate by done.
      split.
      * eapply Inv_preserved; [apply preserves_alloc_links| |done].
        destruct HI as [Hext _]. extends_tac.
      * split; simpl; [done|]. exists xs. rewrite lookup_snoc. split; [done|lia].
Qed.

Lemma wp_DebugInfo_copy s0 p s d :
  Inv s0 p s -> valid_slice framesR s (stackFrames d) ->
  wp (DebugInfo_copy d) s
     (fun d' s' => Inv s0 p s' /\ own_slice framesR s0 s' (stackFrames d')).
Proof.
  intros HI Hvalid. unfold DebugInfo_copy. case_bool_decide as Hn.
  - apply wp_ret. split; [done|]. by split.
  - destruct (read_slice_valid framesR s (stackFrames d) Hvalid) as (xs & Hxs & Hlen).
    pose proof (extends_length _ _ (proj1 HI)) as (_&_&_&_&_&Hl&_).
    apply wp_bind, wp_make_slice. apply wp_bind.
    eapply (wp_copy_slice framesR _ _ _ xs).
    + destruct (stackFrames d) as [x|]; [|done]. simpl in *.
      destruct Hvalid as (a & Ha & _). rewrite Ha in Hxs.
      by rewrite (lookup_snoc_Some _ _ _ _ Ha).
    + simpl. apply lookup_snoc.
    + apply wp_ret. simpl. rewrite insert_snoc, copied_replicate by done.
      split.
      * eapply Inv_preserved; [apply preserves_alloc_frames| |done].
        destruct HI as [Hext _]. extends_tac.
      * split; simpl; [done|]. exists xs. rewrite lookup_snoc. split; [done|lia].
Qed.

(** *** What was valid stays valid as the store grows *)

Lemma valid_slice_extends {A} (r : region (list A)) s0 s sl :
  get r s0 `prefix_of` get r s -> valid_slice r s0 sl -> valid_slice r s sl.
Proof.
  intros Hp. destruct sl as [x|]; [|done]. intros (a & Ha & Hlen).
  exists a. split; [by eapply prefix_lookup_Some|done].
Qed.

Lemma valid_map_extends s0 s m : extends s0 s -> valid_map s0 m -> valid_map s m.
Proof.
  intros Hext. destruct m as [q|]; [|done]. simpl.
  pose proof (extends_length _ _ Hext) as (_&?&_). lia.
Qed.

(** *** The invariant, step by step *)

Lemma Inv_extends s0 p s : Inv s0 p s -> extends s0 s.
Proof. by intros [? _]. Qed.

Lemma Inv_struct s0 p s err :
  Inv s0 p s -> errs s !! p = Some err -> own_fields s0 s err.
Proof. intros (_ & _ & err' & Herr' & Hown) Herr. congruence. Qed.

Ltac inv_alloc lem :=
  intros HI; eapply Inv_preserved; [apply lem| |done];
  apply Inv_extends in HI; extends_tac.

Lemma Inv_alloc_map s0 p s x : Inv s0 p s -> Inv s0 p (put mapR (maps s ++ [x]) s).
Proof. inv_alloc preserves_alloc_map. Qed.
Lemma Inv_alloc_links s0 p s x : Inv s0 p s -> Inv s0 p (put linksR (linkArrays s ++ [x]) s).
Proof. inv_alloc preserves_alloc_links. Qed.
Lemma Inv_alloc_frames s0 p s x : Inv s0 p s -> Inv s0 p (put framesR (frameArrays s ++ [x]) s).
Proof. inv_alloc preserves_alloc_frames. Qed.
Lemma Inv_alloc_causes s0 p s x : Inv s0 p s -> Inv s0 p (put causesR (causeArrays s ++ [x]) s).
Proof. inv_alloc preserves_alloc_causes. Qed.
Lemma Inv_alloc_help s0 p s x : Inv s0 p s -> Inv s0 p (put helpR (helps s ++ [x]) s).
Proof. inv_alloc preserves_alloc_help. Qed.
Lemma Inv_alloc_debug s0 p s x : Inv s0 p s -> Inv s0 p (put debugR (debugs s ++ [x]) s).
Proof. inv_alloc preserves_alloc_debug. Qed.

Lemma Inv_update_map s0 p s m x :
  Inv s0 p s -> (length (maps s0) <= m)%nat ->
  Inv s0 p (put mapR (<[m:=x]> (maps s)) s).
Proof.
  intros HI Hm. eapply Inv_preserved; [apply preserves_update_map| |done].
  apply Inv_extends in HI. extends_tac.
Qed.

Lemma Inv_update_links s0 p s l a a' :
  Inv s0 p s -> (length (linkArrays s0) <= l)%nat ->
  linkArrays s !! l = Some a -> length a' = length a ->
  Inv s0 p (put linksR (<[l:=a']> (linkArrays s)) s).
Proof.
  intros HI Hl Ha Hlen. eapply Inv_preserved; [by eapply preserves_update_links| |done].
  apply Inv_extends in HI. extends_tac.
Qed.

Lemma Inv_update_causes s0 p s l a a' :
  Inv s0 p s -> (length (causeArrays s0) <= l)%nat ->
  causeArrays s !! l = Some a -> length a' = length a ->
  Inv s0 p (put causesR (<[l:=a']> (causeArrays s)) s).
Proof.
  intros HI Hl Ha Hlen. eapply Inv_preserved; [by eapply preserves_update_causes| |done].
  apply Inv_extends in HI. extends_tac.
Qed.

(** Assigning a field of the clone. *)
Lemma Inv_set s0 p s err (set : TrogonError -> TrogonError) :
  Inv s0 p s -> errs s !! p = Some err ->
  own_fields s0 s (set err) ->
  Inv s0 p (put errR (<[p := set err]> (errs s)) s).
Proof.
  intros HI Herr Hown. split; [|split].
  - apply Inv_extends in HI as Hext. destruct HI as (_ & Hp & _). extends_tac.
  - by destruct HI as (_ & Hp & _).
  - exists (set err). split; [|done].
    simpl. apply list_lookup_insert_eq. by eapply lookup_lt_Some.
Qed.

Lemma wp_assign_Inv s0 p s err (set : TrogonError -> TrogonError) :
  Inv s0 p s -> errs s !! p = Some err ->
  own_fields s0 s (set err) ->
  wp (assign p set) s
     (fun _ s' => Inv s0 p s' /\ s' = put errR (<[p := set err]> (errs s)) s).
Proof.
  intros HI Herr Hown. apply (wp_assign _ _ err); [done|].
  split; [by apply Inv_set|done].
Qed.

(** *** The blocks of [copy] *)

Lemma Inv_lookup s0 p s :
  Inv s0 p s -> exists err, errs s !! p = Some err /\ own_fields s0 s err.
Proof. by intros (_ & _ & H). Qed.

Lemma wp_copy_metadata s0 p s msrc n :
  Inv s0 p s -> valid_map s0 msrc ->
  wp (if bool_decide (0 < n)%nat then
        m ← make_map;
        assign p (set_metadata m);;
        entries ← map_range msrc;
        forEach entries (fun kv => map_assign m kv.1 kv.2)
      else mret tt) s
     (fun _ s' => Inv s0 p s').
Proof.
  intros HI Hsrc. case_bool_decide; [|by apply wp_ret].
  pose proof (extends_length _ _ (Inv_extends _ _ _ HI)) as (_&Hm&_).
  destruct (Inv_lookup _ _ _ HI) as (err & Herr & _).
  apply wp_bind, wp_make_map. apply wp_bind.
  pose proof (Inv_alloc_map _ _ _ ∅ HI) as HI1.
  eapply wp_mono.
  { apply (wp_assign_Inv s0 p _ err (set_metadata (Some (length (maps s))))); [done|done|].
    destruct (Inv_struct _ _ _ err HI1 Herr) as (_ & Hcs & Hhelp & Hdbg).
    split; [|done]. split; simpl; [done|]. rewrite length_app. simpl. lia. }
  intros [] s2 [HI2 ->]. apply wp_bind.
  assert (Hlen : (length (maps s) < length (maps (put errR
            (<[p:=set_metadata (Some (length (maps s))) err]> (errs (put mapR (maps s ++ [∅]) s)))
            (put mapR (maps s ++ [∅]) s))))%nat).
  { simpl. rewrite length_app. simpl. lia. }
  destruct msrc as [q|]; simpl.
  - simpl in Hsrc.
    assert (is_Some ((maps s ++ [∅]) !! q)) as [md Hmd].
    { apply lookup_lt_is_Some_2. rewrite length_app. simpl. lia. }
    apply wp_bind. apply (wp_load mapR q md); [done|]. apply wp_ret.
    by apply wp_forEach_map_assign.
  - apply wp_ret. by apply wp_forEach_map_assign.
Qed.

Lemma wp_copy_causes s0 p s csrc :
  Inv s0 p s -> valid_slice causesR s0 csrc ->
  wp (if bool_decide (0 < slice_len csrc)%nat then
        cs ← make_slice causesR zeroCause (slice_len csrc);
        assign p (set_causes cs);;
        copy_slice causesR cs csrc
      else mret tt) s
     (fun _ s' => Inv s0 p s').
Proof.
  intros HI Hsrc. case_bool_decide; [|by apply wp_ret].
  pose proof (Inv_extends _ _ _ HI) as Hext.
  pose proof (extends_length _ _ Hext) as (_&_&_&_&_&_&Hc).
  destruct (Inv_lookup _ _ _ HI) as (err & Herr & _).
  apply wp_bind, wp_make_slice. apply wp_bind.
  pose proof (Inv_alloc_causes _ _ _ (replicate (slice_len csrc) zeroCause) HI) as HI1.
  eapply wp_mono.
  { apply (wp_assign_Inv s0 p _ err
             (set_causes (Some (mkSlice (length (causeArrays s)) (slice_len csrc)))));
      [done|done|].
    destruct (Inv_struct _ _ _ err HI1 Herr) as (Hmap & _ & Hhelp & Hdbg).
    split; [done|]. split; [|done]. split; simpl; [done|].
    exists (replicate (slice_len csrc) zeroCause).
    rewrite lookup_snoc, length_replicate. done. }
  intros [] s2 [HI2 ->].
  assert (Hsrc2 : valid_slice causesR (put causesR
            (causeArrays s ++ [replicate (slice_len csrc) zeroCause]) s) csrc).
  { apply (valid_slice_extends causesR s0); [|done]. simpl.
    apply prefix_app_r. by destruct Hext as (_&_&_&_&_&_&?). }
  destruct (read_slice_valid causesR _ _ Hsrc2) as (xs & Hxs & Hlen).
  eapply (wp_copy_slice causesR _ _ _ xs).
  - exact Hxs.
  - simpl. apply lookup_snoc.
  - eapply Inv_update_causes; [done|simpl; lia|simpl; apply lookup_snoc|].
    apply length_copied. simpl. by rewrite length_replicate.
Qed.

Lemma wp_copy_help s0 p s hsrc :
  Inv s0 p s -> valid_help s0 hsrc ->
  wp (match hsrc with
      | Some hp =>
          h ← load helpR hp;
          helpCopy ← Help_copy h;
          hp' ← alloc helpR helpCopy;
          assign p (set_help (Some hp'))
      | None => mret tt
      end) s
     (fun _ s' => Inv s0 p s').
Proof.
  intros HI Hsrc. destruct hsrc as [hp|]; [|by apply wp_ret].
  pose proof (Inv_extends _ _ _ HI) as Hext.
  destruct Hsrc as (hv & Hhv & Hlinks).
  assert (Hhv' : helps s !! hp = Some hv).
  { destruct Hext as (_&_&?&_). by eapply prefix_lookup_Some. }
  assert (Hlinks' : valid_slice linksR s (links hv)).
  { apply (valid_slice_extends linksR s0); [|done]. by destruct Hext as (_&_&_&_&?&_). }
  apply wp_bind. apply (wp_load helpR hp hv); [done|].
  apply wp_bind. eapply wp_mono; [by apply (wp_Help_copy s0 p)|].
  intros helpCopy s1 [HI1 Hown1].
  pose proof (extends_length _ _ (Inv_extends _ _ _ HI1)) as (_&_&Hh&_).
  destruct (Inv_lookup _ _ _ HI1) as (err & Herr & _).
  apply wp_bind, wp_alloc.
  pose proof (Inv_alloc_help _ _ _ helpCopy HI1) as HI2.
  eapply wp_mono.
  { apply (wp_assign_Inv s0 p _ err (set_help (Some (length (helps s1))))); [done|done|].
    destruct (Inv_struct _ _ _ err HI2 Herr) as (Hmap & Hcs & _ & Hdbg).
    split; [done|]. split; [done|]. split; [|done].
    simpl. split; [done|]. exists helpCopy. split; [apply lookup_snoc|done]. }
  by intros [] s3 [HI3 _].
Qed.

Lemma wp_copy_debug s0 p s dsrc :
  Inv s0 p s -> valid_debug s0 dsrc ->
  wp (match dsrc with
      | Some dp =>
          d ← load debugR dp;
          debugInfoCopy ← DebugInfo_copy d;
          dp' ← alloc debugR debugInfoCopy;
          assign p (set_debugInfo (Some dp'))
      | None => mret tt
      end) s
     (fun _ s' => Inv s0 p s').
Proof.
  intros HI Hsrc. destruct dsrc as [dp|]; [|by apply wp_ret].
  pose proof (Inv_extends _ _ _ HI) as Hext.
  destruct Hsrc as (dv & Hdv & Hframes).
  assert (Hdv' : debugs s !! dp = Some dv).
  { destruct Hext as (_&_&_&?&_). by eapply prefix_lookup_Some. }
  assert (Hframes' : valid_slice framesR s (stackFrames dv)).
  { apply (valid_slice_extends framesR s0); [|done]. by destruct Hext as (_&_&_&_&_&?&_). }
  apply wp_bind. apply (wp_load debugR dp dv); [done|].
  apply wp_bind. eapply wp_mono; [by apply (wp_DebugInfo_copy s0 p)|].
  intros debugCopy s1 [HI1 Hown1].
  pose proof (extends_length _ _ (Inv_extends _ _ _ HI1)) as (_&_&_&Hd&_).
  destruct (Inv_lookup _ _ _ HI1) as (err & Herr & _).
  apply wp_bind, wp_alloc.
  pose proof (Inv_alloc_debug _ _ _ debugCopy HI1) as HI2.
  eapply wp_mono.
  { apply (wp_assign_Inv s0 p _ err (set_debugInfo (Some (length (debugs s1))))); [done|done|].
    destruct (Inv_struct _ _ _ err HI2 Herr) as (Hmap & Hcs & Hhelp & _).
    split; [done|]. split; [done|]. split; [done|].
    simpl. split; [done|]. exists debugCopy. split; [apply lookup_snoc|done]. }
  by intros [] s3 [HI3 _].
Qed.

(** [copy] returns a new error that owns everything it refers to, and
    writes to nothing that existed. *)
Lemma wp_copy s0 e :
  valid_err s0 e -> wp (copy e) s0 (fun p s => Inv s0 p s).
Proof.
  intros (src & Hsrc & Hmap & Hcs & Hhelp & Hdbg). unfold copy.
  apply wp_bind. apply (wp_load errR e src); [done|].
  apply wp_bind, wp_alloc.
  set (p := length (get errR s0)). set (s1 := put errR _ s0).
  assert (HI1 : Inv s0 p s1).
  { split; [|split].
    - subst s1. pose proof (extends_refl s0). extends_tac.
    - done.
    - eexists. split; [apply lookup_snoc|]. by repeat split. }
  clearbody s1.
  apply wp_bind. apply wp_map_len.
  { eapply valid_map_extends; [by eapply Inv_extends|done]. }
  intros n _. apply wp_bind.
  eapply wp_mono; [by apply wp_copy_metadata|]. intros [] s2 HI2.
  apply wp_bind.
  eapply wp_mono; [by apply wp_copy_causes|]. intros [] s3 HI3.
  apply wp_bind.
  eapply wp_mono; [by apply wp_copy_help|]. intros [] s4 HI4.
  apply wp_bind.
  eapply wp_mono; [by apply wp_copy_debug|]. intros [] s5 HI5.
  by apply wp_ret.
Qed.

(** *** The change options *)

Section ChangeFacts.
Context {rt : GoRuntime}.

(** [append] to the links the clone owns: in place only in an array the
    clone owns, otherwise into a new array. *)
Lemma wp_append_links s0 p s sl x :
  Inv s0 p s -> own_slice linksR s0 s sl ->
  wp (append linksR zeroLink sl x) s
     (fun sl' s' =>
        Inv s0 p s' /\ own_slice linksR s0 s' sl'
        /\ errs s' = errs s /\ helps s' = helps s).
Proof.
  intros HI [Hfresh Hvalid]. unfold append.
  pose proof (extends_length _ _ (Inv_extends _ _ _ HI)) as (_&_&_&_&Hl&_&_).
  destruct sl as [x0|].
  - destruct Hvalid as (a & Ha & Hlen). simpl in Hfresh.
    apply wp_bind. apply (wp_load linksR (arr x0) a); [done|].
    case_bool_decide as Hroom.
    + apply wp_bind. apply wp_update; [by eapply lookup_lt_Some|]. apply wp_ret.
      split; [|split; [|done]].
      * eapply Inv_update_links; [done|done|done|]. by rewrite length_insert.
      * split; simpl; [done|]. exists (<[len x0:=x]> a). split.
        -- apply list_lookup_insert_eq. by eapply lookup_lt_Some.
        -- rewrite length_insert. lia.
    + apply wp_bind, wp_alloc. apply wp_ret.
      split; [by apply Inv_alloc_links|]. split; [|done].
      split; simpl; [done|]. eexists. split; [apply lookup_snoc|].
      rewrite !length_app. simpl. lia.
  - apply wp_bind, wp_alloc. apply wp_ret.
    split; [by apply Inv_alloc_links|]. split; [|done].
    split; simpl; [done|]. eexists. split; [apply lookup_snoc|].
    simpl. lia.
Qed.

Lemma wp_addHelpLink s0 p s description url :
  Inv s0 p s ->
  wp (addHelpLink p description url) s (fun _ s' => Inv s0 p s').
Proof.
  intros HI. unfold addHelpLink.
  destruct (Inv_lookup _ _ _ HI) as (err & Herr & Hown).
  pose proof (extends_length _ _ (Inv_extends _ _ _ HI)) as (_&_&Hh&_).
  apply wp_bind. apply (wp_load errR p err); [done|].
  apply wp_bind.
  (* after the first statement the clone has a help it owns *)
  eapply (wp_mono _ _ (fun _ s1 =>
            Inv s0 p s1 /\ exists err1 hp, errs s1 !! p = Some err1 /\ help err1 = Some hp)).
  { destruct (help err) as [hp|] eqn:Hhelp.
    - apply wp_ret. split; [done|]. eauto.
    - apply wp_bind, wp_alloc.
      pose proof (Inv_alloc_help _ _ _ (mkHelp None) HI) as HI1.
      eapply wp_mono.
      { apply (wp_assign_Inv s0 p _ err (set_help (Some (length (helps s))))); [done|done|].
        destruct (Inv_struct _ _ _ err HI1 Herr) as (Hmap & Hcs & _ & Hdbg).
        split; [done|]. split; [done|]. split; [|done].
        simpl. split; [done|]. exists (mkHelp None). split; [apply lookup_snoc|].
        by split. }
      intros [] s2 [HI2 ->]. split; [done|].
      exists (set_help (Some (length (helps s))) err), (length (helps s)).
      split; [|done]. simpl. apply list_lookup_insert_eq. by eapply lookup_lt_Some. }
  intros [] s1 (HI1 & err1 & hp & Herr1 & Hhelp1).
  apply wp_bind. apply (wp_load errR p err1); [done|]. rewrite Hhelp1.
  pose proof (Inv_struct _ _ _ err1 HI1 Herr1) as (Hmap & Hcs & Hhelp & Hdbg).
  unfold own_help in Hhelp. rewrite Hhelp1 in Hhelp.
  destruct Hhelp as (Hfresh & hv & Hhv & Hlinks).
  apply wp_bind. apply (wp_load helpR hp hv); [done|].
  apply wp_bind. eapply wp_mono; [by apply (wp_append_links s0 p)|].
  intros newLinks s2 (HI2 & Hown2 & Herrs2 & Hhelps2).
  apply wp_update; [simpl; rewrite Hhelps2; by eapply lookup_lt_Some|].
  (* the help object of the clone now holds the new slice *)
  destruct HI2 as (Hext2 & Hp2 & err2 & Herr2 & Hown_2).
  assert (err2 = err1) as -> by (rewrite Herrs2 in Herr2; congruence).
  split; [|split; [done|]].
  - extends_tac.
  - exists err1. split; [done|].
    destruct Hown_2 as (Hmap2 & Hcs2 & Hhelp2 & Hdbg2).
    split; [done|]. split; [done|]. split; [|done].
    unfold own_help. rewrite Hhelp1. split; [done|].
    exists (mkHelp newLinks). split; [|done].
    simpl. apply list_lookup_insert_eq. rewrite Hhelps2. by eapply lookup_lt_Some.
Qed.

Lemma wp_addMetadataValue s0 p s vis key val :
  Inv s0 p s ->
  wp (addMetadataValue p vis key val) s (fun _ s' => Inv s0 p s').
Proof.
  intros HI. unfold addMetadataValue.
  destruct (Inv_lookup _ _ _ HI) as (err & Herr & Hown).
  pose proof (extends_length _ _ (Inv_extends _ _ _ HI)) as (_&Hm&_).
  apply wp_bind. apply (wp_load errR p err); [done|].
  apply wp_bind. apply wp_map_len; [by destruct Hown as [[_ ?] _]|].
  intros n Hn. apply wp_bind.
  (* after the first statement the clone has a map it owns *)
  eapply (wp_mono _ _ (fun _ s1 =>
            Inv s0 p s1 /\ exists err1 m, errs s1 !! p = Some err1 /\ metadata err1 = Some m)).
  { case_bool_decide as Hz.
    - apply wp_bind, wp_make_map.
      pose proof (Inv_alloc_map _ _ _ ∅ HI) as HI1.
      eapply wp_mono.
      { apply (wp_assign_Inv s0 p _ err (set_metadata (Some (length (maps s))))); [done|done|].
        destruct (Inv_struct _ _ _ err HI1 Herr) as (_ & Hcs & Hhelp & Hdbg).
        split; [|done]. split; simpl; [done|]. rewrite length_app. simpl. lia. }
      intros [] s2 [HI2 ->]. split; [done|].
      exists (set_metadata (Some (length (maps s))) err), (length (maps s)).
      split; [|done]. simpl. apply list_lookup_insert_eq. by eapply lookup_lt_Some.
    - apply wp_ret. split; [done|]. exists err.
      destruct (metadata err) as [m|] eqn:Hmeta; [eauto|]. by specialize (Hn eq_refl). }
  intros [] s1 (HI1 & err1 & m & Herr1 & Hmeta1).
  apply wp_bind. apply (wp_load errR p err1); [done|]. rewrite Hmeta1.
  pose proof (Inv_struct _ _ _ err1 HI1 Herr1) as ([Hfresh Hvalid] & _).
  rewrite Hmeta1 in Hfresh, Hvalid. simpl in Hfresh, Hvalid.
  eapply wp_mono; [by apply (wp_map_assign_owned s0 p)|].
  by intros [] s2 [HI2 _].
Qed.

Lemma wp_assign_scalar s0 p s (set : TrogonError -> TrogonError) :
  (forall err, metadata (set err) = metadata err /\ causes (set err) = causes err
               /\ help (set err) = help err /\ debugInfo (set err) = debugInfo err) ->
  Inv s0 p s ->
  wp (assign p set) s (fun _ s' => Inv s0 p s').
Proof.
  intros Hset HI. destruct (Inv_lookup _ _ _ HI) as (err & Herr & Hown).
  eapply wp_mono.
  - apply (wp_assign_Inv s0 p s err set); [done|done|].
    destruct (Hset err) as (Hm & Hc & Hh & Hd).
    unfold own_fields. by rewrite Hm, Hc, Hh, Hd.
  - by intros [] s' [? _].
Qed.

Lemma wp_applyChange s0 p s change :
  Inv s0 p s -> valid_change s0 change ->
  wp (applyChange change p) s (fun _ s' => Inv s0 p s').
Proof.
  intros HI Hvalid.
  destruct change as [msrc| | | | | | | | | | ]; simpl;
    try (apply wp_assign_scalar; [done|done]);
    try (by apply wp_addMetadataValue);
    try (by apply wp_addHelpLink).
  (* WithChangeMetadata *)
  destruct (Inv_lookup _ _ _ HI) as (err & Herr & Hown).
  pose proof (extends_length _ _ (Inv_extends _ _ _ HI)) as (_&Hm&_).
  apply wp_bind, wp_make_map. apply wp_bind.
  pose proof (Inv_alloc_map _ _ _ ∅ HI) as HI1.
  eapply wp_mono.
  { apply (wp_assign_Inv s0 p _ err (set_metadata (Some (length (maps s))))); [done|done|].
    destruct (Inv_struct _ _ _ err HI1 Herr) as (_ & Hcs & Hhelp & Hdbg).
    split; [|done]. split; simpl; [done|]. rewrite length_app. simpl. lia. }
  intros [] s2 [HI2 ->].
  apply wp_bind. eapply (wp_load errR p).
  { simpl. apply list_lookup_insert_eq. by eapply lookup_lt_Some. }
  cbn [metadata set_metadata]. unfold maps_Copy. apply wp_bind.
  assert (Hlen : (length (maps s) < length (maps (put errR
            (<[p:=set_metadata (Some (length (maps s))) err]> (errs (put mapR (maps s ++ [∅]) s)))
            (put mapR (maps s ++ [∅]) s))))%nat).
  { simpl. rewrite length_app. simpl. lia. }
  destruct msrc as [q|]; simpl.
  - simpl in Hvalid.
    assert (is_Some ((maps s ++ [∅]) !! q)) as [md Hmd].
    { apply lookup_lt_is_Some_2. rewrite length_app. simpl. lia. }
    apply wp_bind. apply (wp_load mapR q md); [done|]. apply wp_ret.
    by apply wp_forEach_map_assign.
  - apply wp_ret. by apply wp_forEach_map_assign.
Qed.

(** The change options run on the clone without a panic and keep it
    apart from the store [copy] started from. *)
Lemma wp_changes s0 p s changes :
  Inv s0 p s -> Forall (valid_change s0) changes ->
  wp (forEach changes (fun change => applyChange change p)) s
     (fun _ s' => Inv s0 p s').
Proof.
  intros HI Hchanges.
  apply (wp_forEach (fun s => Inv s0 p s)); [done|].
  intros change s' Hin HI'. apply wp_applyChange; [done|].
  by eapply Forall_forall in Hchanges.
Qed.

(** [WithChanges] runs without a panic; the store it leaves extends the
    store it started from, and the error it returns, with all it refers
    to, is new. *)
Lemma wp_WithChanges s0 e changes :
  valid_err s0 e -> Forall (valid_change s0) changes ->
  wp (WithChanges e changes) s0 (fun p s => Inv s0 p s).
Proof.
  intros He Hchanges. unfold WithChanges.
  apply wp_bind. eapply wp_mono; [by apply wp_copy|].
  intros p s1 HI1. apply wp_bind.
  eapply wp_mono; [by apply wp_changes|].
  intros [] s2 HI2. by apply wp_ret.
Qed.

End ChangeFacts.

(** *** Snapshots *)

Lemma read_slice_extends {A} (r : region (list A)) s s' sl xs :
  get r s `prefix_of` get r s' ->
  read_slice r s sl = Some xs -> read_slice r s' sl = Some xs.
Proof.
  intros Hp. destruct sl as [x|]; simpl; [|done].
  intros (a & Ha & ->)%fmap_Some.
  apply fmap_Some. exists a. split; [by eapply prefix_lookup_Some|done].
Qed.

Lemma read_metadata_extends s s' m md :
  objects_extend s s' ->
  read_metadata s m = Some md -> read_metadata s' m = Some md.
Proof.
  intros (Hm & _). destruct m as [p|]; simpl; [|done].
  intros (x & Hx & ->)%fmap_Some.
  apply fmap_Some. exists x. split; [by eapply prefix_lookup_Some|done].
Qed.

Lemma read_help_extends s s' h ls :
  objects_extend s s' ->
  read_help s h = Some ls -> read_help s' h = Some ls.
Proof.
  intros (_ & Hh & _ & Hl & _). destruct h as [p|]; simpl; [|done].
  intros (hv & Hhv & (xs & Hxs & ->)%fmap_Some)%bind_Some.
  apply bind_Some. exists hv. split; [by eapply prefix_lookup_Some|].
  apply fmap_Some. exists xs. split; [by eapply read_slice_extends|done].
Qed.

Lemma read_debug_extends s s' d x :
  objects_extend s s' ->
  read_debug s d = Some x -> read_debug s' d = Some x.
Proof.
  intros (_ & _ & Hd & _ & Hf & _). destruct d as [p|]; simpl; [|done].
  intros (dv & Hdv & (fs & Hfs & Hx)%bind_Some)%bind_Some.
  apply bind_Some. exists dv. split; [by eapply prefix_lookup_Some|].
  apply bind_Some. exists fs. split; [by eapply read_slice_extends|done].
Qed.

Lemma extends_objects s s' : extends s s' -> objects_extend s s'.
Proof. by intros (_ & H). Qed.

Lemma objects_extend_refl s : objects_extend s s.
Proof. by repeat split. Qed.

Lemma objects_extend_trans s1 s2 s3 :
  objects_extend s1 s2 -> objects_extend s2 s3 -> objects_extend s1 s3.
Proof.
  intros (?&?&?&?&?&?) (?&?&?&?&?&?).
  repeat split; by etrans.
Qed.

Lemma snapshot_Some s e sn :
  snapshot s e = Some sn <->
  read_metadata s (metadata (snap_struct sn)) = Some (snap_metadata sn)
  /\ errs s !! e = Some (snap_struct sn)
  /\ read_slice causesR s (causes (snap_struct sn)) = Some (snap_causes sn)
  /\ read_help s (help (snap_struct sn)) = Some (snap_help sn)
  /\ read_debug s (debugInfo (snap_struct sn)) = Some (snap_debug sn).
Proof.
  unfold snapshot. split.
  - intros (err & Herr & H)%bind_Some.
    apply bind_Some in H as (md & Hmd & H).
    apply bind_Some in H as (cs & Hcs & H).
    apply bind_Some in H as (h & Hhelp & H).
    apply bind_Some in H as (d & Hdbg & H).
    injection H as <-. done.
  - destruct sn as [err md cs h d]. simpl. intros (Hmd & Herr & Hcs & Hh & Hd).
    apply bind_Some. exists err. split; [done|].
    apply bind_Some. exists md. split; [done|].
    apply bind_Some. exists cs. split; [done|].
    apply bind_Some. exists h. split; [done|].
    apply bind_Some. exists d. split; [done|]. done.
Qed.

Lemma snapshot_extends s s' e sn :
  extends s s' -> snapshot s e = Some sn -> snapshot s' e = Some sn.
Proof.
  intros Hext. pose proof (extends_objects _ _ Hext) as Hobj.
  rewrite !snapshot_Some. intros (Hmd & Herr & Hcs & Hh & Hd).
  split; [by eapply read_metadata_extends|].
  split; [destruct Hext as (He & _); by eapply prefix_lookup_Some|].
  split; [eapply read_slice_extends; [|done]; by destruct Hext as (_&_&_&_&_&_&?)|].
  split; [by eapply read_help_extends|by eapply read_debug_extends].
Qed.

Lemma read_metadata_valid s m : valid_map s m -> is_Some (read_metadata s m).
Proof.
  destruct m as [p|]; simpl; [|by eexists].
  intros [x Hx]%lookup_lt_is_Some_2. exists (Some x). apply fmap_Some. by exists x.
Qed.

Lemma read_help_valid s h : valid_help s h -> is_Some (read_help s h).
Proof.
  destruct h as [p|]; simpl; [|by eexists].
  intros (hv & Hhv & Hl).
  destruct (read_slice_valid linksR s _ Hl) as (ls & Hls & _).
  exists (Some ls). apply bind_Some. exists hv. split; [done|].
  apply fmap_Some. by exists ls.
Qed.

Lemma read_debug_valid s d : valid_debug s d -> is_Some (read_debug s d).
Proof.
  destruct d as [p|]; simpl; [|by eexists].
  intros (dv & Hdv & Hf).
  destruct (read_slice_valid framesR s _ Hf) as (fs & Hfs & _).
  exists (Some (fs, detail dv)). apply bind_Some. exists dv. split; [done|].
  apply bind_Some. by exists fs.
Qed.

Lemma snapshot_valid s e : valid_err s e -> is_Some (snapshot s e).
Proof.
  intros (err & Herr & Hmap & Hcs & Hhelp & Hdbg).
  destruct (read_metadata_valid _ _ Hmap) as [md Hmd].
  destruct (read_slice_valid causesR s _ Hcs) as (cs & Hcs' & _).
  destruct (read_help_valid _ _ Hhelp) as [h Hh].
  destruct (read_debug_valid _ _ Hdbg) as [d Hd].
  exists (mkSnapshot err md cs h d). by apply snapshot_Some.
Qed.

(** *** What [copy] copies *)

Lemma wp_and {A} (m : M A) s (Q1 Q2 : A -> store -> Prop) :
  wp m s Q1 -> wp m s Q2 -> wp m s (fun a s' => Q1 a s' /\ Q2 a s').
Proof. unfold wp. destruct (m s) as [[a s']|]; done. Qed.

Lemma wp_map_len_exact s m md (Q : nat -> store -> Prop) :
  read_metadata s m = Some md -> Q (size (default ∅ md)) s -> wp (map_len m) s Q.
Proof.
  destruct m as [p|]; simpl.
  - intros (x & Hx & ->)%fmap_Some HQ. apply wp_bind.
    apply (wp_load mapR p x); [done|]. by apply wp_ret.
  - intros [= <-] HQ. apply wp_ret. simpl in HQ. by rewrite map_size_empty in HQ.
Qed.

Lemma foldl_insert_list_to_map (acc : Metadata) (l : list (string * MetadataValue)) :
  NoDup l.*1 ->
  foldl (fun md kv => <[kv.1:=kv.2]> md) acc l = list_to_map l ∪ acc.
Proof.
  revert acc. induction l as [|[k v] l IH]; intros acc Hnd; simpl.
  - by rewrite (left_id_L ∅ (∪)).
  - apply NoDup_cons in Hnd as [Hk Hnd]. rewrite IH by done.
    rewrite <- insert_union_r by (by apply not_elem_of_list_to_map_1).
    by rewrite insert_union_l.
Qed.

Lemma wp_forEach_map_assign_exact s m acc entries (Q : unit -> store -> Prop) :
  maps s !! m = Some acc ->
  Q tt (put mapR (<[m := foldl (fun md kv => <[kv.1:=kv.2]> md) acc entries]> (maps s)) s) ->
  wp (forEach entries (fun kv => map_assign (Some m) kv.1 kv.2)) s Q.
Proof.
  revert s acc. induction entries as [|[k v] entries IH]; intros s acc Hm HQ; simpl.
  - apply wp_ret. rewrite list_insert_id in HQ by done. by destruct s.
  - apply wp_bind. apply wp_bind. apply (wp_load mapR m acc); [done|].
    apply wp_update; [by eapply lookup_lt_Some|].
    apply (IH _ (<[k:=v]> acc)).
    + simpl. apply list_lookup_insert_eq. by eapply lookup_lt_Some.
    + simpl. by rewrite list_insert_insert_eq.
Qed.

Ltac objects_tac :=
  unfold objects_extend; simpl; repeat split; eauto using prefix_app_r.

Lemma set_metadata_id err : set_metadata (metadata err) err = err.
Proof. by destruct err. Qed.
Lemma set_causes_id err : set_causes (causes err) err = err.
Proof. by destruct err. Qed.
Lemma set_help_id err : set_help (help err) err = err.
Proof. by destruct err. Qed.
Lemma set_debugInfo_id err : set_debugInfo (debugInfo err) err = err.
Proof. by destruct err. Qed.

Lemma wp_copy_metadata_contents s p err msrc md :
  errs s !! p = Some err -> metadata err = None ->
  read_metadata s msrc = Some md ->
  wp (if bool_decide (0 < size (default ∅ md))%nat then
        m ← make_map;
        assign p (set_metadata m);;
        entries ← map_range msrc;
        forEach entries (fun kv => map_assign m kv.1 kv.2)
      else mret tt) s
     (fun _ s' =>
        objects_extend s s'
        /\ exists m', errs s' !! p = Some (set_metadata m' err)
             /\ default ∅ <$> read_metadata s' m' = Some (default ∅ md)).
Proof.
  intros Herr Hnil Hmd. case_bool_decide as Hn.
  - apply wp_bind, wp_make_map. apply wp_bind.
    apply (wp_assign _ _ err); [done|]. apply wp_bind.
    destruct msrc as [q|]; simpl in Hmd.
    + apply fmap_Some in Hmd as (x & Hx & ->). simpl.
      apply wp_bind. apply (wp_load mapR q x); [simpl; by apply lookup_app_l_Some|].
      apply wp_ret.
      apply (wp_forEach_map_assign_exact _ _ ∅); [simpl; apply lookup_snoc|].
      simpl. rewrite insert_snoc. split; [objects_tac|].
      exists (Some (length (maps s))). split.
      * simpl. apply list_lookup_insert_eq. by eapply lookup_lt_Some.
      * simpl. rewrite lookup_snoc. simpl. f_equal.
        rewrite foldl_insert_list_to_map by apply NoDup_fst_map_to_list.
        by rewrite list_to_map_to_list, (right_id_L ∅ (∪)).
    + injection Hmd as <-. simpl in Hn. rewrite map_size_empty in Hn. lia.
  - apply wp_ret. split; [apply objects_extend_refl|].
    exists None. split.
    + by rewrite <- Hnil, set_metadata_id.
    + simpl. f_equal. symmetry. apply map_size_empty_inv. lia.
Qed.

Lemma wp_copy_causes_contents s p err csrc xs :
  errs s !! p = Some err -> causes err = None ->
  read_slice causesR s csrc = Some xs -> length xs = slice_len csrc ->
  wp (if bool_decide (0 < slice_len csrc)%nat then
        cs ← make_slice causesR zeroCause (slice_len csrc);
        assign p (set_causes cs);;
        copy_slice causesR cs csrc
      else mret tt) s
     (fun _ s' =>
        objects_extend s s'
        /\ exists cs', errs s' !! p = Some (set_causes cs' err)
             /\ read_slice causesR s' cs' = Some xs).
Proof.
  intros Herr Hnil Hxs Hlen. case_bool_decide as Hn.
  - apply wp_bind, wp_make_slice. apply wp_bind.
    apply (wp_assign _ _ err); [done|].
    eapply (wp_copy_slice causesR _ _ _ xs (replicate (slice_len csrc) zeroCause)).
    + eapply read_slice_extends; [|done]. simpl. by apply prefix_app_r.
    + simpl. apply lookup_snoc.
    + simpl. rewrite insert_snoc, copied_replicate by done.
      split; [objects_tac|].
      eexists (Some (mkSlice _ _)). split.
      * apply list_lookup_insert_eq. by eapply lookup_lt_Some.
      * simpl. rewrite lookup_snoc. simpl. f_equal. apply take_ge. lia.
  - apply wp_ret. split; [apply objects_extend_refl|].
    exists None. split.
    + by rewrite <- Hnil, set_causes_id.
    + simpl. f_equal. symmetry. apply nil_length_inv. lia.
Qed.

Lemma wp_Help_copy_contents s h xs :
  read_slice linksR s (links h) = Some xs -> length xs = slice_len (links h) ->
  wp (Help_copy h) s
     (fun h' s' =>
        objects_extend s s' /\ errs s' = errs s /\ helps s' = helps s
        /\ read_slice linksR s' (links h') = Some xs).
Proof.
  intros Hxs Hlen. unfold Help_copy. case_bool_decide as Hn.
  - apply wp_ret. split; [apply objects_extend_refl|]. split; [done|]. split; [done|].
    simpl. f_equal. symmetry. apply nil_length_inv. lia.
  - apply wp_bind, wp_make_slice. apply wp_bind.
    eapply (wp_copy_slice linksR _ _ _ xs (replicate (slice_len (links h)) zeroLink)).
    + eapply read_slice_extends; [|done]. simpl. by apply prefix_app_r.
    + simpl. apply lookup_snoc.
    + simpl. rewrite insert_snoc, copied_replicate by done. apply wp_ret.
      split; [objects_tac|]. split; [done|]. split; [done|].
      simpl. rewrite lookup_snoc. simpl. f_equal. apply take_ge. lia.
Qed.

Lemma wp_DebugInfo_copy_contents s d xs :
  read_slice framesR s (stackFrames d) = Some xs ->
  length xs = slice_len (stackFrames d) ->
  wp (DebugInfo_copy d) s
     (fun d' s' =>
        objects_extend s s' /\ errs s' = errs s /\ debugs s' = debugs s
        /\ read_slice framesR s' (stackFrames d') = Some xs
        /\ detail d' = detail d).
Proof.
  intros Hxs Hlen. unfold DebugInfo_copy. case_bool_decide as Hn.
  - apply wp_ret. split; [apply objects_extend_refl|]. split; [done|]. split; [done|].
    split; [|done]. simpl. f_equal. symmetry. apply nil_length_inv. lia.
  - apply wp_bind, wp_make_slice. apply wp_bind.
    eapply (wp_copy_slice framesR _ _ _ xs (replicate (slice_len (stackFrames d)) zeroFrame)).
    + eapply read_slice_extends; [|done]. simpl. by apply prefix_app_r.
    + simpl. apply lookup_snoc.
    + simpl. rewrite insert_snoc, copied_replicate by done. apply wp_ret.
      split; [objects_tac|]. split; [done|]. split; [done|]. split; [|done].
      simpl. rewrite lookup_snoc. simpl. f_equal. apply take_ge. lia.
Qed.

Lemma wp_copy_help_contents s p err hsrc ls :
  errs s !! p = Some err -> help err = None ->
  valid_help s hsrc -> read_help s hsrc = Some ls ->
  wp (match hsrc with
      | Some hp =>
          h ← load helpR hp;
          helpCopy ← Help_copy h;
          hp' ← alloc helpR helpCopy;
          assign p (set_help (Some hp'))
      | None => mret tt
      end) s
     (fun _ s' =>
        objects_extend s s'
        /\ exists h', errs s' !! p = Some (set_help h' err)
             /\ read_help s' h' = Some ls).
Proof.
  intros Herr Hnil Hvalid Hls. destruct hsrc as [hp|]; simpl in *.
  - destruct Hvalid as (hv & Hhv & Hl).
    destruct (read_slice_valid linksR s _ Hl) as (xs & Hxs & Hlen).
    rewrite Hhv in Hls. simpl in Hls. rewrite Hxs in Hls. injection Hls as <-.
    apply wp_bind. apply (wp_load helpR hp hv); [done|]. apply wp_bind.
    eapply wp_mono; [by apply (wp_Help_copy_contents s hv xs)|].
    intros h' s1 (Hobj & Herrs & Hhelps & Hread).
    apply wp_bind, wp_alloc.
    apply (wp_assign _ _ err); [simpl; by rewrite Herrs|].
    split.
    { eapply objects_extend_trans; [done|]. objects_tac. }
    exists (Some (length (helps s1))). split.
    + simpl. apply list_lookup_insert_eq. rewrite Herrs. by eapply lookup_lt_Some.
    + simpl. rewrite lookup_snoc. simpl.
      apply fmap_Some. exists xs. split; [|done].
      eapply read_slice_extends; [|done]. done.
  - apply wp_ret. injection Hls as <-. split; [apply objects_extend_refl|].
    exists None. split; [by rewrite <- Hnil, set_help_id|done].
Qed.

Lemma wp_copy_debug_contents s p err dsrc x :
  errs s !! p = Some err -> debugInfo err = None ->
  valid_debug s dsrc -> read_debug s dsrc = Some x ->
  wp (match dsrc with
      | Some dp =>
          d ← load debugR dp;
          debugInfoCopy ← DebugInfo_copy d;
          dp' ← alloc debugR debugInfoCopy;
          assign p (set_debugInfo (Some dp'))
      | None => mret tt
      end) s
     (fun _ s' =>
        objects_extend s s'
        /\ exists d', errs s' !! p = Some (set_debugInfo d' err)
             /\ read_debug s' d' = Some x).
Proof.
  intros Herr Hnil Hvalid Hx. destruct dsrc as [dp|]; simpl in *.
  - destruct Hvalid as (dv & Hdv & Hf).
    destruct (read_slice_valid framesR s _ Hf) as (xs & Hxs & Hlen).
    rewrite Hdv in Hx. simpl in Hx. rewrite Hxs in Hx. injection Hx as <-.
    apply wp_bind. apply (wp_load debugR dp dv); [done|]. apply wp_bind.
    eapply wp_mono; [by apply (wp_DebugInfo_copy_contents s dv xs)|].
    intros d' s1 (Hobj & Herrs & Hdebugs & Hread & Hdetail).
    apply wp_bind, wp_alloc.
    apply (wp_assign _ _ err); [simpl; by rewrite Herrs|].
    split.
    { eapply objects_extend_trans; [done|]. objects_tac. }
    exists (Some (length (debugs s1))). split.
    + simpl. apply list_lookup_insert_eq. rewrite Herrs. by eapply lookup_lt_Some.
    + simpl. rewrite lookup_snoc. simpl.
      apply bind_Some. exists xs. split; [|by rewrite Hdetail].
      eapply read_slice_extends; [|done]. done.
  - apply wp_ret. injection Hx as <-. split; [apply objects_extend_refl|].
    exists None. split; [by rewrite <- Hnil, set_debugInfo_id|done].
Qed.

Lemma valid_help_objects s s' h :
  objects_extend s s' -> valid_help s h -> valid_help s' h.
Proof.
  intros (_ & Hh & _ & Hl & _). destruct h as [p|]; [|done].
  intros (hv & Hhv & Hv). exists hv. split; [by eapply prefix_lookup_Some|].
  by eapply valid_slice_extends.
Qed.

Lemma valid_debug_objects s s' d :
  objects_extend s s' -> valid_debug s d -> valid_debug s' d.
Proof.
  intros (_ & _ & Hd & _ & Hf & _). destruct d as [p|]; [|done].
  intros (dv & Hdv & Hv). exists dv. split; [by eapply prefix_lookup_Some|].
  by eapply valid_slice_extends.
Qed.

(** The error [copy] returns says what the receiver says: the same scalar
    fields, and maps and slices with the same entries and elements. *)
Lemma wp_copy_contents s0 e :
  valid_err s0 e ->
  wp (copy e) s0
     (fun p s => contents <$> snapshot s p = contents <$> snapshot s0 e).
Proof.
  intros (src & Hsrc & Hmap & Hcs & Hhelp & Hdbg). unfold copy.
  destruct (read_metadata_valid _ _ Hmap) as [md Hmd].
  destruct (read_slice_valid causesR s0 _ Hcs) as (cs & Hcs' & Hcslen).
  destruct (read_help_valid _ _ Hhelp) as [h Hh].
  destruct (read_debug_valid _ _ Hdbg) as [d Hd].
  assert (Hsnap0 : snapshot s0 e = Some (mkSnapshot src md cs h d)).
  { by apply snapshot_Some. }
  rewrite Hsnap0.
  apply wp_bind. apply (wp_load errR e src); [done|].
  apply wp_bind, wp_alloc.
  set (p := length (get errR s0)).
  set (init := mkTrogonError _ _ _ _ _ _ _ _ _ _ _ _ _ _ _ _ _).
  set (s1 := put errR _ s0).
  assert (Hobj1 : objects_extend s0 s1) by (subst s1; objects_tac).
  assert (Hp1 : errs s1 !! p = Some init) by apply lookup_snoc.
  clearbody s1.
  apply wp_bind.
  apply (wp_map_len_exact _ _ md); [by eapply read_metadata_extends|].
  apply wp_bind. eapply wp_mono.
  { apply (wp_copy_metadata_contents s1 p init (metadata src) md); [done|done|].
    by eapply read_metadata_extends. }
  intros [] s2 (Hobj2 & m' & Hp2 & Hm').
  apply wp_bind. eapply wp_mono.
  { eapply (wp_copy_causes_contents s2 p _ (causes src) cs); [done|done| |done].
    eapply read_slice_extends; [|done].
    by destruct (objects_extend_trans _ _ _ Hobj1 Hobj2) as (_&_&_&_&_&?). }
  intros [] s3 (Hobj3 & cs' & Hp3 & Hcs3).
  pose proof (objects_extend_trans _ _ _ Hobj1
                (objects_extend_trans _ _ _ Hobj2 Hobj3)) as Hobj03.
  apply wp_bind. eapply wp_mono.
  { eapply (wp_copy_help_contents s3 p _ (help src) h); [done|done| |].
    - by eapply valid_help_objects.
    - by eapply read_help_extends. }
  intros [] s4 (Hobj4 & h' & Hp4 & Hh4).
  pose proof (objects_extend_trans _ _ _ Hobj03 Hobj4) as Hobj04.
  apply wp_bind. eapply wp_mono.
  { eapply (wp_copy_debug_contents s4 p _ (debugInfo src) d); [done|done| |].
    - by eapply valid_debug_objects.
    - by eapply read_debug_extends. }
  intros [] s5 (Hobj5 & d' & Hp5 & Hd5).
  apply wp_ret.
  apply fmap_Some in Hm' as (md' & Hmd' & Hdef).
  assert (snapshot s5 p
          = Some (mkSnapshot
                    (set_debugInfo d' (set_help h' (set_causes cs' (set_metadata m' init))))
                    md' cs h d)) as ->.
  { apply snapshot_Some. simpl. split; [|split; [done|split; [|split; [|done]]]].
    - eapply read_metadata_extends; [|done].
      eapply objects_extend_trans; [done|]. by eapply objects_extend_trans.
    - eapply read_slice_extends; [|done].
      by destruct (objects_extend_trans _ _ _ Hobj4 Hobj5) as (_&_&_&_&_&?).
    - by eapply read_help_extends. }
  simpl. unfold contents. simpl. rewrite Hdef.
  replace (scalars (set_debugInfo d' (set_help h' (set_causes cs' (set_metadata m' init)))))
    with (scalars src); [done|].
  subst init. by destruct src.
Qed.

(** *** The receiver is left alone *)

Lemma Inv_separate s0 p s : Inv s0 p s -> separate s0 s p.
Proof.
  intros (_ & Hp & err & Herr & (Hmf & _) & (Hcf & _) & Hhelp & Hdbg).
  split; [done|]. exists err. split; [done|]. split; [done|]. split; [done|].
  unfold own_help in Hhelp. unfold own_debug in Hdbg.
  split; [|split; [|split]].
  - destruct (help err); [by destruct Hhelp|done].
  - intros hp hv Hhp Hhv. rewrite Hhp in Hhelp.
    destruct Hhelp as (_ & hv' & Hhv' & Hf & _). congruence.
  - destruct (debugInfo err); [by destruct Hdbg|done].
  - intros dp dv Hdp Hdv. rewrite Hdp in Hdbg.
    destruct Hdbg as (_ & dv' & Hdv' & Hf & _). congruence.
Qed.

(** A write to what a separate error owns does not reach the old store. *)
Lemma mutates_extends s0 s e' s'' :
  extends s0 s -> separate s0 s e' -> mutates s e' s'' -> extends s0 s''.
Proof.
  intros Hext (_ & err & Herr & Hm & _ & Hh & Hl & Hd & Hf) Hmut.
  destruct Hmut as [err' m md Herr' Hmeta|err' hp hv Herr' Hhelp
                   |err' hp hv sl a Herr' Hhelp Hhv Hsl
                   |err' dp dv Herr' Hdbg|err' dp dv sl a Herr' Hdbg Hdv Hsl];
    assert (err' = err) as -> by congruence.
  - rewrite Hmeta in Hm. simpl in Hm. extends_tac.
  - rewrite Hhelp in Hh. simpl in Hh. extends_tac.
  - specialize (Hl _ _ Hhelp Hhv). rewrite Hsl in Hl. simpl in Hl. extends_tac.
  - rewrite Hdbg in Hd. simpl in Hd. extends_tac.
  - specialize (Hf _ _ Hdbg Hdv). rewrite Hsl in Hf. simpl in Hf. extends_tac.
Qed.

(** C2.  On a store in which [e] and the maps handed to the change options
    are valid, [e.WithChanges(changes...)] returns, without a panic, an
    error at a new address.  It first makes the clone, which says what [e]
    says (the same scalar fields, a metadata map with the same entries,
    the same causes, help links, stack frames and debug detail), and then
    runs the change options on the clone.  The store it leaves has every
    object of the old one unchanged, so everything that can be read
    through [e] is as before; the result's own metadata map, help, link
    array, debug info and frame array are new objects, so that no later
    write to any of them changes what can be read through [e]. *)
Theorem WithChanges_leaves_receiver_unchanged {rt : GoRuntime}
    (s : store) (e : loc) (changes : list ChangeOption) :
  valid_err s e -> Forall (valid_change s) changes ->
  exists e' s',
    WithChanges e changes s = Some (e', s')
    /\ (length (errs s) <= e')%nat
    /\ extends s s'
    /\ is_Some (snapshot s e)
    /\ snapshot s' e = snapshot s e
    /\ separate s s' e'
    /\ (forall s'', mutates s' e' s'' -> snapshot s'' e = snapshot s e)
    /\ (exists s1,
          copy e s = Some (e', s1)
          /\ contents <$> snapshot s1 e' = contents <$> snapshot s e
          /\ forEach changes (fun change => applyChange change e') s1 = Some (tt, s')).
Proof.
  intros He Hchanges.
  destruct (wp_run _ _ _ (wp_and _ _ _ _ (wp_copy s e He) (wp_copy_contents s e He)))
    as (e' & s1 & Hcopy & HI1 & Hcontents).
  destruct (wp_run _ _ _ (wp_changes s e' s1 changes HI1 Hchanges))
    as ([] & s' & Hloop & HI).
  exists e', s'.
  assert (WithChanges e changes s = Some (e', s')) as Hrun.
  { unfold WithChanges, mbind, M_bind. by rewrite Hcopy, Hloop. }
  split; [done|].
  destruct (snapshot_valid s e He) as [sn Hsn].
  pose proof (Inv_extends _ _ _ HI) as Hext.
  pose proof (Inv_separate _ _ _ HI) as Hsep.
  split; [by destruct HI as (_ & ? & _)|].
  split; [done|]. split; [by exists sn|].
  split; [rewrite Hsn; by eapply snapshot_extends|].
  split; [done|]. split.
  - intros s'' Hmut. rewrite Hsn. eapply snapshot_extends; [|done].
    by eapply mutates_extends.
  - by exists s1.
Qed.

Lemma WithChanges_leaves_receiver_unchanged_witness :
  valid_err receiverStore 0%nat
  /\ Forall (valid_change receiverStore) receiverChanges
  /\ exists e' s',
       WithChanges (rt:=exampleRuntime) 0%nat receiverChanges receiverStore = Some (e', s')
       /\ (length (errs receiverStore) <= e')%nat
       /\ extends receiverStore s'
       /\ is_Some (snapshot receiverStore 0%nat)
       /\ snapshot s' 0%nat = snapshot receiverStore 0%nat
       /\ separate receiverStore s' e'
       /\ (forall s'', mutates s' e' s'' -> snapshot s'' 0%nat = snapshot receiverStore 0%nat)
       /\ (exists s1,
             copy 0%nat receiverStore = Some (e', s1)
             /\ contents <$> snapshot s1 e' = contents <$> snapshot receiverStore 0%nat
             /\ forEach receiverChanges
                  (fun change => applyChange (rt:=exampleRuntime) change e') s1
                = Some (tt, s')).
Proof.
  assert (valid_err receiverStore 0%nat) as Hvalid.
  { eexists. split; [reflexivity|]. simpl.
    split; [lia|]. split; [exact I|].
    split; eexists; (split; [reflexivity|]); eexists; (split; [reflexivity|]);
      simpl; lia. }
  assert (Forall (valid_change receiverStore) receiverChanges) as Hchanges.
  { repeat constructor. }
  split; [exact Hvalid|]. split; [exact Hchanges|].
  exact (WithChanges_leaves_receiver_unchanged (rt:=exampleRuntime)
           receiverStore 0%nat receiverChanges Hvalid Hchanges).
Defined.

(** The same run, evaluated: the clone is the error at address 1; the
    receiver's link array keeps its unused second slot, the clone's copy
    of it has no room, and [append] puts the two links of the result into
    a third array. *)
Example WithChanges_receiverStore :
  (fun r => (r.1, helps r.2, linkArrays r.2))
    <$> WithChanges (rt:=exampleRuntime) 0%nat receiverChanges receiverStore
  = Some (1%nat,
          [mkHelp (Some (mkSlice 0%nat 1%nat)); mkHelp (Some (mkSlice 2%nat 2%nat))],
          [[mkHelpLink "Documentation" "https://docs.example.com"; zeroLink];
           [mkHelpLink "Documentation" "https://docs.example.com"];
           [mkHelpLink "Documentation" "https://docs.example.com";
            mkHelpLink "Status" "https://status.example.com"]]).
Proof. vm_compute. reflexivity. Qed.

(** A write to the link array of the receiver itself is a write that
    shows in what can be read through the receiver. *)
Example mutates_own_links_shows :
  exists s'',
    mutates receiverStore 0%nat s''
    /\ snapshot s'' 0%nat <> snapshot receiverStore 0%nat.
Proof.
  exists (put linksR (<[0%nat := [mkHelpLink "Status" "https://status.example.com"; zeroLink]]>
                        (linkArrays receiverStore)) receiverStore).
  split.
  - eapply (mutates_links receiverStore 0%nat _ 0%nat _ (mkSlice 0%nat 1%nat)); reflexivity.
  - intros H. apply (f_equal (fmap snap_help)) in H. vm_compute in H. discriminate H.
Qed.

(** Outside [WithChanges] nothing clones a help: [addHelpLink] on two
    errors that hold the same slice with room to spare appends in place
    for both, and the link the first one added is overwritten by the
    second. *)
Example addHelpLink_shared_array :
  (fun r => snap_help <$> snapshot r.2 0%nat)
    <$> (addHelpLink (rt:=exampleRuntime) 0%nat "Retry" "https://a.example.com";;
         addHelpLink (rt:=exampleRuntime) 1%nat "Billing" "https://b.example.com")
          stampedStore
  = Some (Some (Some [mkHelpLink "Docs" "https://docs.example.com";
                      mkHelpLink "Status" "https://status.example.com";
                      mkHelpLink "Support" "https://support.example.com";
                      mkHelpLink "Billing" "https://b.example.com"])).
Proof. vm_compute. reflexivity. Qed.

End HeapFacts.

(** * Further properties of the package *)

(** ** Names and default messages *)

Ltac elem_of_list_tac :=
  repeat first [apply list_elem_of_here | apply list_elem_of_further].

Lemma Code_String_default (c : Code) : c ∉ allCodes -> Code_String c = "UNKNOWN".
Proof.
  intros Hc. unfold Code_String.
  repeat match goal with
  | |- context [?x =? ?k] =>
      destruct (Z.eqb_spec x k) as [->|_];
      [ exfalso; apply Hc; unfold allCodes; elem_of_list_tac | ]
  end.
  reflexivity.
Qed.

Lemma Code_String_named (c : Code) :
  c ∈ allCodes -> Code_String c = "UNKNOWN" -> c = CodeUnknown.
Proof.
  unfold allCodes. intros Hin Hname.
  repeat (apply elem_of_cons in Hin as [Heq|Hin];
          [subst c; first [reflexivity|discriminate Hname]|]).
  by apply elem_of_nil in Hin.
Qed.

Lemma Visibility_String_default (v : Visibility) :
  v ∉ allVisibilities -> Visibility_String v = "UNKNOWN".
Proof.
  intros Hv. unfold Visibility_String.
  repeat match goal with
  | |- context [?x =? ?k] =>
      destruct (Z.eqb_spec x k) as [->|_];
      [ exfalso; apply Hv; unfold allVisibilities; elem_of_list_tac | ]
  end.
  reflexivity.
Qed.

(** X1.  [Code.String] gives the sixteen codes sixteen different names and
    prints every other value as UNKNOWN, the name of [CodeUnknown];
    [Visibility.String] gives the three levels three different names and
    prints every other value as UNKNOWN, which is the name of no level. *)
Theorem String_names_distinct :
  NoDup (Code_String <$> allCodes)
  /\ (forall c, Code_String c = "UNKNOWN" <-> c = CodeUnknown \/ c ∉ allCodes)
  /\ NoDup (Visibility_String <$> allVisibilities)
  /\ (forall v, Visibility_String v = "UNKNOWN" <-> v ∉ allVisibilities).
Proof.
  split; [|split; [|split]].
  - apply (bool_decide_unpack _). by vm_compute.
  - intros c. split.
    + intros Hname. destruct (decide (c ∈ allCodes)) as [Hin|Hout]; [|by right].
      left. by apply Code_String_named.
    + intros [Heq|Hout]; [by subst c|by apply Code_String_default].
  - apply (bool_decide_unpack _). by vm_compute.
  - intros v. split.
    + intros Hname Hin. unfold allVisibilities in Hin.
      repeat (apply elem_of_cons in Hin as [Heq|Hin]; [subst v; discriminate Hname|]).
      by apply elem_of_nil in Hin.
    + apply Visibility_String_default.
Qed.

Lemma Code_Message_default (c : Code) :
  c ∉ allCodes -> Code_Message c = "unknown error".
Proof.
  intros Hc. unfold Code_Message.
  repeat match goal with
  | |- context [?x =? ?k] =>
      destruct (Z.eqb_spec x k) as [->|_];
      [ exfalso; apply Hc; unfold allCodes; elem_of_list_tac | ]
  end.
  reflexivity.
Qed.

(** X2.  [Message] never returns the empty string: an empty message field
    is replaced by the default message of the code, and no code, named or
    not, has an empty default message.  A code that is none of the sixteen
    has the default message of [CodeUnknown]. *)
Theorem Message_never_empty (e : TrogonError) (c : Code) :
  Message e <> ""
  /\ Code_Message c <> ""
  /\ (c ∉ allCodes -> Code_Message c = Code_Message CodeUnknown).
Proof.
  assert (Hc : forall c, Code_Message c <> "").
  { intros c'. unfold Code_Message. repeat case_match; discriminate. }
  split; [|split; [done|]].
  - unfold Message. case_bool_decide; [done|apply Hc].
  - intros Hn. by rewrite Code_Message_default.
Qed.

Lemma Message_never_empty_witness :
  (999 ∉ allCodes) /\ Code_Message 999 = Code_Message CodeUnknown.
Proof.
  assert (H : 999 ∉ allCodes).
  { unfold allCodes. intros Hin.
    repeat (apply elem_of_cons in Hin as [Hin|Hin]; [discriminate Hin|]).
    by apply elem_of_nil in Hin. }
  split; [exact H|].
  exact (proj2 (proj2 (Message_never_empty minimalError 999)) H).
Defined.

(** ** Identity along the chain *)

Lemma chain_length_pos err : (0 < length (chain err))%nat.
Proof. destruct err; simpl; lia. Qed.

Lemma Is_foreign e i text inner :
  Is e (ErrForeign i text inner)
  = match wrappedErr e with
    | Some w => errors_is w (ErrForeign i text inner)
    | None => false
    end.
Proof. by destruct e. Qed.

Lemma errors_is_unfold err target :
  errors_is err target
  = if error_identical err target then true
    else if match err with
            | ErrTrogon _ x => Is x target
            | ErrForeign _ _ _ => false
            end
    then true
    else match err with
         | ErrTrogon _ x =>
             match wrappedErr x with
             | Some next => errors_is next target
             | None => false
             end
         | ErrForeign _ _ inner =>
             match inner with
             | Some next => errors_is next target
             | None => false
             end
         end.
Proof. by destruct err as [p []|]. Qed.

Lemma Is_TrogonError_true x q t :
  Is x (ErrTrogon q t) = true <-> domain x = domain t /\ reason x = reason t.
Proof.
  destruct x, q; simpl; by rewrite andb_true_iff, !bool_decide_eq_true.
Qed.

Lemma chain_cons_matches target err rest :
  ¬ matchesTarget target err ->
  (exists layer, layer ∈ err :: rest /\ matchesTarget target layer)
  <-> (exists layer, layer ∈ rest /\ matchesTarget target layer).
Proof.
  intros Hno. split; intros (layer & Hin & Hm).
  - apply elem_of_cons in Hin as [->|Hin]; [done|]. by exists layer.
  - exists layer. split; [by right|done].
Qed.

Lemma chain_unfold err :
  chain err
  = err :: match match err with
                 | ErrTrogon _ x => wrappedErr x
                 | ErrForeign _ _ inner => inner
                 end with
           | Some next => chain next
           | None => []
           end.
Proof. by destruct err as [p []|]. Qed.

Lemma errors_is_chain_bounded (n : nat) (err target : error) :
  (length (chain err) <= n)%nat ->
  errors_is err target = true
  <-> exists layer, layer ∈ chain err /\ matchesTarget target layer.
Proof.
  revert err. induction n as [|n IH]; intros err Hn.
  { pose proof (chain_length_pos err). lia. }
  rewrite chain_unfold in Hn. simpl in Hn.
  set (next := match err with
               | ErrTrogon _ x => wrappedErr x
               | ErrForeign _ _ inner => inner
               end) in *.
  assert (Hnext : forall w, next = Some w ->
            (errors_is w target = true
             <-> exists layer, layer ∈ chain w /\ matchesTarget target layer)).
  { intros w Hw. apply IH. rewrite Hw in Hn. lia. }
  assert (Hrest : match next with
                  | Some w => errors_is w target
                  | None => false
                  end = true
                  <-> exists layer,
                        layer ∈ match next with Some w => chain w | None => [] end
                        /\ matchesTarget target layer).
  { destruct next as [w|]; [by apply Hnext|].
    split; [done|]. intros (layer & Hin & _). by apply elem_of_nil in Hin. }
  rewrite errors_is_unfold, (chain_unfold err). fold next.
  destruct err as [p x|j text inner], target as [q t|i ttext tinner];
    cbn [error_identical].
  - (* TrogonError layer, TrogonError target *)
    destruct (Is x (ErrTrogon q t)) eqn:HIs.
    + split; [|done]. intros _. exists (ErrTrogon p x). split; [by left|].
      by apply (Is_TrogonError_true x q t).
    + rewrite chain_cons_matches; [exact Hrest|].
      intros H. apply (Is_TrogonError_true x q t) in H. congruence.
  - (* TrogonError layer, target of another type *)
    rewrite Is_foreign. fold next.
    rewrite chain_cons_matches by (by intros []).
    rewrite <- Hrest.
    subst next. destruct (wrappedErr x) as [w|]; [destruct (errors_is w _)|]; tauto.
  - (* layer of another type, TrogonError target *)
    rewrite chain_cons_matches by (by intros []). exact Hrest.
  - (* both of another type *)
    case_bool_decide as Hij.
    + split; [|done]. intros _. exists (ErrForeign j text inner). split; [by left|done].
    + rewrite chain_cons_matches by done. exact Hrest.
Qed.

(** X3.  [errors.Is(err, target)] with the [Is] and [Unwrap] of the
    package: the chain of [err], followed through each layer's [Unwrap],
    holds a layer that stands for the target.  For a target that is a
    [TrogonError] that is a [TrogonError] with its domain and reason, at
    any depth and under layers of any type; for a target of another type
    it is that same error, which a [TrogonError] reaches only through the
    error it wraps. *)
Theorem errors_Is_chain (err target : error) :
  errors_Is (Some err) target = true
  <-> exists layer, layer ∈ chain err /\ matchesTarget target layer.
Proof. simpl. by apply (errors_is_chain_bounded (length (chain err))). Qed.

Section TemplateIdentity.
Context {rt : GoRuntime}.

(** X4.  [ErrorTemplate.Is] holds of a target exactly when the target is a
    [TrogonError], held by value or behind a pointer, with the template's
    domain and reason; so it holds of every error the template stamps,
    whatever the options.  It does not unwrap: of an error of another type
    it is false, also when that error wraps an error of the template. *)
Theorem Template_Is_same_identity (et : ErrorTemplate) :
  (forall p x,
     Template_Is et (ErrTrogon p x) = true
     <-> t_domain et = domain x /\ t_reason et = reason x)
  /\ (forall options p,
        Template_Is et (ErrTrogon p (Template_NewError et options)) = true)
  /\ (forall i text inner, Template_Is et (ErrForeign i text inner) = false).
Proof.
  assert (Hiff : forall p x,
            Template_Is et (ErrTrogon p x) = true
            <-> t_domain et = domain x /\ t_reason et = reason x).
  { intros p x. destruct p; simpl; by rewrite andb_true_iff, !bool_decide_eq_true. }
  split; [exact Hiff|]. split; [|done].
  intros options p. apply Hiff.
  split; symmetry; by apply (foldl_applyOption_domain_reason (baseOptions et ++ options)).
Qed.

End TemplateIdentity.

Section Defaults.
Context {rt : GoRuntime}.

Ltac untouched_tac o e Hw :=
  destruct o; try (exfalso; apply Hw; reflexivity);
  destruct e as [? ? ? ? ? ? ? ? ? ? ? [?|] [?|] ? ? ? ?]; simpl;
  rewrite ?addMetadataValue_insert; reflexivity.

Lemma applyOption_specVersion o e : specVersion (applyOption o e) = specVersion e.
Proof.
  destruct o; destruct e as [? ? ? ? ? ? ? ? ? ? ? [?|] [?|] ? ? ? ?]; simpl;
    rewrite ?addMetadataValue_insert; reflexivity.
Qed.
Lemma applyOption_metadata_untouched o e :
  writes o <> FMetadata -> metadata (applyOption o e) = metadata e.
Proof. intros Hw. untouched_tac o e Hw. Qed.
Lemma applyOption_subject_untouched o e :
  writes o <> FSubject -> subject (applyOption o e) = subject e.
Proof. intros Hw. untouched_tac o e Hw. Qed.
Lemma applyOption_id_untouched o e :
  writes o <> FID -> id (applyOption o e) = id e.
Proof. intros Hw. untouched_tac o e Hw. Qed.
Lemma applyOption_time_untouched o e :
  writes o <> FTime -> time (applyOption o e) = time e.
Proof. intros Hw. untouched_tac o e Hw. Qed.
Lemma applyOption_sourceID_untouched o e :
  writes o <> FSourceID -> sourceID (applyOption o e) = sourceID e.
Proof. intros Hw. untouched_tac o e Hw. Qed.
Lemma applyOption_help_untouched o e :
  writes o <> FHelp -> help (applyOption o e) = help e.
Proof. intros Hw. untouched_tac o e Hw. Qed.
Lemma applyOption_debugInfo_untouched o e :
  writes o <> FDebugInfo -> debugInfo (applyOption o e) = debugInfo e.
Proof. intros Hw. untouched_tac o e Hw. Qed.
Lemma applyOption_localizedMessage_untouched o e :
  writes o <> FLocalizedMessage -> localizedMessage (applyOption o e) = localizedMessage e.
Proof. intros Hw. untouched_tac o e Hw. Qed.
Lemma applyOption_retryInfo_untouched o e :
  writes o <> FRetryInfo -> retryInfo (applyOption o e) = retryInfo e.
Proof. intros Hw. untouched_tac o e Hw. Qed.
Lemma applyOption_causes_untouched o e :
  writes o <> FCauses -> causes (applyOption o e) = causes e.
Proof. intros Hw. untouched_tac o e Hw. Qed.
Lemma applyOption_wrappedErr_untouched o e :
  writes o <> FWrappedErr -> wrappedErr (applyOption o e) = wrappedErr e.
Proof. intros Hw. untouched_tac o e Hw. Qed.

Lemma foldl_applyOption_specVersion options e :
  specVersion (foldl (fun err option => applyOption option err) e options) = specVersion e.
Proof.
  revert e. induction options as [|o os IH]; intros e; simpl; [done|].
  by rewrite IH, applyOption_specVersion.
Qed.

(** X5.  Whatever the options, the error [NewError] returns has the spec
    version of the package and the domain and reason it was given; and a
    field none of the options writes has its initial value: code UNKNOWN,
    visibility INTERNAL, empty message, subject, id and source id, no
    metadata, no causes, and nil time, help, debug info, localized
    message, retry info and wrapped error. *)
Theorem NewError_untouched_fields_keep_defaults domain0 reason0 options :
  specVersion (NewError domain0 reason0 options) = SpecVersion
  /\ domain (NewError domain0 reason0 options) = domain0
  /\ reason (NewError domain0 reason0 options) = reason0
  /\ (Forall (fun o => writes o <> FCode) options ->
      code (NewError domain0 reason0 options) = CodeUnknown)
  /\ (Forall (fun o => writes o <> FVisibility) options ->
      visibility (NewError domain0 reason0 options) = VisibilityInternal)
  /\ (Forall (fun o => writes o <> FMessage) options ->
      message (NewError domain0 reason0 options) = "")
  /\ (Forall (fun o => writes o <> FSubject) options ->
      subject (NewError domain0 reason0 options) = "")
  /\ (Forall (fun o => writes o <> FID) options ->
      id (NewError domain0 reason0 options) = "")
  /\ (Forall (fun o => writes o <> FSourceID) options ->
      sourceID (NewError domain0 reason0 options) = "")
  /\ (Forall (fun o => writes o <> FMetadata) options ->
      metadata (NewError domain0 reason0 options) = ∅)
  /\ (Forall (fun o => writes o <> FCauses) options ->
      causes (NewError domain0 reason0 options) = [])
  /\ (Forall (fun o => writes o <> FTime) options ->
      time (NewError domain0 reason0 options) = None)
  /\ (Forall (fun o => writes o <> FHelp) options ->
      help (NewError domain0 reason0 options) = None)
  /\ (Forall (fun o => writes o <> FDebugInfo) options ->
      debugInfo (NewError domain0 reason0 options) = None)
  /\ (Forall (fun o => writes o <> FLocalizedMessage) options ->
      localizedMessage (NewError domain0 reason0 options) = None)
  /\ (Forall (fun o => writes o <> FRetryInfo) options ->
      retryInfo (NewError domain0 reason0 options) = None)
  /\ (Forall (fun o => writes o <> FWrappedErr) options ->
      wrappedErr (NewError domain0 reason0 options) = None).
Proof.
  unfold NewError.
  split; [by rewrite foldl_applyOption_specVersion|].
  split; [by apply foldl_applyOption_domain_reason|].
  split; [by apply foldl_applyOption_domain_reason|].
  repeat split; intros Hall.
  - by rewrite (foldl_untouched code FCode) by auto using applyOption_code_untouched.
  - by rewrite (foldl_untouched visibility FVisibility)
      by auto using applyOption_visibility_untouched.
  - by rewrite (foldl_untouched message FMessage) by auto using applyOption_message_untouched.
  - by rewrite (foldl_untouched subject FSubject) by auto using applyOption_subject_untouched.
  - by rewrite (foldl_untouched id FID) by auto using applyOption_id_untouched.
  - by rewrite (foldl_untouched sourceID FSourceID) by auto using applyOption_sourceID_untouched.
  - by rewrite (foldl_untouched metadata FMetadata) by auto using applyOption_metadata_untouched.
  - by rewrite (foldl_untouched causes FCauses) by auto using applyOption_causes_untouched.
  - by rewrite (foldl_untouched time FTime) by auto using applyOption_time_untouched.
  - by rewrite (foldl_untouched help FHelp) by auto using applyOption_help_untouched.
  - by rewrite (foldl_untouched debugInfo FDebugInfo)
      by auto using applyOption_debugInfo_untouched.
  - by rewrite (foldl_untouched localizedMessage FLocalizedMessage)
      by auto using applyOption_localizedMessage_untouched.
  - by rewrite (foldl_untouched retryInfo FRetryInfo)
      by auto using applyOption_retryInfo_untouched.
  - by rewrite (foldl_untouched wrappedErr FWrappedErr)
      by auto using applyOption_wrappedErr_untouched.
Qed.

End Defaults.

Lemma NewError_untouched_fields_keep_defaults_witness :
  Forall (fun o => writes o <> FCode)
    [WithID "err_1"; WithSubject "/users/42"]
  /\ code (NewError (rt:=exampleRuntime) "shopify.users" "NOT_FOUND"
             [WithID "err_1"; WithSubject "/users/42"]) = CodeUnknown.
Proof.
  assert (H : Forall (fun o => writes o <> FCode)
                [WithID "err_1"; WithSubject "/users/42"])
    by (repeat constructor; discriminate).
  split; [exact H|].
  exact (proj1 (proj2 (proj2 (proj2
           (NewError_untouched_fields_keep_defaults (rt:=exampleRuntime)
              "shopify.users" "NOT_FOUND" [WithID "err_1"; WithSubject "/users/42"])))) H).
Defined.

Section MetadataAndCauses.
Context {rt : GoRuntime}.

Lemma metadata_applyOption o e :
  metadata (applyOption o e) = metadataEntries o ∪ metadata e.
Proof.
  destruct o; destruct e as [? ? ? ? ? ? ? ? ? ? ? [?|] [?|] ? ? ? ?]; simpl;
    rewrite ?addMetadataValue_insert, ?maps_Copy_union, ?insert_union_singleton_l,
      ?(left_id_L ∅ (∪)); reflexivity.
Qed.

Lemma dom_metadataEntries_keys o : dom (metadataEntries o) = metadataKeys o.
Proof. destruct o; simpl; by rewrite ?dom_singleton_L, ?dom_empty_L. Qed.

Lemma foldl_applyOption_metadata_untouched k options e :
  Forall (fun o => k ∉ metadataKeys o) options ->
  metadata (foldl (fun err option => applyOption option err) e options) !! k
  = metadata e !! k.
Proof.
  intros Hall. revert e. induction Hall as [|o os Ho _ IH]; intros e; simpl; [done|].
  rewrite IH, metadata_applyOption. apply lookup_union_r.
  apply not_elem_of_dom. by rewrite dom_metadataEntries_keys.
Qed.

(** X6.  The metadata of the error [NewError] returns has exactly the keys
    the options write, and under each key the entry of the last option
    that writes it: an entry an option writes is there unless a later
    option writes the same key. *)
Theorem NewError_metadata_last_write domain0 reason0 (options : list ErrorOption) :
  dom (metadata (NewError domain0 reason0 options)) = ⋃ (metadataKeys <$> options)
  /\ (forall options1 o options2 k v,
        options = options1 ++ o :: options2 ->
        metadataEntries o !! k = Some v ->
        Forall (fun o' => k ∉ metadataKeys o') options2 ->
        metadata (NewError domain0 reason0 options) !! k = Some v).
Proof.
  split.
  - assert (forall e,
              dom (metadata (foldl (fun err option => applyOption option err) e options))
              = dom (metadata e) ∪ ⋃ (metadataKeys <$> options)) as H.
    { induction options as [|o os IH]; intros e; simpl.
      - by rewrite (right_id_L ∅ (∪)).
      - rewrite IH, metadata_applyOption, dom_union_L, dom_metadataEntries_keys.
        by rewrite (comm_L (∪) (metadataKeys o)), (assoc_L (∪)). }
    unfold NewError. rewrite H. simpl. by rewrite dom_empty_L, (left_id_L ∅ (∪)).
  - intros options1 o options2 k v -> Hk Hlater.
    rewrite NewError_app. simpl.
    rewrite foldl_applyOption_metadata_untouched by done.
    rewrite metadata_applyOption. by apply lookup_union_Some_l.
Qed.

Lemma causes_applyOption o e :
  causes (applyOption o e) = causes e ++ addedCauses [o].
Proof.
  destruct o; destruct e as [? ? ? ? ? ? ? ? ? ? ? [?|] [?|] ? ? ? ?];
    unfold addedCauses; simpl;
    rewrite ?addMetadataValue_insert, ?app_nil_r; reflexivity.
Qed.

(** X7.  The causes of the error [NewError] returns are the causes of
    all its [WithCause] options, in the order of the options and, within
    an option, in the order given: [WithCause] appends and no other
    option touches the causes. *)
Theorem NewError_causes_in_order domain0 reason0 (options : list ErrorOption) :
  causes (NewError domain0 reason0 options) = addedCauses options
  /\ (forall cs,
        causes (NewError domain0 reason0 (options ++ [WithCause cs]))
        = causes (NewError domain0 reason0 options) ++ cs).
Proof.
  assert (forall e,
            causes (foldl (fun err option => applyOption option err) e options)
            = causes e ++ addedCauses options) as H.
  { induction options as [|o os IH]; intros e; simpl.
    - by rewrite app_nil_r.
    - rewrite IH, causes_applyOption. unfold addedCauses. simpl.
      by rewrite app_nil_r, (assoc_L (++)). }
  split.
  - unfold NewError. by rewrite H.
  - intros cs. rewrite NewError_app. cbn [foldl]. rewrite causes_applyOption.
    unfold addedCauses. simpl. by rewrite app_nil_r.
Qed.

End MetadataAndCauses.

Lemma NewError_metadata_last_write_witness :
  metadata (NewError (rt:=exampleRuntime) "shopify.users" "NOT_FOUND"
              ([WithMetadataValue VisibilityPublic "userId" "1"]
                 ++ WithMetadataValue VisibilityPrivate "userId" "2"
                 :: [WithID "err_1"; WithMetadataValue VisibilityPublic "orderId" "3"]))
    !! "userId"
  = Some (mkMetadataValue "2" VisibilityPrivate).
Proof.
  apply (proj2 (NewError_metadata_last_write (rt:=exampleRuntime) "shopify.users" "NOT_FOUND" _)
           [WithMetadataValue VisibilityPublic "userId" "1"]
           (WithMetadataValue VisibilityPrivate "userId" "2")
           [WithID "err_1"; WithMetadataValue VisibilityPublic "orderId" "3"]
           "userId").
  - reflexivity.
  - reflexivity.
  - repeat constructor; simpl; [apply not_elem_of_empty|].
    intros H. apply elem_of_singleton in H. discriminate H.
Defined.

Section ChangesValue.
Context {rt : GoRuntime}.

Lemma applyChange_frame change e :
  specVersion (applyChange change e) = specVersion e
  /\ code (applyChange change e) = code e
  /\ message (applyChange change e) = message e
  /\ domain (applyChange change e) = domain e
  /\ reason (applyChange change e) = reason e
  /\ visibility (applyChange change e) = visibility e
  /\ subject (applyChange change e) = subject e
  /\ causes (applyChange change e) = causes e
  /\ debugInfo (applyChange change e) = debugInfo e
  /\ wrappedErr (applyChange change e) = wrappedErr e.
Proof.
  destruct change; destruct e as [? ? ? ? ? ? ? ? ? ? ? [?|] [?|] ? ? ? ?]; simpl;
    rewrite ?addMetadataValue_insert; done.
Qed.

(** X8.  No change option reaches the code, message, domain, reason,
    visibility, subject, causes, debug info, wrapped error or spec version:
    in the error [WithChanges] returns they are the receiver's, whatever
    the changes. *)
Theorem WithChanges_keeps_classification (e : TrogonError) (changes : list ChangeOption) :
  specVersion (WithChanges e changes) = specVersion e
  /\ code (WithChanges e changes) = code e
  /\ message (WithChanges e changes) = message e
  /\ domain (WithChanges e changes) = domain e
  /\ reason (WithChanges e changes) = reason e
  /\ visibility (WithChanges e changes) = visibility e
  /\ subject (WithChanges e changes) = subject e
  /\ causes (WithChanges e changes) = causes e
  /\ debugInfo (WithChanges e changes) = debugInfo e
  /\ wrappedErr (WithChanges e changes) = wrappedErr e.
Proof.
  rewrite WithChanges_foldl. revert e.
  induction changes as [|c cs IH]; intros e; simpl; [done|].
  destruct (IH (applyChange c e)) as (-> & -> & -> & -> & -> & -> & -> & -> & -> & ->).
  apply applyChange_frame.
Qed.

(** X9.  With no changes [WithChanges] returns an error equal to the
    receiver field for field (a nil map or slice and an empty one are one
    value here), and two [WithChanges] in a row are one with the changes
    of the first followed by those of the second. *)
Theorem WithChanges_composes (e : TrogonError) (changes1 changes2 : list ChangeOption) :
  WithChanges e [] = e
  /\ WithChanges (WithChanges e changes1) changes2 = WithChanges e (changes1 ++ changes2).
Proof.
  split; [by rewrite WithChanges_foldl|].
  by rewrite !WithChanges_foldl, foldl_app.
Qed.

(** X10.  A captured stack trace is never empty, and a depth that is zero
    or negative stands for 32, the depth of [WithStackTrace].
    [WithStackTraceDepth] assigns the frames and keeps the debug detail;
    [WithDebugDetail] assigns the detail and keeps the frames; after
    either the debug info is not nil. *)
Theorem debug_options_keep_other_half (e : TrogonError) (skip maxDepth : Z) (det : string) :
  captureStackTrace skip maxDepth <> []
  /\ (maxDepth <= 0 ->
      captureStackTrace skip maxDepth = captureStackTrace skip 32
      /\ applyOption (WithStackTraceDepth maxDepth) e = applyOption WithStackTrace e)
  /\ debugInfo (applyOption (WithStackTraceDepth maxDepth) e)
     = Some (mkDebugInfo (captureStackTrace 2 maxDepth)
               (from_option detail "" (debugInfo e)))
  /\ debugInfo (applyOption (WithDebugDetail det) e)
     = Some (mkDebugInfo (from_option stackFrames [] (debugInfo e)) det)
  /\ StackEntries (mkDebugInfo (captureStackTrace 2 maxDepth)
                     (from_option detail "" (debugInfo e))) <> [].
Proof.
  assert (Hne : forall s d, captureStackTrace s d <> []).
  { intros s d. unfold captureStackTrace. by destruct (Callers _ _). }
  assert (H32 : maxDepth <= 0 -> forall s, captureStackTrace s maxDepth = captureStackTrace s 32).
  { intros Hle s. unfold captureStackTrace.
    destruct (Z.leb_spec maxDepth 0) as [_|?]; [done|lia]. }
  split; [apply Hne|]. split; [|split; [|split]].
  - intros Hle. split; [by apply H32|].
    unfold WithStackTrace. simpl. by rewrite (H32 Hle).
  - by destruct e as [? ? ? ? ? ? ? ? ? ? ? ? [?|] ? ? ? ?].
  - by destruct e as [? ? ? ? ? ? ? ? ? ? ? ? [?|] ? ? ? ?].
  - unfold StackEntries. simpl. specialize (Hne 2 maxDepth).
    destruct (captureStackTrace 2 maxDepth); [done|].
    rewrite bool_decide_eq_false_2 by (simpl; lia). done.
Qed.

End ChangesValue.

Lemma debug_options_keep_other_half_witness :
  (0 <= 0)
  /\ captureStackTrace (rt:=exampleRuntime) 2 0 = captureStackTrace (rt:=exampleRuntime) 2 32
  /\ applyOption (rt:=exampleRuntime) (WithStackTraceDepth 0) minimalError
     = applyOption (rt:=exampleRuntime) WithStackTrace minimalError.
Proof.
  assert (H : 0 <= 0) by lia.
  split; [exact H|].
  exact (proj1 (proj2 (debug_options_keep_other_half (rt:=exampleRuntime)
                         minimalError 2 0 "")) H).
Defined.

Section Rendering.
Context {rt : GoRuntime}.

(** X11.  [Error] renders neither the causes nor the localized message nor
    the spec version: the text is the same whatever they are, so
    [WithCause], [WithLocalizedMessage] and [WithChangeLocalizedMessage]
    leave it as it is.  A help without links renders as no help. *)
Theorem Error_ignores_causes_and_localization (e : TrogonError) :
  (forall cs, Error (set_causes cs e) = Error e)
  /\ (forall lm, Error (set_localizedMessage lm e) = Error e)
  /\ (forall cs, Error (applyOption (WithCause cs) e) = Error e)
  /\ (forall locale msg, Error (applyOption (WithLocalizedMessage locale msg) e) = Error e)
  /\ (forall locale msg,
        Error (applyChange (WithChangeLocalizedMessage locale msg) e) = Error e)
  /\ Error (set_help (Some (mkHelp [])) e) = Error (set_help None e).
Proof.
  repeat split; intros; rewrite !Error_sections; by destruct e.
Qed.

(** X12.  The wrapped error is rendered after the help links, behind an
    empty line and the words [wrapped error: ], by its own [Error()]: the
    text of a [TrogonError] for a [TrogonError], the text of the error
    itself otherwise.  With no debug info it is the end of the text. *)
Theorem Error_renders_wrapped_error_last (e : TrogonError) (w : error) :
  debugInfo e = None ->
  Error (set_wrappedErr (Some w) e)
  = Error (set_wrappedErr None e) +:+ LF +:+ LF +:+ "wrapped error: " +:+ error_Error w
  /\ (forall p x, error_Error (ErrTrogon p x) = Error x)
  /\ (forall i text inner, error_Error (ErrForeign i text inner) = text).
Proof.
  intros Hd. split; [|done].
  rewrite !Error_sections. unfold trailingSections.
  destruct e as [a1 a2 a3 a4 a5 a6 a7 a8 a9 a10 a11 a12 d a14 a15 a16 a17];
    simpl in Hd; subst d.
  cbn [help wrappedErr debugInfo set_wrappedErr metadata].
  unfold fixedLines, optionalLines, Message.
  cbn [message code visibility domain reason id time subject sourceID retryInfo set_wrappedErr].
  rewrite ?string_app_assoc, ?string_app_empty_r.
  change (String.append "") with (fun s : string => s); cbv beta.
  rewrite ?string_app_empty_r. reflexivity.
Qed.

End Rendering.

Lemma Error_renders_wrapped_error_last_witness :
  debugInfo wrappingError = None
  /\ Error (rt:=exampleRuntime)
       (set_wrappedErr (Some (ErrForeign 0 "connection refused" None)) wrappingError)
     = Error (rt:=exampleRuntime) (set_wrappedErr None wrappingError)
       +:+ LF +:+ LF +:+ "wrapped error: " +:+ "connection refused".
Proof.
  assert (H : debugInfo wrappingError = None) by reflexivity.
  split; [exact H|].
  exact (proj1 (Error_renders_wrapped_error_last (rt:=exampleRuntime) wrappingError
                  (ErrForeign 0 "connection refused" None) H)).
Defined.

Section TemplateReplay.
Context {rt : GoRuntime}.




End TemplateReplay.

(** ** Helpers and accessors on the store *)

Module HeapHelpers.
Import Heap HeapFacts.

Ltac run_tac :=
  unfold mbind, M_bind, mret, M_ret, load, update, alloc, assign; simpl.

Section Accessors.

(** X16.  [StackFrames] hands out a copy: the slice it returns holds the
    frames of the debug info in a new array, no object of the store is
    written, and for a debug info without frames it returns nil and
    allocates nothing. *)
Theorem StackFrames_returns_copy (s : store) (d : DebugInfo) (fs : list Frame) :
  valid_slice framesR s (stackFrames d) ->
  read_slice framesR s (stackFrames d) = Some fs ->
  exists frames s',
    StackFrames d s = Some (frames, s')
    /\ read_slice framesR s' frames = Some fs
    /\ extends s s'
    /\ fresh_slice framesR s frames
    /\ (fs = [] -> frames = None /\ s' = s)
    /\ (fs <> [] ->
        frames = Some (mkSlice (length (frameArrays s)) (length fs))
        /\ s' = put framesR (frameArrays s ++ [fs]) s).
Proof.
  intros Hvalid Hread. unfold StackFrames.
  destruct (stackFrames d) as [sl|] eqn:Hsl; simpl in *.
  - destruct Hvalid as (a & Ha & Hlen). rewrite Ha in Hread. simpl in Hread.
    injection Hread as <-.
    case_bool_decide as Hz.
    + exists None, s. rewrite Hz, take_0. repeat split; try done.
      all: try apply extends_refl.
    + assert (Htake : length (take (len sl) a) = len sl) by (rewrite length_take; lia).
      exists (Some (mkSlice (length (frameArrays s)) (len sl))),
             (put framesR (frameArrays s ++ [take (len sl) a]) s).
      assert (Hrun : (frames ← make_slice framesR zeroFrame (len sl);
                      copy_slice framesR frames (Some sl);; mret frames) s
                     = Some (Some (mkSlice (length (frameArrays s)) (len sl)),
                             put framesR (frameArrays s ++ [take (len sl) a]) s)).
      { unfold make_slice, copy_slice, slice_elems. run_tac.
        rewrite (lookup_app_l_Some _ _ _ _ Ha). simpl.
        rewrite lookup_snoc. simpl.
        rewrite bool_decide_eq_true_2 by (rewrite length_app; simpl; lia).
        do 3 f_equal. rewrite insert_snoc. do 2 f_equal.
        rewrite Htake, Nat.min_id, drop_ge by (rewrite length_replicate; lia).
        rewrite app_nil_r. apply take_ge. lia. }
      split; [exact Hrun|]. split.
      { simpl. rewrite lookup_snoc. simpl. f_equal. apply take_ge. lia. }
      split.
      { repeat split; simpl; try done. by apply prefix_app_r. }
      split; [simpl; lia|]. split.
      { intros Hnil. rewrite Hnil in Htake. simpl in Htake. lia. }
      intros _. by rewrite Htake.
  - injection Hread as <-. exists None, s. repeat split; try done.
    all: try apply extends_refl.
Qed.

End Accessors.

Section Helpers.
Context {rt : GoRuntime}.

(** X14.  [addMetadataValue] on the store: afterwards the error holds a
    map with the entries it had and the new one, the new one winning on
    its key.  When the error had entries, its own map is updated in place,
    so every holder of that map sees the entry; when it had none (a nil or
    an empty map), the entry goes into a new map and no existing map is
    written. *)
Theorem addMetadataValue_in_place_unless_empty (s : store) (e : loc) (err : TrogonError)
    (old : option Metadata) (vis : Visibility) (key val : string) :
  errs s !! e = Some err ->
  read_metadata s (metadata err) = Some old ->
  exists s' m',
    addMetadataValue e vis key val s = Some (tt, s')
    /\ errs s' !! e = Some (set_metadata (Some m') err)
    /\ maps s' !! m' = Some (<[key := mkMetadataValue val vis]> (default ∅ old))
    /\ (size (default ∅ old) = 0%nat ->
        m' = length (maps s)
        /\ maps s' = maps s ++ [ {[ key := mkMetadataValue val vis ]} ])
    /\ (size (default ∅ old) <> 0%nat ->
        metadata err = Some m'
        /\ errs s' = errs s
        /\ maps s' = <[m' := <[key := mkMetadataValue val vis]> (default ∅ old)]> (maps s))
    /\ helps s' = helps s /\ debugs s' = debugs s /\ linkArrays s' = linkArrays s
    /\ frameArrays s' = frameArrays s /\ causeArrays s' = causeArrays s.
Proof.
  intros Herr Hread.
  assert (He : (e < length (errs s))%nat) by by eapply lookup_lt_Some.
  unfold addMetadataValue, map_len, make_map, map_assign. run_tac. rewrite Herr. simpl.
  destruct (metadata err) as [p|] eqn:Hmeta; simpl in Hread; run_tac.
  - destruct (maps s !! p) as [md|] eqn:Hp; simpl in Hread; [|done].
    injection Hread as <-. simpl.
    assert (Hlt : (p < length (maps s))%nat) by by eapply lookup_lt_Some.
    case_bool_decide as Hz; run_tac.
    + rewrite Herr. simpl. rewrite bool_decide_eq_true_2 by done. simpl.
      rewrite list_lookup_insert_eq by done. simpl.
      rewrite lookup_snoc. simpl.
      rewrite bool_decide_eq_true_2 by (rewrite length_app; simpl; lia).
      eexists _, (length (maps s)). split; [reflexivity|]. simpl.
      rewrite list_lookup_insert_eq by done.
      rewrite insert_snoc, lookup_snoc.
      apply map_size_empty_inv in Hz. subst md.
      repeat split; try done; by rewrite ?insert_empty.
    + rewrite Herr. simpl. rewrite Hmeta. run_tac. rewrite Hp. simpl.
      rewrite bool_decide_eq_true_2 by done.
      eexists _, p. split; [reflexivity|]. simpl.
      rewrite list_lookup_insert_eq by done.
      split; [by rewrite Herr; destruct err; simpl in *; subst|].
      repeat split; try done.
  - injection Hread as <-. simpl.
    rewrite Herr. simpl. rewrite bool_decide_eq_true_2 by done. simpl.
    rewrite list_lookup_insert_eq by done. simpl.
    rewrite lookup_snoc. simpl.
    rewrite bool_decide_eq_true_2 by (rewrite length_app; simpl; lia).
    eexists _, (length (maps s)). split; [reflexivity|]. simpl.
    rewrite list_lookup_insert_eq by done.
    rewrite insert_snoc, lookup_snoc.
    repeat split; try done; by rewrite ?insert_empty.
Qed.

(** What [append] does to the store and what the new slice reads as. *)
Lemma append_links_run (s : store) (sl : option slice) (ls : list HelpLink) (x : HelpLink) :
  valid_slice linksR s sl ->
  read_slice linksR s sl = Some ls ->
  exists sl' s',
    append linksR zeroLink sl x s = Some (sl', s')
    /\ read_slice linksR s' sl' = Some (ls ++ [x])
    /\ errs s' = errs s /\ maps s' = maps s /\ helps s' = helps s /\ debugs s' = debugs s
    /\ frameArrays s' = frameArrays s /\ causeArrays s' = causeArrays s
    /\ match sl with
       | Some old =>
           forall a, linkArrays s !! arr old = Some a ->
             if bool_decide (len old < length a)%nat
             then sl' = Some (mkSlice (arr old) (S (len old)))
                  /\ linkArrays s' = <[arr old := <[len old := x]> a]> (linkArrays s)
             else fresh_slice linksR s sl' /\ linkArrays s `prefix_of` linkArrays s'
       | None => fresh_slice linksR s sl' /\ linkArrays s `prefix_of` linkArrays s'
       end.
Proof.
  intros Hvalid Hread. unfold append.
  destruct sl as [old|]; simpl in *.
  - destruct Hvalid as (a & Ha & Hlen). rewrite Ha in Hread. simpl in Hread.
    injection Hread as <-. run_tac. rewrite Ha. simpl.
    assert (Hlt : (arr old < length (linkArrays s))%nat) by by eapply lookup_lt_Some.
    case_bool_decide as Hroom; run_tac.
    + rewrite bool_decide_eq_true_2 by done.
      eexists _, _. split; [reflexivity|]. simpl.
      rewrite list_lookup_insert_eq by done. simpl.
      split.
      { f_equal. rewrite (take_S_r _ _ x) by (by apply list_lookup_insert_eq).
        f_equal. by rewrite take_insert_ge. }
      repeat split; try done.
      intros a' Ha'. assert (a' = a) as -> by congruence.
      by rewrite bool_decide_eq_true_2.
    + eexists _, _. split; [reflexivity|]. simpl.
      rewrite lookup_snoc. simpl.
      split.
      { f_equal. rewrite (cons_middle x), app_assoc.
        apply take_app_length'. rewrite length_app. simpl. lia. }
      repeat split; try done.
      intros a' Ha'. assert (a' = a) as -> by congruence.
      rewrite bool_decide_eq_false_2 by done.
      split; [simpl; lia|by apply prefix_app_r].
  - injection Hread as <-. run_tac.
    eexists _, _. split; [reflexivity|]. simpl.
    rewrite lookup_snoc. simpl.
    repeat split; try done. by apply prefix_app_r.
Qed.

(** X15.  [addHelpLink] on the store: afterwards the help of the error
    reads as the links it had followed by the new one.  An error without
    help gets a new help.  An error with help keeps its help object; the
    link is written into the array of its links when that array has room
    behind them, in the place right after them, and otherwise the links
    move to a new array and the old one is left as it is. *)
Theorem addHelpLink_appends_in_place_when_room (s : store) (e : loc) (err : TrogonError)
    (old : option (list HelpLink)) (description url : string) :
  errs s !! e = Some err ->
  valid_help s (help err) ->
  read_help s (help err) = Some old ->
  exists s' hp,
    addHelpLink e description url s = Some (tt, s')
    /\ errs s' !! e = Some (set_help (Some hp) err)
    /\ read_help s' (Some hp) = Some (Some (default [] old ++ [mkHelpLink description url]))
    /\ (help err = None ->
        hp = length (helps s) /\ linkArrays s `prefix_of` linkArrays s')
    /\ (forall hp0 hv, help err = Some hp0 -> helps s !! hp0 = Some hv ->
          hp = hp0 /\ errs s' = errs s
          /\ match links hv with
             | Some sl =>
                 forall a, linkArrays s !! arr sl = Some a ->
                   if bool_decide (len sl < length a)%nat
                   then linkArrays s'
                        = <[arr sl := <[len sl := mkHelpLink description url]> a]>
                            (linkArrays s)
                   else linkArrays s `prefix_of` linkArrays s'
             | None => linkArrays s `prefix_of` linkArrays s'
             end)
    /\ maps s' = maps s /\ debugs s' = debugs s
    /\ frameArrays s' = frameArrays s /\ causeArrays s' = causeArrays s.
Proof.
  intros Herr Hvalid Hread.
  assert (He : (e < length (errs s))%nat) by by eapply lookup_lt_Some.
  unfold addHelpLink. run_tac. rewrite Herr. simpl.
  destruct (help err) as [hp0|] eqn:Hhelp; simpl in Hread, Hvalid; run_tac.
  - destruct Hvalid as (hv & Hhv & Hvs). rewrite Hhv in Hread. simpl in Hread.
    destruct (read_slice linksR s (links hv)) as [ls|] eqn:Hls; simpl in Hread; [|done].
    injection Hread as <-. simpl.
    rewrite Herr. simpl. rewrite Hhelp. run_tac. rewrite Hhv. simpl.
    destruct (append_links_run s (links hv) ls (mkHelpLink description url) Hvs Hls)
      as (sl' & s1 & Hrun & Hread1 & He1 & Hm1 & Hh1 & Hd1 & Hf1 & Hc1 & Hplace).
    rewrite Hrun. simpl.
    assert (Hlt : (hp0 < length (helps s))%nat) by by eapply lookup_lt_Some.
    rewrite Hh1, bool_decide_eq_true_2 by done.
    eexists _, hp0. split; [reflexivity|]. simpl.
    rewrite list_lookup_insert_eq by done. simpl.
    split; [by rewrite He1, Herr; destruct err; simpl in *; subst|].
    split.
    { change (Some <$> read_slice linksR s1 sl' = Some (Some (ls ++ [mkHelpLink description url]))).
      by rewrite Hread1. }
    split; [done|]. split; [|done].
    intros hp1 hv1 [= <-] Hhv1. assert (hv1 = hv) as -> by congruence.
    split; [done|]. split; [done|].
    destruct (links hv) as [sl|]; [|by destruct Hplace].
    intros a Ha. specialize (Hplace a Ha).
    case_bool_decide; by destruct Hplace.
  - injection Hread as <-. simpl.
    rewrite Herr. simpl. rewrite bool_decide_eq_true_2 by done. simpl.
    rewrite list_lookup_insert_eq by done. simpl. run_tac.
    rewrite lookup_snoc. simpl. unfold append. run_tac.
    rewrite bool_decide_eq_true_2 by (rewrite length_app; simpl; lia).
    eexists _, (length (helps s)). split; [reflexivity|]. simpl.
    rewrite list_lookup_insert_eq by done.
    rewrite insert_snoc, lookup_snoc. simpl. rewrite lookup_snoc. simpl.
    repeat split; try done. by apply prefix_app_r.
Qed.

End Helpers.

Lemma StackFrames_returns_copy_witness :
  valid_slice framesR receiverStore (Some (mkSlice 0%nat 1%nat))
  /\ read_slice framesR receiverStore (Some (mkSlice 0%nat 1%nat))
     = Some [mkFrame "users.go" 42 "main.findUser"]
  /\ exists frames s',
       StackFrames (mkDebugInfo (Some (mkSlice 0%nat 1%nat)) "lookup failed") receiverStore
       = Some (frames, s')
       /\ read_slice framesR s' frames = Some [mkFrame "users.go" 42 "main.findUser"]
       /\ fresh_slice framesR receiverStore frames.
Proof.
  assert (Hvalid : valid_slice framesR receiverStore (Some (mkSlice 0%nat 1%nat))).
  { exists [mkFrame "users.go" 42 "main.findUser"]. split; [reflexivity|simpl; lia]. }
  assert (Hread : read_slice framesR receiverStore (Some (mkSlice 0%nat 1%nat))
                  = Some [mkFrame "users.go" 42 "main.findUser"]) by reflexivity.
  split; [exact Hvalid|]. split; [exact Hread|].
  destruct (StackFrames_returns_copy receiverStore
              (mkDebugInfo (Some (mkSlice 0%nat 1%nat)) "lookup failed")
              [mkFrame "users.go" 42 "main.findUser"] Hvalid Hread)
    as (frames & s' & Hrun & Hfs & _ & Hfresh & _).
  exists frames, s'. split; [exact Hrun|]. split; [exact Hfs|exact Hfresh].
Defined.

Lemma addMetadataValue_in_place_unless_empty_witness :
  exists s' m',
    addMetadataValue 0%nat VisibilityPublic "userId" "4567890123"
      receiverStore = Some (tt, s')
    /\ maps s' !! m'
       = Some (<["userId" := mkMetadataValue "4567890123" VisibilityPublic]>
                 {[ "userId" := mkMetadataValue "1234567890" VisibilityPublic ]}).
Proof.
  destruct (addMetadataValue_in_place_unless_empty receiverStore 0%nat
              (mkTrogonError SpecVersion CodeNotFound "" "shopify.users" "NOT_FOUND"
                 (Some 0%nat) None VisibilityInternal "" "" None (Some 0%nat) (Some 0%nat)
                 None None "" None)
              (Some {[ "userId" := mkMetadataValue "1234567890" VisibilityPublic ]})
              VisibilityPublic "userId" "4567890123" eq_refl eq_refl)
    as (s' & m' & Hrun & _ & Hmap & _).
  exists s', m'. split; [exact Hrun|exact Hmap].
Defined.

Lemma addHelpLink_appends_in_place_when_room_witness :
  exists s' hp,
    addHelpLink (rt:=exampleRuntime) 0%nat "Retry" "https://a.example.com" stampedStore
    = Some (tt, s')
    /\ read_help s' (Some hp)
       = Some (Some [mkHelpLink "Docs" "https://docs.example.com";
                     mkHelpLink "Status" "https://status.example.com";
                     mkHelpLink "Support" "https://support.example.com";
                     mkHelpLink "Retry" "https://a.example.com"]).
Proof.
  assert (Hvalid : valid_help stampedStore (Some 0%nat)).
  { exists (mkHelp (Some (mkSlice 0%nat 3%nat))). split; [reflexivity|].
    eexists. split; [reflexivity|simpl; lia]. }
  destruct (addHelpLink_appends_in_place_when_room (rt:=exampleRuntime) stampedStore 0%nat
              (mkTrogonError SpecVersion CodeUnknown "" "shopify.api" "RATE_LIMIT_EXCEEDED"
                 None None VisibilityInternal "" "" None (Some 0%nat) None None None "" None)
              (Some [mkHelpLink "Docs" "https://docs.example.com";
                     mkHelpLink "Status" "https://status.example.com";
                     mkHelpLink "Support" "https://support.example.com"])
              "Retry" "https://a.example.com" eq_refl Hvalid eq_refl)
    as (s' & hp & Hrun & _ & Hread & _).
  exists s', hp. split; [exact Hrun|exact Hread].
Defined.

End HeapHelpers.
